(** * Delayed-publication scheduler of the blog API

    A shallow embedding of the post repositories
    ([internal/repository/mock_repo.go], [internal/repository/post_repo.go]),
    of [PostService] and of [StartPostScheduler] (package [service]),
    followed by the properties of the scheduler stated in the specification;
    then of [CommentService] ([internal/service/comment_service.go]) and of the
    in-memory comment, user and refresh-token repositories, with further
    properties of the repositories and services.

    Conventions.
    - Go's [int] is a 64-bit integer: values are [Z], and the one place where
      the code adds two caller-supplied integers ([offset + limit]) and the
      counter [seq++] wrap around through [wrap].
    - A [time.Time] is the instant it denotes, counted from Go's zero time.
    - A [*model.Post] is modelled by the value it points to.  The in-memory
      repository returns copies from [GetPost] and [GetPosts], and neither the
      service nor the scheduler writes through a pointer after handing it to
      the repository, so no claim depends on the sharing.
    - What the environment decides during a call (the clock, the order in which
      a Go map is ranged over, whether the database answers) is an explicit
      argument of type [env]. *)

From Stdlib Require Import ZArith Lia Sorted.
From stdpp Require Import gmap list strings.

Open Scope Z_scope.

(** ** Integers and time *)

Definition wrap (z : Z) : Z := (z + 2 ^ 63) mod 2 ^ 64 - 2 ^ 63.

Definition int_range (z : Z) : Prop := - 2 ^ 63 <= z < 2 ^ 63.

Module Time.
Definition t : Type := Z.
Definition IsZero (x : t) : bool := x =? 0.
(** [x.After(u)] *)
Definition After (x u : t) : bool := u <? x.
End Time.

(** ** Errors and results *)

Inductive error : Type :=
| repository_ErrPostNotFound
| repository_Wrapped (msg : string)   (* fmt.Errorf("failed to ...: %w", err) *)
| service_ErrPostNotFound
| service_ErrForbidden
| service_ErrDatabase.

Inductive result (A : Type) : Type :=
| Ok (a : A)
| Err (e : error)
| Panic.
Arguments Ok {A} a.
Arguments Err {A} e.
Arguments Panic {A}.

(** ** The data model *)

(** Modelled from the spec: [model.Post] is declared in [internal/model], which
    is not among the sources; the fields are the ones the repositories, the
    service and the scheduler read and write. *)
Record Post : Type := mkPost {
  ID : Z;
  Title : string;
  Content : string;
  AuthorID : Z;
  Published : bool;
  PublishAt : option Time.t;
  CreatedAt : Time.t;
  UpdatedAt : Time.t
}.

Definition set_ID (v : Z) (p : Post) : Post :=
  mkPost v (Title p) (Content p) (AuthorID p) (Published p) (PublishAt p) (CreatedAt p) (UpdatedAt p).
Definition set_Title (v : string) (p : Post) : Post :=
  mkPost (ID p) v (Content p) (AuthorID p) (Published p) (PublishAt p) (CreatedAt p) (UpdatedAt p).
Definition set_Content (v : string) (p : Post) : Post :=
  mkPost (ID p) (Title p) v (AuthorID p) (Published p) (PublishAt p) (CreatedAt p) (UpdatedAt p).
Definition set_Published (v : bool) (p : Post) : Post :=
  mkPost (ID p) (Title p) (Content p) (AuthorID p) v (PublishAt p) (CreatedAt p) (UpdatedAt p).
Definition set_PublishAt (v : option Time.t) (p : Post) : Post :=
  mkPost (ID p) (Title p) (Content p) (AuthorID p) (Published p) v (CreatedAt p) (UpdatedAt p).
Definition set_CreatedAt (v : Time.t) (p : Post) : Post :=
  mkPost (ID p) (Title p) (Content p) (AuthorID p) (Published p) (PublishAt p) v (UpdatedAt p).
Definition set_UpdatedAt (v : Time.t) (p : Post) : Post :=
  mkPost (ID p) (Title p) (Content p) (AuthorID p) (Published p) (PublishAt p) (CreatedAt p) v.

(** Modelled from the spec: [model.PostCreateRequest], [model.PostUpdateRequest]
    and [model.PaginationParams] are declared in [internal/model] too; the
    fields are the ones [PostService] reads. *)
Record PostCreateRequest : Type := mkCreateReq {
  cr_Title : string;
  cr_Content : string;
  cr_PublishAt : option Time.t
}.

Record PostUpdateRequest : Type := mkUpdateReq {
  ur_Title : option string;
  ur_Content : option string;
  ur_PublishAt : option Time.t
}.

Record PaginationParams : Type := mkPagination {
  Limit : option Z;
  Offset : option Z
}.

(** [repository.PostFilter] *)
Record PostFilter : Type := mkFilter {
  f_AuthorID : option Z;
  f_Published : option bool;
  f_DueBefore : option Time.t
}.

(** ** The environment of a call *)

Record env : Type := mkEnv {
  now : Time.t;            (* what time.Now() returns *)
  order : list nat;        (* the order in which rows or map entries come *)
  fault : option string    (* the error of the database driver, if any *)
}.

(** [shuffle cs l] is a rearrangement of [l]: the choice [c] picks the element
    at position [c mod length l] next.  Every rearrangement of [l] is
    [shuffle cs l] for some [cs]. *)
Fixpoint shuffle {A : Type} (cs : list nat) (l : list A) : list A :=
  match cs with
  | [] => l
  | c :: cs' =>
      let k := (c mod length l)%nat in
      match l !! k with
      | Some x => x :: shuffle cs' (delete k l)
      | None => l
      end
  end.

(** [sort.Slice(result, less)].  Go's sort is not stable; the order of elements
    that [less] does not separate is left to [shuffle] on the input. *)
Fixpoint insert_by {A : Type} (less : A -> A -> bool) (x : A) (l : list A) : list A :=
  match l with
  | [] => [x]
  | y :: l' => if less y x then y :: insert_by less x l' else x :: l
  end.

Fixpoint sort_Slice {A : Type} (less : A -> A -> bool) (l : list A) : list A :=
  match l with
  | [] => []
  | x :: l' => insert_by less x (sort_Slice less l')
  end.

(** The comparison of both repositories: newest first. *)
Definition created_after (p q : Post) : bool :=
  Time.After (CreatedAt p) (CreatedAt q).

(** One of the three tests that make both in-memory readers drop a post
    ([continue] in [GetPosts] and [GetPostsCount], [ErrPostNotFound] in
    [GetPost]) holds. *)
Definition filtered_out (filter : option PostFilter) (post : Post) : bool :=
  match filter with
  | None => false
  | Some f =>
      match f_AuthorID f with
      | Some a => negb (AuthorID post =? a)
      | None => false
      end
      || match f_Published f with
         | Some b => negb (eqb (Published post) b)
         | None => false
         end
      || match f_DueBefore f, PublishAt post with
         | Some d, Some at_ => Time.After at_ d
         | _, _ => false
         end
  end.

Definition kept (filter : option PostFilter) (post : Post) : bool :=
  negb (filtered_out filter post).

(** ** [InMemoryPostRepo] (mock_repo.go) *)

Module InMemoryPostRepo.

Record t : Type := mk {
  seq : Z;
  posts : gmap Z Post
}.

Definition NewInMemoryPostRepo : t := mk 0 ∅.

(** [for _, post := range r.posts] *)
Definition range_posts (cs : list nat) (m : gmap Z Post) : list Post :=
  shuffle cs (map_to_list m).*2.

Definition Create (e : env) (r : t) (post : Post) : t * Post * option error :=
  let seq' := wrap (seq r + 1) in
  let post := set_UpdatedAt (now e) (set_CreatedAt (now e) (set_ID seq' post)) in
  (mk seq' (<[ID post := post]> (posts r)), post, None).

Definition GetPost (r : t) (id : Z) (filter : option PostFilter) : result Post :=
  match posts r !! id with
  | None => Err repository_ErrPostNotFound
  | Some post =>
      if filtered_out filter post then Err repository_ErrPostNotFound
      else Ok post
  end.

(** The slice [result] of [GetPosts] after [sort.Slice]. *)
Definition selected (cs : list nat) (r : t) (filter : option PostFilter) : list Post :=
  sort_Slice created_after (List.filter (kept filter) (range_posts cs (posts r))).

Definition GetPosts (cs : list nat) (r : t) (filter : option PostFilter)
    (limit offset : Z) : result (list Post) :=
  let result := selected cs r filter in
  let len := Z.of_nat (length result) in
  if len <=? offset then Ok []
  else
    let end_ := wrap (offset + limit) in
    let end_ := if (limit <=? 0) || (len <? end_) then len else end_ in
    (* make([]*model.Post, end-offset) *)
    if end_ - offset <? 0 then Panic
    (* result[i] for i := offset; i < end *)
    else if (offset <? end_) && (offset <? 0) then Panic
    else Ok (take (Z.to_nat (end_ - offset)) (drop (Z.to_nat offset) result)).

Definition GetPostsCount (cs : list nat) (r : t) (filter : option PostFilter) : result Z :=
  Ok (Z.of_nat (length (List.filter (kept filter) (range_posts cs (posts r))))).

Definition Update (e : env) (r : t) (post : Post) : t * Post * option error :=
  match posts r !! ID post with
  | None => (r, post, Some repository_ErrPostNotFound)
  | Some existing =>
      let post := set_UpdatedAt (now e) (set_CreatedAt (CreatedAt existing) post) in
      (mk (seq r) (<[ID post := post]> (posts r)), post, None)
  end.

Definition Delete (r : t) (id : Z) : t * option error :=
  match posts r !! id with
  | None => (r, Some repository_ErrPostNotFound)
  | Some _ => (mk (seq r) (delete id (posts r)), None)
  end.

End InMemoryPostRepo.

(** ** [PostRepo] (post_repo.go)

    Modelled from the spec: [database.DatabaseManager] is not among the
    sources; [r.db.TxDB(ctx)] is taken to be the gorm handle of the store of
    posts, and a chain of gorm calls is read as the SQL statement it builds.
    The table [posts] is a finite map from the primary key [id] to the row.
    A call fails with the driver's error when the environment says so.
    [Create] is not modelled: what gorm fills in on insert depends on the
    declaration of [model.Post]. *)

Module PostRepo.

Record t : Type := mk {
  table : gmap Z Post
}.

(** The [WHERE] clause [applyFilters] builds, as a test on a row.  In SQL
    [publish_at <= ?] is not true of a row whose [publish_at] is [NULL]. *)
Definition applyFilters (filter : option PostFilter) (row : Post) : bool :=
  match filter with
  | None => true
  | Some f =>
      match f_AuthorID f with
      | Some a => AuthorID row =? a
      | None => true
      end
      && match f_Published f with
         | Some b => eqb (Published row) b
         | None => true
         end
      && match f_DueBefore f with
         | Some d =>
             match PublishAt row with
             | Some at_ => at_ <=? d
             | None => false
             end
         | None => true
         end
  end.

(** [ORDER BY created_at DESC] over the rows the filter keeps. *)
Definition selected (cs : list nat) (r : t) (filter : option PostFilter) : list Post :=
  sort_Slice created_after
    (List.filter (applyFilters filter) (shuffle cs (map_to_list (table r)).*2)).

Definition GetPost (e : env) (r : t) (id : Z) (filter : option PostFilter) : result Post :=
  match fault e with
  | Some _ => Err (repository_Wrapped "failed to get post")
  | None =>
      match table r !! id with
      | Some row => if applyFilters filter row then Ok row else Err repository_ErrPostNotFound
      | None => Err repository_ErrPostNotFound
      end
  end.

Definition GetPosts (e : env) (r : t) (filter : option PostFilter)
    (limit offset : Z) : result (list Post) :=
  match fault e with
  | Some _ => Err (repository_Wrapped "failed to get posts")
  | None =>
      let rows := selected (order e) r filter in
      let rows := if 0 <? offset then drop (Z.to_nat offset) rows else rows in
      let rows := if 0 <? limit then take (Z.to_nat limit) rows else rows in
      Ok rows
  end.

Definition GetPostsCount (e : env) (r : t) (filter : option PostFilter) : result Z :=
  match fault e with
  | Some _ => Err (repository_Wrapped "failed to count posts")
  | None => Ok (Z.of_nat (length (List.filter (applyFilters filter) (map_to_list (table r)).*2)))
  end.

(** [UPDATE posts SET title, content, publish_at, published, updated_at
    WHERE id = post.ID] *)
Definition Update (e : env) (r : t) (post : Post) : t * Post * option error :=
  let post := set_UpdatedAt (now e) post in
  match fault e with
  | Some _ => (r, post, Some (repository_Wrapped "failed to update post"))
  | None =>
      match table r !! ID post with
      | None => (r, post, Some repository_ErrPostNotFound)
      | Some row =>
          let row :=
            set_UpdatedAt (UpdatedAt post)
              (set_Published (Published post)
                 (set_PublishAt (PublishAt post)
                    (set_Content (Content post) (set_Title (Title post) row)))) in
          (mk (<[ID post := row]> (table r)), post, None)
      end
  end.

Definition Delete (e : env) (r : t) (id : Z) : t * option error :=
  match fault e with
  | Some _ => (r, Some (repository_Wrapped "failed to delete post"))
  | None =>
      match table r !! id with
      | None => (r, Some repository_ErrPostNotFound)
      | Some _ => (mk (delete id (table r)), None)
      end
  end.

End PostRepo.

(** ** The interface [repository.PostRepository]

    Modelled from the spec: the declaration of the interface is not among the
    sources; its methods are the ones both implementations define and that
    [PostService] and the scheduler call. *)

Class PostRepository (R : Type) : Type := {
  repo_Create : env -> R -> Post -> R * Post * option error;
  repo_GetPost : env -> R -> Z -> option PostFilter -> result Post;
  repo_GetPosts : env -> R -> option PostFilter -> Z -> Z -> result (list Post);
  repo_GetPostsCount : env -> R -> option PostFilter -> result Z;
  repo_Update : env -> R -> Post -> R * Post * option error;
  repo_Delete : env -> R -> Z -> R * option error
}.

#[export] Instance InMemoryPostRepo_PostRepository : PostRepository InMemoryPostRepo.t := {
  repo_Create := InMemoryPostRepo.Create;
  repo_GetPost := fun _ => InMemoryPostRepo.GetPost;
  repo_GetPosts := fun e => InMemoryPostRepo.GetPosts (order e);
  repo_GetPostsCount := fun e => InMemoryPostRepo.GetPostsCount (order e);
  repo_Update := InMemoryPostRepo.Update;
  repo_Delete := fun _ => InMemoryPostRepo.Delete
}.

(** ** [PostService]

    A method takes the reading [now_] of its own [time.Now()] and one [env] per
    repository call.  The calls to the logger are left out. *)

Module PostService.
Section WithRepo.
Context {R : Type} `{PostRepository R}.

Definition Create (now_ : Time.t) (e : env) (s : R) (userID : Z)
    (req : PostCreateRequest) : R * result Post :=
  let post := mkPost 0 (cr_Title req) (cr_Content req) userID false (cr_PublishAt req) 0 0 in
  let post :=
    if match PublishAt post with
       | None => true
       | Some at_ => Time.IsZero at_ || negb (Time.After at_ now_)
       end
    then set_Published true post
    else set_Published false post in
  let '(s', post, err) := repo_Create e s post in
  match err with
  | Some _ => (s', Err service_ErrDatabase)
  | None => (s', Ok post)
  end.

Definition GetByID (e : env) (s : R) (id : Z) : result Post :=
  let published := true in
  match repo_GetPost e s id (Some (mkFilter None (Some published) None)) with
  | Ok post => Ok post
  | Err repository_ErrPostNotFound => Err service_ErrPostNotFound
  | Err _ => Err service_ErrDatabase
  | Panic => Panic
  end.

Definition GetAll (e1 e2 : env) (s : R) (pagination : PaginationParams)
    : result (list Post * Z) :=
  let published := true in
  let filter := Some (mkFilter None (Some published) None) in
  match Limit pagination, Offset pagination with
  | Some limit, Some offset =>
      match repo_GetPosts e1 s filter limit offset with
      | Ok posts =>
          match repo_GetPostsCount e2 s filter with
          | Ok total => Ok (posts, total)
          | Err _ => Err service_ErrDatabase
          | Panic => Panic
          end
      | Err _ => Err service_ErrDatabase
      | Panic => Panic
      end
  | _, _ => Panic   (* *pagination.Limit, *pagination.Offset *)
  end.

Definition checkPostOwner (post : Post) (userID : Z) : option error :=
  if negb (AuthorID post =? userID) then Some service_ErrForbidden else None.

Definition Update (now_ : Time.t) (e1 e2 : env) (s : R) (id userID : Z)
    (req : PostUpdateRequest) : R * result Post :=
  match repo_GetPost e1 s id None with
  | Err repository_ErrPostNotFound => (s, Err service_ErrPostNotFound)
  | Err _ => (s, Err service_ErrDatabase)
  | Panic => (s, Panic)
  | Ok post =>
      match checkPostOwner post userID with
      | Some err => (s, Err err)
      | None =>
          let updated := false in
          let '(post, updated) :=
            match ur_Title req with
            | Some title =>
                if negb (String.eqb title (Title post))
                then (set_Title title post, true) else (post, updated)
            | None => (post, updated)
            end in
          let '(post, updated) :=
            match ur_Content req with
            | Some content =>
                if negb (String.eqb content (Content post))
                then (set_Content content post, true) else (post, updated)
            | None => (post, updated)
            end in
          let '(post, updated) :=
            match ur_PublishAt req with
            | Some at_ =>
                let post := set_PublishAt (Some at_) post in
                let post :=
                  if match PublishAt post with
                     | Some at' => Time.After at' now_
                     | None => false
                     end
                  then set_Published false post
                  else set_Published true post in
                (post, true)
            | None => (post, updated)
            end in
          if negb updated then (s, Ok post)
          else
            let '(s', post, err) := repo_Update e2 s post in
            match err with
            | Some repository_ErrPostNotFound => (s', Err service_ErrPostNotFound)
            | Some _ => (s', Err service_ErrDatabase)
            | None => (s', Ok post)
            end
      end
  end.

Definition Delete (e1 e2 : env) (s : R) (id userID : Z) : R * result unit :=
  match repo_GetPost e1 s id None with
  | Err repository_ErrPostNotFound => (s, Err service_ErrPostNotFound)
  | Err _ => (s, Err service_ErrDatabase)
  | Panic => (s, Panic)
  | Ok post =>
      match checkPostOwner post userID with
      | Some err => (s, Err err)
      | None =>
          let '(s', err) := repo_Delete e2 s id in
          match err with
          | Some repository_ErrPostNotFound => (s', Err service_ErrPostNotFound)
          | Some _ => (s', Err service_ErrDatabase)
          | None => (s', Ok tt)
          end
      end
  end.

Definition GetByAuthor (e1 e2 : env) (s : R) (authorID : Z)
    (pagination : PaginationParams) : result (list Post * Z) :=
  let filter := Some (mkFilter (Some authorID) (Some true) None) in
  match Limit pagination, Offset pagination with
  | Some limit, Some offset =>
      match repo_GetPosts e1 s filter limit offset with
      | Ok posts =>
          match repo_GetPostsCount e2 s filter with
          | Ok total => Ok (posts, total)
          | Err _ => Err service_ErrDatabase
          | Panic => Panic
          end
      | Err _ => Err service_ErrDatabase
      | Panic => Panic
      end
  | _, _ => Panic
  end.

Definition GetDelayedPosts (e1 e2 : env) (s : R) (userID : Z)
    (pagination : PaginationParams) : result (list Post * Z) :=
  let filter := Some (mkFilter (Some userID) (Some false) None) in
  match Limit pagination, Offset pagination with
  | Some limit, Some offset =>
      match repo_GetPosts e1 s filter limit offset with
      | Ok posts =>
          match repo_GetPostsCount e2 s filter with
          | Ok total => Ok (posts, total)
          | Err _ => Err service_ErrDatabase
          | Panic => Panic
          end
      | Err _ => Err service_ErrDatabase
      | Panic => Panic
      end
  | _, _ => Panic
  end.

Definition GetDelayedPostByID (e : env) (s : R) (userID postID : Z) : result Post :=
  let filter := Some (mkFilter (Some userID) (Some false) None) in
  match repo_GetPost e s postID filter with
  | Ok post => Ok post
  | Err repository_ErrPostNotFound => Err service_ErrPostNotFound
  | Err _ => Err service_ErrDatabase
  | Panic => Panic
  end.

End WithRepo.
End PostService.

(** ** [StartPostScheduler]

    The goroutines of the scheduler (the poll loop and the workers) and the
    rest of the process interleave; one [label] is one atomic action of one of
    them.  Where Go's [select] has several ready cases any of them may be
    taken, so every enabled label is a possible next step. *)

Module Scheduler.

Definition SchedulerWorkers : nat := 5.
Definition SchedulerBufferSize : nat := 1000.
Definition SchedulerMaxJobQueueSize : nat := 500.

(** The filter and the page of the fetch in the poll loop. *)
Definition due_filter (now_ : Time.t) : option PostFilter :=
  Some (mkFilter None (Some false) (Some now_)).
Definition page_limit : Z := 100.
Definition page_offset : Z := 0.

Inductive event : Type :=
| Info_started
| Info_stopped
| Error_fetch (err : error)
| Warn_backlog (pending : nat)
| Error_publish (workerID : nat) (id : Z) (err : error)
| Info_published (workerID : nat) (id : Z).

(** A worker is about to [select], holds a received post, or has returned. *)
Inductive worker : Type :=
| WSelect
| WHolding (post : Post)
| WReturned.

(** Where the poll loop stands. *)
Inductive loop_pc : Type :=
| LSelect                        (* at the outer select *)
| LPush (posts : list Post)      (* at the select of PushJobs, posts left to send *)
| LCheck (posts : list Post)     (* a send succeeded, before len(jobs) is tested *)
| LWait                          (* jobs closed, in wg.Wait() *)
| LReturned                      (* StartPostScheduler has returned *)
| LPanicked.                     (* repo.GetPosts panicked: the process dies; the
                                    loop has no further step, and the steps the
                                    model leaves to the other goroutines only
                                    add runs *)

Definition next_pc (posts : list Post) : loop_pc :=
  match posts with
  | [] => LSelect
  | _ => LPush posts
  end.

(** Requests of the other goroutines of the process, served by [PostService]. *)
Inductive request : Type :=
| ReqCreate (now_ : Time.t) (e : env) (userID : Z) (req : PostCreateRequest)
| ReqUpdate (now_ : Time.t) (e1 e2 : env) (id userID : Z) (req : PostUpdateRequest)
| ReqDelete (e1 e2 : env) (id userID : Z).

Inductive label : Type :=
| Cancel                            (* the context is cancelled *)
| Fire                              (* the ticker puts a tick into ticker.C *)
| Handle (rq : request)             (* an HTTP handler calls the service *)
| LoopCancel                        (* outer select, case <-ctx.Done(): close(jobs) *)
| LoopJoin                          (* wg.Wait() returns, then return *)
| LoopTick (e : env)                (* outer select, case <-ticker.C: the fetch *)
| LoopSend                          (* PushJobs, case jobs <- post *)
| LoopLen                           (* if len(jobs) > SchedulerMaxJobQueueSize *)
| LoopBreak                         (* PushJobs, case <-ctx.Done(): break PushJobs *)
| WorkerRecv (i : nat)              (* worker, case post, ok := <-jobs *)
| WorkerPublish (i : nat) (e : env) (* post.Published = true; repo.Update *)
| WorkerCancel (i : nat).           (* worker, case <-ctx.Done(): return *)

(** The body of a worker for one received post, over the repository's
    [Update]. *)
Definition publish_with {R : Type} (update : env -> R -> Post -> R * Post * option error)
    (e : env) (workerID : nat) (post : Post) (r : R) : R * event :=
  let post := set_Published true post in
  let '(r', _, err) := update e r post in
  match err with
  | Some err => (r', Error_publish workerID (ID post) err)
  | None => (r', Info_published workerID (ID post))
  end.

(** The fetch of one tick, over the repository's [GetPosts]. *)
Definition fetch_with {R : Type}
    (getPosts : env -> R -> option PostFilter -> Z -> Z -> result (list Post))
    (e : env) (r : R) : result (list Post) :=
  getPosts e r (due_filter (now e)) page_limit page_offset.

Section WithRepo.
Context {R : Type} `{PostRepository R}.

Record state : Type := mkState {
  repo : R;
  cancelled : bool;          (* ctx.Done() is closed *)
  ticker_C : bool;           (* the one-slot channel ticker.C holds a tick *)
  jobs : list Post;          (* the buffer of the channel jobs, oldest first *)
  closed : bool;             (* close(jobs) was called *)
  workers : list worker;     (* worker i+1 of the source is at index i *)
  loop : loop_pc;
  log : list event           (* newest first *)
}.

Definition init (r : R) : state :=
  mkState r false false [] false (replicate SchedulerWorkers WSelect) LSelect [Info_started].

Definition set_worker (i : nat) (w : worker) (s : state) : state :=
  mkState (repo s) (cancelled s) (ticker_C s) (jobs s) (closed s)
    (<[i := w]> (workers s)) (loop s) (log s).

Definition set_loop (pc : loop_pc) (s : state) : state :=
  mkState (repo s) (cancelled s) (ticker_C s) (jobs s) (closed s) (workers s) pc (log s).

Definition add_log (ev : event) (s : state) : state :=
  mkState (repo s) (cancelled s) (ticker_C s) (jobs s) (closed s) (workers s) (loop s)
    (ev :: log s).

Definition set_repo (r : R) (s : state) : state :=
  mkState r (cancelled s) (ticker_C s) (jobs s) (closed s) (workers s) (loop s) (log s).

Definition set_jobs (q : list Post) (s : state) : state :=
  mkState (repo s) (cancelled s) (ticker_C s) q (closed s) (workers s) (loop s) (log s).

Definition all_returned (ws : list worker) : bool :=
  forallb (fun w => match w with WReturned => true | _ => false end) ws.

Definition handle (rq : request) (r : R) : R :=
  match rq with
  | ReqCreate now_ e userID req => fst (PostService.Create now_ e r userID req)
  | ReqUpdate now_ e1 e2 id userID req => fst (PostService.Update now_ e1 e2 r id userID req)
  | ReqDelete e1 e2 id userID => fst (PostService.Delete e1 e2 r id userID)
  end.

Definition publish (e : env) (workerID : nat) (post : Post) (r : R) : R * event :=
  publish_with repo_Update e workerID post r.

Definition fetch (e : env) (r : R) : result (list Post) :=
  fetch_with repo_GetPosts e r.

Definition step (l : label) (s : state) : option state :=
  match l with
  | Cancel =>
      Some (mkState (repo s) true (ticker_C s) (jobs s) (closed s) (workers s) (loop s) (log s))
  | Fire =>
      Some (mkState (repo s) (cancelled s) true (jobs s) (closed s) (workers s) (loop s) (log s))
  | Handle rq => Some (set_repo (handle rq (repo s)) s)
  | LoopCancel =>
      match loop s with
      | LSelect =>
          if cancelled s
          then Some (mkState (repo s) (cancelled s) (ticker_C s) (jobs s) true
                       (workers s) LWait (log s))
          else None
      | _ => None
      end
  | LoopJoin =>
      match loop s with
      | LWait =>
          if all_returned (workers s)
          then Some (add_log Info_stopped (set_loop LReturned s))
          else None
      | _ => None
      end
  | LoopTick e =>
      match loop s with
      | LSelect =>
          if ticker_C s then
            let s := mkState (repo s) (cancelled s) false (jobs s) (closed s)
                       (workers s) (loop s) (log s) in
            match fetch e (repo s) with
            | Ok posts => Some (set_loop (next_pc posts) s)
            | Err err => Some (add_log (Error_fetch err) s)
            | Panic => Some (set_loop LPanicked s)
            end
          else None
      | _ => None
      end
  | LoopSend =>
      match loop s with
      | LPush (post :: posts) =>
          if (length (jobs s) <? SchedulerBufferSize)%nat
          then Some (set_loop (LCheck posts) (set_jobs (jobs s ++ [post]) s))
          else None
      | _ => None
      end
  | LoopLen =>
      match loop s with
      | LCheck posts =>
          let s' := set_loop (next_pc posts) s in
          if (SchedulerMaxJobQueueSize <? length (jobs s))%nat
          then Some (add_log (Warn_backlog (length (jobs s))) s')
          else Some s'
      | _ => None
      end
  | LoopBreak =>
      match loop s with
      | LPush (_ :: _) => if cancelled s then Some (set_loop LSelect s) else None
      | _ => None
      end
  | WorkerRecv i =>
      match workers s !! i with
      | Some WSelect =>
          match jobs s with
          | post :: q => Some (set_worker i (WHolding post) (set_jobs q s))
          | [] => if closed s then Some (set_worker i WReturned s) else None
          end
      | _ => None
      end
  | WorkerPublish i e =>
      match workers s !! i with
      | Some (WHolding post) =>
          let '(r', ev) := publish e (S i) post (repo s) in
          Some (add_log ev (set_worker i WSelect (set_repo r' s)))
      | _ => None
      end
  | WorkerCancel i =>
      match workers s !! i with
      | Some WSelect => if cancelled s then Some (set_worker i WReturned s) else None
      | _ => None
      end
  end.

Fixpoint run (tr : list label) (s : state) : option state :=
  match tr with
  | [] => Some s
  | l :: tr' =>
      match step l s with
      | Some s' => run tr' s'
      | None => None
      end
  end.

End WithRepo.
Arguments state R : clear implicits.
End Scheduler.


(** ** Comments

    Modelled from the spec: [model.Comment], [model.CommentCreateRequest] and
    [model.CommentUpdateRequest] are declared in [internal/model], which is not
    among the sources; the fields are the ones the comment repository and
    [CommentService] read and write. *)

Record Comment : Type := mkComment {
  c_ID : Z;
  c_Content : string;
  c_PostID : Z;
  c_AuthorID : Z;
  c_CreatedAt : Time.t;
  c_UpdatedAt : Time.t
}.

Record CommentCreateRequest : Type := mkCommentCreateReq { ccr_Content : string }.
Record CommentUpdateRequest : Type := mkCommentUpdateReq { cur_Content : string }.

(** The errors of the comment repository and service; [common] holds the
    errors they share with the post service. *)
Inductive comment_error : Type :=
| repository_ErrCommentNotFound
| service_ErrCommentNotFound
| common (err : error).

(** A result whose error type is [E]. *)
Inductive outcome (E A : Type) : Type :=
| Done (a : A)
| Fail (err : E)
| Panics.
Arguments Done {E A} a.
Arguments Fail {E A} err.
Arguments Panics {E A}.

(** *** [InMemoryCommentRepo] (mock_repo.go) *)

Module InMemoryCommentRepo.

Record t : Type := mk {
  seq : Z;
  comments : gmap Z Comment
}.

Definition NewInMemoryCommentRepo : t := mk 0 ∅.

(** [for _, c := range r.comments] *)
Definition range_comments (cs : list nat) (m : gmap Z Comment) : list Comment :=
  shuffle cs (map_to_list m).*2.

Definition Create (e : env) (r : t) (comment : Comment)
    : t * Comment * option comment_error :=
  let seq' := wrap (seq r + 1) in
  let comment :=
    mkComment seq' (c_Content comment) (c_PostID comment) (c_AuthorID comment)
      (now e) (now e) in
  (mk seq' (<[c_ID comment := comment]> (comments r)), comment, None).

Definition GetByID (r : t) (id : Z) : outcome comment_error Comment :=
  match comments r !! id with
  | None => Fail repository_ErrCommentNotFound
  | Some c => Done c
  end.

(** The slice [res] of [GetByPostID]: the comments of the post in the order the
    map yields them; there is no sort. *)
Definition of_post (cs : list nat) (r : t) (postID : Z) : list Comment :=
  List.filter (fun c => c_PostID c =? postID) (range_comments cs (comments r)).

Definition GetByPostID (cs : list nat) (r : t) (postID limit offset : Z)
    : outcome comment_error (list Comment) :=
  let res := of_post cs r postID in
  let len := Z.of_nat (length res) in
  if len <=? offset then Done []
  else
    let end_ := wrap (offset + limit) in
    let end_ := if (limit <=? 0) || (len <? end_) then len else end_ in
    if end_ - offset <? 0 then Panics
    else if (offset <? end_) && (offset <? 0) then Panics
    else Done (take (Z.to_nat (end_ - offset)) (drop (Z.to_nat offset) res)).

Definition GetCountByPostID (cs : list nat) (r : t) (postID : Z)
    : outcome comment_error Z :=
  Done (Z.of_nat (length (of_post cs r postID))).

Definition Update (e : env) (r : t) (comment : Comment)
    : t * Comment * option comment_error :=
  match comments r !! c_ID comment with
  | None => (r, comment, Some repository_ErrCommentNotFound)
  | Some existing =>
      let comment :=
        mkComment (c_ID comment) (c_Content comment) (c_PostID comment)
          (c_AuthorID comment) (c_CreatedAt existing) (now e) in
      (mk (seq r) (<[c_ID comment := comment]> (comments r)), comment, None)
  end.

Definition Delete (r : t) (id : Z) : t * option comment_error :=
  match comments r !! id with
  | None => (r, Some repository_ErrCommentNotFound)
  | Some _ => (mk (seq r) (delete id (comments r)), None)
  end.

Definition GetCountByAuthorID (cs : list nat) (r : t) (authorID : Z)
    : outcome comment_error Z :=
  Done (Z.of_nat (length (List.filter (fun c => c_AuthorID c =? authorID)
                            (range_comments cs (comments r))))).

End InMemoryCommentRepo.

(** *** The interface [repository.CommentRepository]

    Modelled from the spec: the declaration of the interface is not among the
    sources; its methods are the ones [CommentService] calls. *)

Class CommentRepository (C : Type) : Type := {
  crepo_Create : env -> C -> Comment -> C * Comment * option comment_error;
  crepo_GetByID : env -> C -> Z -> outcome comment_error Comment;
  crepo_GetByPostID : env -> C -> Z -> Z -> Z -> outcome comment_error (list Comment);
  crepo_GetCountByPostID : env -> C -> Z -> outcome comment_error Z;
  crepo_Update : env -> C -> Comment -> C * Comment * option comment_error;
  crepo_Delete : env -> C -> Z -> C * option comment_error
}.

#[export] Instance InMemoryCommentRepo_CommentRepository
    : CommentRepository InMemoryCommentRepo.t := {
  crepo_Create := InMemoryCommentRepo.Create;
  crepo_GetByID := fun _ => InMemoryCommentRepo.GetByID;
  crepo_GetByPostID := fun e => InMemoryCommentRepo.GetByPostID (order e);
  crepo_GetCountByPostID := fun e => InMemoryCommentRepo.GetCountByPostID (order e);
  crepo_Update := InMemoryCommentRepo.Update;
  crepo_Delete := fun _ => InMemoryCommentRepo.Delete
}.

(** *** [CommentService] (comment_service.go)

    [posts] is the post repository, which the service only reads, and [cm] the
    comment repository.  One [env] per repository call; the calls to the logger
    are left out. *)

Module CommentService.
Section WithRepos.
Context {R : Type} `{PostRepository R} {C : Type} `{CommentRepository C}.

Definition checkOwner (comment : Comment) (userID : Z) : option comment_error :=
  if negb (c_AuthorID comment =? userID) then Some (common service_ErrForbidden) else None.

Definition ensurePostPublished (e : env) (posts : R) (postID : Z)
    : outcome comment_error unit :=
  let published := true in
  match repo_GetPost e posts postID (Some (mkFilter None (Some published) None)) with
  | Ok _ => Done tt
  | Err repository_ErrPostNotFound => Fail service_ErrCommentNotFound
  | Err _ => Fail (common service_ErrDatabase)
  | Panic => Panics
  end.

Definition Create (e1 e2 : env) (posts : R) (cm : C) (userID postID : Z)
    (req : CommentCreateRequest) : C * outcome comment_error Comment :=
  let published := true in
  match repo_GetPost e1 posts postID (Some (mkFilter None (Some published) None)) with
  | Err repository_ErrPostNotFound => (cm, Fail (common service_ErrPostNotFound))
  | Err _ => (cm, Fail (common service_ErrDatabase))
  | Panic => (cm, Panics)
  | Ok _ =>
      let comment := mkComment 0 (ccr_Content req) postID userID 0 0 in
      let '(cm', comment, err) := crepo_Create e2 cm comment in
      match err with
      | Some _ => (cm', Fail (common service_ErrDatabase))
      | None => (cm', Done comment)
      end
  end.

Definition GetByID (e : env) (cm : C) (id : Z) : outcome comment_error Comment :=
  match crepo_GetByID e cm id with
  | Done comment => Done comment
  | Fail repository_ErrCommentNotFound => Fail service_ErrCommentNotFound
  | Fail _ => Fail (common service_ErrDatabase)
  | Panics => Panics
  end.

Definition GetByPost (e1 e2 e3 : env) (posts : R) (cm : C) (postID : Z)
    (pagination : PaginationParams) : outcome comment_error (list Comment * Z) :=
  match ensurePostPublished e1 posts postID with
  | Fail err => Fail err
  | Panics => Panics
  | Done _ =>
      match Limit pagination, Offset pagination with
      | Some limit, Some offset =>
          match crepo_GetByPostID e2 cm postID limit offset with
          | Done comments =>
              match crepo_GetCountByPostID e3 cm postID with
              | Done total => Done (comments, total)
              | Fail _ => Fail (common service_ErrDatabase)
              | Panics => Panics
              end
          | Fail _ => Fail (common service_ErrDatabase)
          | Panics => Panics
          end
      | _, _ => Panics   (* *pagination.Limit, *pagination.Offset *)
      end
  end.

Definition Update (e1 e2 e3 : env) (posts : R) (cm : C) (id userID : Z)
    (req : CommentUpdateRequest) : C * outcome comment_error Comment :=
  match crepo_GetByID e1 cm id with
  | Fail repository_ErrCommentNotFound => (cm, Fail service_ErrCommentNotFound)
  | Fail _ => (cm, Fail (common service_ErrDatabase))
  | Panics => (cm, Panics)
  | Done comment =>
      match ensurePostPublished e2 posts (c_PostID comment) with
      | Fail err => (cm, Fail err)
      | Panics => (cm, Panics)
      | Done _ =>
          match checkOwner comment userID with
          | Some err => (cm, Fail err)
          | None =>
              let comment :=
                mkComment (c_ID comment) (cur_Content req) (c_PostID comment)
                  (c_AuthorID comment) (c_CreatedAt comment) (c_UpdatedAt comment) in
              let '(cm', comment, err) := crepo_Update e3 cm comment in
              match err with
              | Some _ => (cm', Fail (common service_ErrDatabase))
              | None => (cm', Done comment)
              end
          end
      end
  end.

Definition Delete (e1 e2 : env) (cm : C) (id userID : Z)
    : C * outcome comment_error unit :=
  match crepo_GetByID e1 cm id with
  | Fail repository_ErrCommentNotFound => (cm, Fail service_ErrCommentNotFound)
  | Fail _ => (cm, Fail (common service_ErrDatabase))
  | Panics => (cm, Panics)
  | Done comment =>
      match checkOwner comment userID with
      | Some err => (cm, Fail err)
      | None =>
          let '(cm', err) := crepo_Delete e2 cm id in
          match err with
          | Some _ => (cm', Fail (common service_ErrDatabase))
          | None => (cm', Done tt)
          end
      end
  end.

End WithRepos.
End CommentService.

(** ** Users and refresh tokens (mock_repo.go)

    Modelled from the spec: [model.User] and [model.RefreshToken] are declared
    in [internal/model], which is not among the sources; the fields are the ones
    the repositories and the tests of the user service use.  A [uuid.UUID] is
    represented by its canonical string, which is what [Value.String()]
    returns. *)

Record User : Type := mkUser {
  u_ID : Z;
  u_Username : string;
  u_Email : string;
  u_PasswordHash : string;
  u_CreatedAt : Time.t;
  u_UpdatedAt : Time.t
}.

Record RefreshToken : Type := mkRefreshToken {
  rt_Value : string;
  rt_UserID : Z;
  rt_ExpiresAt : Time.t;
  rt_CreatedAt : Time.t
}.

(** A value of type [any]: a string, an [int], or something else. *)
Inductive any : Type :=
| any_string (s : string)
| any_int (z : Z)
| any_other.

(** [s == value] and [z == value] for [value] of type [any]: the dynamic type
    has to be the type of the left-hand side. *)
Definition string_eq_any (s : string) (value : any) : bool :=
  match value with
  | any_string s' => String.eqb s s'
  | _ => false
  end.

Definition int_eq_any (z : Z) (value : any) : bool :=
  match value with
  | any_int z' => z =? z'
  | _ => false
  end.

Inductive user_error : Type :=
| ErrUserExists
| ErrUserNotFound
| ErrUnsupportedField (field : string).   (* fmt.Errorf("unsupported field: %s", field) *)

Inductive token_error : Type :=
| ErrRefreshTokenNotFound
| ErrTokenAlreadyExists.                  (* errors.New("token already exists") *)

Module InMemoryUserRepo.

Record t : Type := mk {
  seq : Z;
  users : gmap Z User
}.

Definition NewInMemoryUserRepo : t := mk 0 ∅.

(** [for _, u := range r.users] *)
Definition range_users (cs : list nat) (m : gmap Z User) : list User :=
  shuffle cs (map_to_list m).*2.

Definition Create (e : env) (r : t) (user : User) : t * User * option user_error :=
  if existsb (fun u => String.eqb (u_Email u) (u_Email user)
                       || String.eqb (u_Username u) (u_Username user))
       (range_users (order e) (users r))
  then (r, user, Some ErrUserExists)
  else
    let seq' := wrap (seq r + 1) in
    let user :=
      mkUser seq' (u_Username user) (u_Email user) (u_PasswordHash user) (now e) (now e) in
    (mk seq' (<[u_ID user := user]> (users r)), user, None).

Definition GetByID (r : t) (id : Z) : outcome user_error User :=
  match users r !! id with
  | None => Fail ErrUserNotFound
  | Some u => Done u
  end.

(** The loop of [GetByField] over the users the map yields. *)
Fixpoint GetByField_loop (field : string) (value : any) (us : list User)
    : outcome user_error User :=
  match us with
  | [] => Fail ErrUserNotFound
  | u :: us' =>
      if String.eqb field "email" then
        if string_eq_any (u_Email u) value then Done u
        else GetByField_loop field value us'
      else if String.eqb field "username" then
        if string_eq_any (u_Username u) value then Done u
        else GetByField_loop field value us'
      else if String.eqb field "id" then
        if int_eq_any (u_ID u) value then Done u
        else GetByField_loop field value us'
      else Fail (ErrUnsupportedField field)
  end.

Definition GetByField (cs : list nat) (r : t) (field : string) (value : any)
    : outcome user_error User :=
  GetByField_loop field value (range_users cs (users r)).

Definition ExistsByField (cs : list nat) (r : t) (field : string) (value : any)
    : bool * option user_error :=
  match GetByField cs r field value with
  | Fail ErrUserNotFound => (false, None)
  | Fail err => (false, Some err)
  | Panics => (false, None)
  | Done _ => (true, None)
  end.

Definition Update (e : env) (r : t) (user : User) : t * User * option user_error :=
  match users r !! u_ID user with
  | None => (r, user, Some ErrUserNotFound)
  | Some existing =>
      let user :=
        mkUser (u_ID user) (u_Username user) (u_Email user) (u_PasswordHash user)
          (u_CreatedAt existing) (now e) in
      (mk (seq r) (<[u_ID user := user]> (users r)), user, None)
  end.

Definition Delete (r : t) (id : Z) : t * option user_error :=
  match users r !! id with
  | None => (r, Some ErrUserNotFound)
  | Some _ => (mk (seq r) (delete id (users r)), None)
  end.

End InMemoryUserRepo.

Module InMemoryRefreshTokenRepo.

Record t : Type := mk {
  tokens : gmap string RefreshToken;
  seq : Z
}.

Definition NewInMemoryRefreshTokenRepo : t := mk ∅ 0.

Definition Create (r : t) (token : RefreshToken) : t * option token_error :=
  let key := rt_Value token in
  match tokens r !! key with
  | Some _ => (r, Some ErrTokenAlreadyExists)
  | None => (mk (<[key := token]> (tokens r)) (seq r), None)
  end.

Definition GetByValue (r : t) (value : string) : outcome token_error RefreshToken :=
  match tokens r !! value with
  | None => Fail ErrRefreshTokenNotFound
  | Some token => Done token
  end.

Definition DeleteByValue (r : t) (value : string) : t * option token_error :=
  match tokens r !! value with
  | None => (r, Some ErrRefreshTokenNotFound)
  | Some _ => (mk (delete value (tokens r)) (seq r), None)
  end.

(** [for key, token := range r.tokens { if token.UserID == userID
    { delete(r.tokens, key) } }]: the entries come in the order [cs] fixes, and
    a deletion takes effect at once. *)
Definition DeleteByUserID (cs : list nat) (r : t) (userID : Z) : t * option token_error :=
  (mk (foldl (fun m kt => if rt_UserID kt.2 =? userID then delete kt.1 m else m)
         (tokens r) (shuffle cs (map_to_list (tokens r))))
      (seq r),
   None).

End InMemoryRefreshTokenRepo.
(** * Vocabulary of the statements *)

(** Newest first: no element is created after one that precedes it. *)
Definition newest_first (l : list Post) : Prop :=
  StronglySorted (fun p q => CreatedAt q <= CreatedAt p) l.

(** The posts of the in-memory store, in the order of the keys. *)
Definition stored (r : InMemoryPostRepo.t) : list Post :=
  (map_to_list (InMemoryPostRepo.posts r)).*2.

(** The stored posts a filter lets through. *)
Definition matching (r : InMemoryPostRepo.t) (filter : option PostFilter) : list Post :=
  List.filter (kept filter) (stored r).

(** * Stores, requests and runs used as examples *)

Definition env_at (n : Time.t) : env := mkEnv n [] None.

(** A store with one delayed post: created at time 1 by user 7 for
    publication at time 5. *)
Definition repo_draft : InMemoryPostRepo.t :=
  fst (PostService.Create 1 (env_at 1) InMemoryPostRepo.NewInMemoryPostRepo 7
         (mkCreateReq "draft" "text" (Some 5))).

Definition draft : Post := mkPost 1 "draft" "text" 7 false (Some 5) 1 1.

(** The same store after user 7 has posted a second, immediately published
    post at time 2. *)
Definition repo_two : InMemoryPostRepo.t :=
  fst (PostService.Create 2 (env_at 2) repo_draft 7 (mkCreateReq "news" "text" None)).

Definition news : Post := mkPost 2 "news" "text" 7 true None 2 2.

(** [publishAt] is present and strictly after [now_]. *)
Definition in_future (now_ : Time.t) (publishAt : option Time.t) : bool :=
  match publishAt with
  | Some at_ => now_ <? at_
  | None => false
  end.

(** A request of user 7 that changes the title of post 1 and nothing else. *)
Definition retitle : PostUpdateRequest := mkUpdateReq (Some "final") None None.

(** [job] carries the fields of [post] that a fetch copies and a worker
    leaves alone. *)
Definition snapshot_of (job post : Post) : Prop :=
  ID job = ID post /\ Title job = Title post /\ Content job = Content post /\
  AuthorID job = AuthorID post /\ PublishAt job = PublishAt post.

(** The rows of the table, in the order of the keys. *)
Definition rows (r : PostRepo.t) : list Post := (map_to_list (PostRepo.table r)).*2.

(** The database with the delayed post of [repo_draft] as its only row. *)
Definition db_draft : PostRepo.t := PostRepo.mk {[ 1 := draft ]}.

(** The post of [repo_draft] is fetched at time 10; at time 11 its author
    changes the title; then the fetched copy is sent and worker 1 receives
    it. *)
Definition run_edit_after_fetch : list Scheduler.label :=
  [Scheduler.Fire; Scheduler.LoopTick (env_at 10);
   Scheduler.Handle (Scheduler.ReqUpdate 11 (env_at 11) (env_at 11) 1 7 retitle);
   Scheduler.LoopSend; Scheduler.LoopLen; Scheduler.WorkerRecv 0].

(** The post of [repo_draft] is fetched and sent by the ticks at times 10 and
    11; worker 1 publishes the first copy at time 12 and worker 2 receives the
    second. *)
Definition run_sent_twice : list Scheduler.label :=
  [Scheduler.Fire; Scheduler.LoopTick (env_at 10); Scheduler.LoopSend; Scheduler.LoopLen;
   Scheduler.Fire; Scheduler.LoopTick (env_at 11); Scheduler.LoopSend; Scheduler.LoopLen;
   Scheduler.WorkerRecv 0; Scheduler.WorkerPublish 0 (env_at 12); Scheduler.WorkerRecv 1].

(** The post stored under [id] in a state of the scheduler over the in-memory
    repository. *)
Definition stored_at (id : Z) (s : Scheduler.state InMemoryPostRepo.t) : option Post :=
  InMemoryPostRepo.posts (Scheduler.repo s) !! id.

(** What holds in every state the scheduler can reach. *)
Definition scheduler_inv {R : Type} `{PostRepository R} (s : Scheduler.state R) : Prop :=
  (length (Scheduler.jobs s) <= Scheduler.SchedulerBufferSize)%nat /\
  length (Scheduler.workers s) = Scheduler.SchedulerWorkers /\
  (Scheduler.closed s = true <->
   Scheduler.loop s = Scheduler.LWait \/ Scheduler.loop s = Scheduler.LReturned) /\
  (Scheduler.closed s = true -> Scheduler.cancelled s = true) /\
  (forall i, Scheduler.workers s !! i = Some Scheduler.WReturned ->
             Scheduler.cancelled s = true) /\
  (Scheduler.loop s = Scheduler.LReturned ->
   forall i w, Scheduler.workers s !! i = Some w -> w = Scheduler.WReturned).

(** The actions of the poll loop that put work into the queue or fetch it. *)
Definition produces (l : Scheduler.label) : Prop :=
  match l with
  | Scheduler.LoopSend | Scheduler.LoopTick _ | Scheduler.LoopLen | Scheduler.LoopBreak => True
  | _ => False
  end.

(** The post of [repo_draft] is fetched and sent; then the context is
    cancelled, each of the five workers takes the cancellation case of its
    select, and the loop closes the queue, waits and returns. *)
Definition run_cancel_with_backlog : list Scheduler.label :=
  [Scheduler.Fire; Scheduler.LoopTick (env_at 10); Scheduler.LoopSend; Scheduler.LoopLen;
   Scheduler.Cancel;
   Scheduler.WorkerCancel 0; Scheduler.WorkerCancel 1; Scheduler.WorkerCancel 2;
   Scheduler.WorkerCancel 3; Scheduler.WorkerCancel 4;
   Scheduler.LoopCancel; Scheduler.LoopJoin].

(** The state in which [run_cancel_with_backlog] ends. *)
Definition state_returned : Scheduler.state InMemoryPostRepo.t :=
  Scheduler.mkState (InMemoryPostRepo.mk 1 {[ 1 := draft ]}) true false [draft] true
    (replicate 5 Scheduler.WReturned) Scheduler.LReturned
    [Scheduler.Info_stopped; Scheduler.Info_started].

(** The loop has fetched the post of [repo_draft] and stands in PushJobs when
    the ticker fires again and the context is cancelled; it takes
    [break PushJobs]. *)
Definition run_break : list Scheduler.label :=
  [Scheduler.Fire; Scheduler.LoopTick (env_at 10); Scheduler.Fire; Scheduler.Cancel;
   Scheduler.LoopBreak].

(** Back at the outer select it takes the pending tick, and in PushJobs the
    send. *)
Definition run_break_then_send : list Scheduler.label :=
  run_break ++ [Scheduler.LoopTick (env_at 11); Scheduler.LoopSend].

(** The first send of a tick over [repo_draft], before the test of
    [len(jobs)]. *)
Definition run_first_send : list Scheduler.label :=
  [Scheduler.Fire; Scheduler.LoopTick (env_at 10); Scheduler.LoopSend].

Definition state_first_send : Scheduler.state InMemoryPostRepo.t :=
  Scheduler.mkState (InMemoryPostRepo.mk 1 {[ 1 := draft ]}) false false [draft] false
    (replicate 5 Scheduler.WSelect) (Scheduler.LCheck []) [Scheduler.Info_started].

(** The post of [repo_draft] is fetched at time 10 and deleted by its author at
    time 11; the fetched copy is sent, and worker 1 receives it and calls the
    update at time 12. *)
Definition run_delete_after_fetch : list Scheduler.label :=
  [Scheduler.Fire; Scheduler.LoopTick (env_at 10);
   Scheduler.Handle (Scheduler.ReqDelete (env_at 11) (env_at 11) 1 7);
   Scheduler.LoopSend; Scheduler.LoopLen;
   Scheduler.WorkerRecv 0; Scheduler.WorkerPublish 0 (env_at 12)].

(** The rows of the table the due filter of a poll at [now_] lets through. *)
Definition due_rows (now_ : Time.t) (r : PostRepo.t) : list Post :=
  List.filter (PostRepo.applyFilters (Scheduler.due_filter now_)) (rows r).

(** A store into which a post with [published = false] and no [publishAt] was
    put by [InMemoryPostRepo.Create] at time 1, and the database with the same
    row. *)
Definition repo_unscheduled : InMemoryPostRepo.t :=
  (InMemoryPostRepo.Create (env_at 1) InMemoryPostRepo.NewInMemoryPostRepo
     (mkPost 0 "note" "text" 7 false None 0 0)).1.1.

Definition note : Post := mkPost 1 "note" "text" 7 false None 1 1.

Definition db_unscheduled : PostRepo.t := PostRepo.mk {[ 1 := note ]}.

(** One tick at time 10, the send, and the receive by worker 1. *)
Definition run_tick_to_worker : list Scheduler.label :=
  [Scheduler.Fire; Scheduler.LoopTick (env_at 10); Scheduler.LoopSend; Scheduler.LoopLen;
   Scheduler.WorkerRecv 0].

(** [published = false] and [publishAt <= now_]. *)
Definition due (now_ : Time.t) (post : Post) : Prop :=
  Published post = false /\ exists at_, PublishAt post = Some at_ /\ at_ <= now_.

(** No stored post is unpublished without a [publishAt]. *)
Definition scheduled (r : InMemoryPostRepo.t) : Prop :=
  forall id post, InMemoryPostRepo.posts r !! id = Some post ->
    Published post = false -> PublishAt post <> None.

(** The posts the loop has fetched and not yet sent. *)
Definition pending (pc : Scheduler.loop_pc) : list Post :=
  match pc with
  | Scheduler.LPush posts | Scheduler.LCheck posts => posts
  | _ => []
  end.

(** The posts the workers hold. *)
Definition held (ws : list Scheduler.worker) : list Post :=
  ws ≫= fun w => match w with Scheduler.WHolding post => [post] | _ => [] end.

(** The jobs in the hands of the scheduler: queued, fetched but not yet sent, or
    held by a worker that has not yet called the update. *)
Definition in_flight {R : Type} `{PostRepository R} (s : Scheduler.state R) : list Post :=
  Scheduler.jobs s ++ pending (Scheduler.loop s) ++ held (Scheduler.workers s).

(** What a step does to the jobs in flight. *)
Definition flight_change {R : Type} `{PostRepository R} (l : Scheduler.label)
    (s s' : Scheduler.state R) : Prop :=
  match l with
  | Scheduler.LoopTick e =>
      match Scheduler.fetch e (Scheduler.repo s) with
      | Ok page => in_flight s' ≡ₚ in_flight s ++ page
      | _ => in_flight s' = in_flight s
      end
  | Scheduler.WorkerPublish i e =>
      exists job, Scheduler.workers s !! i = Some (Scheduler.WHolding job) /\
                  in_flight s ≡ₚ job :: in_flight s'
  | Scheduler.LoopBreak =>
      Scheduler.cancelled s = true /\
      in_flight s ≡ₚ in_flight s' ++ pending (Scheduler.loop s)
  | _ => in_flight s' ≡ₚ in_flight s
  end.

(** The post was unpublished with a [publishAt] that had passed at the time of
    a tick the loop takes in [tr]. *)
Definition due_at_a_tick (tr : list Scheduler.label) (job : Post) : Prop :=
  exists e, Scheduler.LoopTick e ∈ tr /\ due (now e) job.

(** User 7 creates a post at time 1 for publication at time 5; the tick at
    time 10 fetches it, the loop sends it and worker 1 receives it. *)
Definition run_create_to_worker : list Scheduler.label :=
  [Scheduler.Handle
     (Scheduler.ReqCreate 1 (env_at 1) 7 (mkCreateReq "post" "text" (Some 5)));
   Scheduler.Fire; Scheduler.LoopTick (env_at 10); Scheduler.LoopSend; Scheduler.LoopLen;
   Scheduler.WorkerRecv 0].

(** Every post is stored under its own id. *)
Definition well_keyed (r : InMemoryPostRepo.t) : Prop :=
  map_Forall (fun id post => ID post = id) (InMemoryPostRepo.posts r).

(** Worker [w] publishes the jobs of [page] one after the other, job [job]
    with the environment [clock job]. *)
Definition publish_all (clock : Post -> env) (w : nat) (page : list Post)
    (r : InMemoryPostRepo.t) : InMemoryPostRepo.t :=
  foldl (fun r job => (Scheduler.publish (clock job) w job r).1) r page.

(** The loop sends the posts of a page, testing [len(jobs)] after each. *)
Definition send_all (page : list Post) : list Scheduler.label :=
  page ≫= fun _ => [Scheduler.LoopSend; Scheduler.LoopLen].

(** Worker [i+1] receives and publishes the jobs of the queue [q]. *)
Definition receive_all (i : nat) (clock : Post -> env) (q : list Post)
    : list Scheduler.label :=
  q ≫= fun job => [Scheduler.WorkerRecv i; Scheduler.WorkerPublish i (clock job)].

(** User 7 creates [n] delayed posts, post [i] at time [i] for publication at
    time [1000 + i]. *)
Definition backlog (n : Z) : InMemoryPostRepo.t :=
  foldl (fun r i =>
           (PostService.Create i (env_at i) r 7
              (mkCreateReq "post" "text" (Some (1000 + i)))).1)
    InMemoryPostRepo.NewInMemoryPostRepo (seqZ 1 n).

Definition backlog_post (i : Z) : Post :=
  mkPost i "post" "text" 7 false (Some (1000 + i)) i i.

(** The scheduler over [backlog n], at its outer select with a tick pending. *)
Definition state_backlog (n : Z) : Scheduler.state InMemoryPostRepo.t :=
  Scheduler.mkState (backlog n) false true [] false
    (replicate 5 Scheduler.WSelect) Scheduler.LSelect [Scheduler.Info_started].

(** * Vocabulary of the further properties *)

(** The ids in use are positive and at most the counter, which has not
    wrapped. *)
Definition ids_bounded (r : InMemoryPostRepo.t) : Prop :=
  0 <= InMemoryPostRepo.seq r /\
  map_Forall (fun id _ => 0 < id <= InMemoryPostRepo.seq r) (InMemoryPostRepo.posts r).

(** The filter of the public listing. *)
Definition public_filter : option PostFilter := Some (mkFilter None (Some true) None).

(** The database table with the posts of an in-memory store as its rows. *)
Definition as_table (r : InMemoryPostRepo.t) : PostRepo.t :=
  PostRepo.mk (InMemoryPostRepo.posts r).

(** The filter does not ask for [DueBefore], or every stored post has a
    [publishAt]. *)
Definition no_null_due (filter : option PostFilter) (r : InMemoryPostRepo.t) : Prop :=
  (forall f, filter = Some f -> f_DueBefore f = None) \/
  map_Forall (fun _ post => PublishAt post <> None) (InMemoryPostRepo.posts r).

(** The ways in which a call changes the in-memory store: not at all, by a new
    post under the next id, by a post written over the one stored under its id,
    or by the removal of a post. *)
Definition store_change (r r' : InMemoryPostRepo.t) : Prop :=
  r' = r \/
  (exists post, ID post = wrap (InMemoryPostRepo.seq r + 1) /\
     r' = InMemoryPostRepo.mk (wrap (InMemoryPostRepo.seq r + 1))
            (<[ID post := post]> (InMemoryPostRepo.posts r))) \/
  (exists post, is_Some (InMemoryPostRepo.posts r !! ID post) /\
     r' = InMemoryPostRepo.mk (InMemoryPostRepo.seq r)
            (<[ID post := post]> (InMemoryPostRepo.posts r))) \/
  (exists id, r' = InMemoryPostRepo.mk (InMemoryPostRepo.seq r)
                     (delete id (InMemoryPostRepo.posts r))).

(** The post an effective update by its author leaves: the fields of the
    request that are present replace the stored ones, a [publishAt] of the
    request decides the published flag, and the update timestamp is the time
    of the write. *)
Definition updated_post (now_ write : Time.t) (req : PostUpdateRequest) (old : Post) : Post :=
  mkPost (ID old)
    (default (Title old) (ur_Title req))
    (default (Content old) (ur_Content req))
    (AuthorID old)
    (match ur_PublishAt req with
     | Some at_ => negb (Time.After at_ now_)
     | None => Published old
     end)
    (match ur_PublishAt req with
     | Some at_ => Some at_
     | None => PublishAt old
     end)
    (CreatedAt old)
    write.

(** The request changes nothing: it carries no [publishAt], and its title and
    content are absent or the stored ones. *)
Definition changes_nothing (req : PostUpdateRequest) (old : Post) : Prop :=
  default (Title old) (ur_Title req) = Title old /\
  default (Content old) (ur_Content req) = Content old /\
  ur_PublishAt req = None.


(** The steps of [tr] are steps of the scheduler, none the handling of a
    request, and every tick among them is taken before [at_]. *)
Definition scheduler_before (at_ : Time.t) (tr : list Scheduler.label) : bool :=
  forallb (fun l => match l with
                    | Scheduler.Handle _ => false
                    | Scheduler.LoopTick e => now e <? at_
                    | _ => true
                    end) tr.

(** The post [p] is stored under [id] and no job in flight is for it. *)
Definition untouched (id : Z) (p : Post) (s : Scheduler.state InMemoryPostRepo.t) : Prop :=
  well_keyed (Scheduler.repo s) /\
  InMemoryPostRepo.posts (Scheduler.repo s) !! id = Some p /\
  Forall (fun job => ID job <> id) (in_flight s).


(** The post a worker's update at time [t] leaves of a stored post that was
    not changed since the fetch. *)
Definition published_at (t : Time.t) (p : Post) : Post :=
  set_UpdatedAt t (set_Published true p).

(** The stored comments of a post, in the order of the keys. *)
Definition comments_of (cm : InMemoryCommentRepo.t) (postID : Z) : list Comment :=
  List.filter (fun c => c_PostID c =? postID)
    (map_to_list (InMemoryCommentRepo.comments cm)).*2.

(** The comment ids in use are positive and at most the counter, which has not
    wrapped. *)
Definition comment_ids_bounded (cm : InMemoryCommentRepo.t) : Prop :=
  0 <= InMemoryCommentRepo.seq cm /\
  map_Forall (fun id _ => 0 < id <= InMemoryCommentRepo.seq cm)
    (InMemoryCommentRepo.comments cm).

(** The post is not stored, or it is stored with [published = false]. *)
Definition not_public (r : InMemoryPostRepo.t) (postID : Z) : Prop :=
  match InMemoryPostRepo.posts r !! postID with
  | Some post => Published post = false
  | None => True
  end.

(** Comment 1, by user 7 on the published post 2 of [repo_two], and comment 2,
    by user 8 on its unpublished post 1. *)
Definition comments_two : InMemoryCommentRepo.t :=
  InMemoryCommentRepo.mk 2
    {[ 1 := mkComment 1 "first" 2 7 5 5; 2 := mkComment 2 "second" 1 8 6 6 ]}.

(** A stored user has the email or the user name of [user]. *)
Definition taken (r : InMemoryUserRepo.t) (user : User) : Prop :=
  map_Exists (fun _ u => u_Email u = u_Email user \/ u_Username u = u_Username user)
    (InMemoryUserRepo.users r).

(** No two stored users share an email or a user name. *)
Definition unique_users (r : InMemoryUserRepo.t) : Prop :=
  map_Forall (fun id1 u1 =>
    map_Forall (fun id2 u2 =>
      u_Email u1 = u_Email u2 \/ u_Username u1 = u_Username u2 -> id1 = id2)
      (InMemoryUserRepo.users r))
    (InMemoryUserRepo.users r).

(** Every user is stored under its own id, and the ids in use are positive and
    at most the counter, which has not wrapped. *)
Definition user_ids_bounded (r : InMemoryUserRepo.t) : Prop :=
  0 <= InMemoryUserRepo.seq r /\
  map_Forall (fun id u => u_ID u = id /\ 0 < id <= InMemoryUserRepo.seq r)
    (InMemoryUserRepo.users r).

(** The field name is none of the three [GetByField] knows. *)
Definition unsupported (field : string) : Prop :=
  field <> "email" /\ field <> "username" /\ field <> "id".

(** A repository with the users ann (id 1) and bob (id 2). *)
Definition ann : User := mkUser 1 "ann" "ann@example.org" "hash1" 1 1.
Definition bob : User := mkUser 2 "bob" "bob@example.org" "hash2" 2 2.
Definition users_two : InMemoryUserRepo.t :=
  InMemoryUserRepo.mk 2 {[ 1 := ann; 2 := bob ]}.

(** Two refresh tokens of user 1 and one of user 2. *)
Definition tokens_three : InMemoryRefreshTokenRepo.t :=
  InMemoryRefreshTokenRepo.mk
    {[ "a" := mkRefreshToken "a" 1 100 1;
       "b" := mkRefreshToken "b" 2 100 2;
       "c" := mkRefreshToken "c" 1 100 3 ]} 0.
(** * Properties *)

(** ** Rearranging, sorting and filtering lists *)

Section Lists.
Context {A : Type}.
Implicit Types (l : list A) (x : A).

Lemma shuffle_Permutation (cs : list nat) l : shuffle cs l ≡ₚ l.
Proof.
  revert l. induction cs as [|c cs IH]; intros l; simpl; [done|].
  destruct (l !! (c mod length l)%nat) as [x|] eqn:E; [|done].
  rewrite IH. symmetry. by apply delete_Permutation.
Qed.

Lemma insert_by_Permutation (less : A -> A -> bool) x l :
  insert_by less x l ≡ₚ x :: l.
Proof.
  induction l as [|y l IH]; simpl; [done|].
  destruct (less y x); [|done]. rewrite IH. apply Permutation_swap.
Qed.

Lemma sort_Slice_Permutation (less : A -> A -> bool) l : sort_Slice less l ≡ₚ l.
Proof.
  induction l as [|x l IH]; simpl; [done|].
  by rewrite insert_by_Permutation, IH.
Qed.

Lemma filter_Permutation' (f : A -> bool) l1 l2 :
  l1 ≡ₚ l2 -> List.filter f l1 ≡ₚ List.filter f l2.
Proof.
  induction 1 as [|x l1 l2 _ IH|x y l|l1 l2 l3 _ IH1 _ IH2]; simpl.
  - done.
  - destruct (f x); [by constructor | done].
  - destruct (f x), (f y); try done. apply Permutation_swap.
  - by etrans.
Qed.

Lemma elem_of_filter' (f : A -> bool) l x :
  x ∈ List.filter f l <-> x ∈ l /\ f x = true.
Proof. rewrite !list_elem_of_In. apply filter_In. Qed.

Lemma filter_ext_in' (f g : A -> bool) l :
  (forall x, x ∈ l -> f x = g x) -> List.filter f l = List.filter g l.
Proof.
  intros E. apply List.filter_ext_in. intros x Hx. apply E. by apply list_elem_of_In.
Qed.

End Lists.

Lemma insert_by_newest_first (x : Post) (l : list Post) :
  newest_first l -> newest_first (insert_by created_after x l).
Proof.
  unfold newest_first. induction 1 as [|y l Hl IH Hy]; simpl.
  - repeat constructor.
  - unfold created_after at 1, Time.After. destruct (CreatedAt x <? CreatedAt y) eqn:E.
    + apply Z.ltb_lt in E. constructor; [done|].
      apply Forall_forall. intros z Hz.
      rewrite insert_by_Permutation in Hz.
      apply elem_of_cons in Hz as [->|Hz]; [lia|].
      rewrite Forall_forall in Hy. by apply Hy.
    + apply Z.ltb_ge in E. constructor; [by constructor|].
      constructor; [done|]. eapply Forall_impl; [exact Hy|]. simpl. intros; lia.
Qed.

Lemma sort_Slice_newest_first (l : list Post) :
  newest_first (sort_Slice created_after l).
Proof.
  induction l as [|x l IH]; simpl; [constructor|]. by apply insert_by_newest_first.
Qed.

(** ** The in-memory repository *)

Section InMemory.
Import InMemoryPostRepo.
Implicit Types (r : InMemoryPostRepo.t) (filter : option PostFilter) (post : Post).

Lemma elem_of_stored r post :
  post ∈ stored r <-> exists id, posts r !! id = Some post.
Proof.
  unfold stored. rewrite list_elem_of_fmap. split.
  - intros [[k p] [-> Hk]]. exists k. by apply elem_of_map_to_list.
  - intros [k Hk]. exists (k, post). split; [done|]. by apply elem_of_map_to_list.
Qed.

Lemma selected_Permutation cs r filter :
  selected cs r filter ≡ₚ List.filter (kept filter) (stored r).
Proof.
  unfold selected, range_posts. rewrite sort_Slice_Permutation.
  apply filter_Permutation', shuffle_Permutation.
Qed.

Lemma elem_of_selected cs r filter post :
  post ∈ selected cs r filter <->
  (exists id, posts r !! id = Some post) /\ kept filter post = true.
Proof.
  rewrite selected_Permutation, elem_of_filter'. by rewrite elem_of_stored.
Qed.

Lemma selected_newest_first cs r filter : newest_first (selected cs r filter).
Proof. apply sort_Slice_newest_first. Qed.

(** What [GetPosts] returns is a segment of [selected]. *)
Lemma GetPosts_Ok cs r filter limit offset res :
  GetPosts cs r filter limit offset = Ok res ->
  exists n m, res = take n (drop m (selected cs r filter)).
Proof.
  unfold GetPosts. repeat case_match; intros [= <-]; eauto.
  by exists 0%nat, 0%nat.
Qed.

Lemma GetPosts_elem_of cs r filter limit offset res post :
  GetPosts cs r filter limit offset = Ok res ->
  post ∈ res -> post ∈ selected cs r filter.
Proof.
  intros (n & m & ->)%GetPosts_Ok Hp.
  by eapply subseteq_drop, subseteq_take.
Qed.

(** A negative offset makes [GetPosts] index [result] out of range. *)
Lemma GetPosts_negative_offset cs r filter limit offset :
  offset < 0 -> int_range offset -> int_range limit ->
  GetPosts cs r filter limit offset = Panic.
Proof.
  intros Ho Hro Hrl. unfold GetPosts, wrap, int_range in *.
  set (len := Z.of_nat (length (selected cs r filter))).
  assert (0 <= len) by lia.
  destruct (len <=? offset) eqn:E1; [lia|].
  destruct ((limit <=? 0) || (len <? _)) eqn:E2.
  - destruct (len - offset <? 0) eqn:E3; [done|].
    destruct (offset <? len) eqn:E4; [|lia].
    destruct (offset <? 0) eqn:E5; [done|lia].
  - apply orb_false_iff in E2 as [E2 E2'].
    match goal with |- context [?a - offset <? 0] => set (end_ := a) in * end.
    assert (end_ = offset + limit) as ->.
    { unfold end_. rewrite Z.mod_small; lia. }
    destruct (offset + limit - offset <? 0) eqn:E3; [done|].
    destruct (offset <? offset + limit) eqn:E4; [|lia].
    destruct (offset <? 0) eqn:E5; [done|lia].
Qed.

End InMemory.

(** ** The example stores *)

Example repo_draft_posts : InMemoryPostRepo.posts repo_draft = {[ 1 := draft ]}.
Proof. reflexivity. Qed.

Example repo_two_posts :
  InMemoryPostRepo.posts repo_two = <[ 2 := news ]> {[ 1 := draft ]}.
Proof. reflexivity. Qed.

(** ** Paging of [InMemoryPostRepo.GetPosts] *)

Section Paging.
Import InMemoryPostRepo.

Lemma length_selected cs r filter :
  length (selected cs r filter) = length (matching r filter).
Proof. unfold matching. by rewrite selected_Permutation. Qed.

(** C10. [InMemoryPostRepo.GetPosts], for any filter: [selected] holds all
    matching posts, newest first; with [limit <= 0] the result is all of them
    from position [offset] onward, and with [offset] at or past the number of
    matching posts it is the empty list, without an error. *)
Theorem GetPosts_limit_and_offset cs r filter limit offset :
  (selected cs r filter ≡ₚ matching r filter /\ newest_first (selected cs r filter)) /\
  (0 <= offset -> limit <= 0 ->
   GetPosts cs r filter limit offset
   = Ok (drop (Z.to_nat offset) (selected cs r filter))) /\
  (Z.of_nat (length (matching r filter)) <= offset ->
   GetPosts cs r filter limit offset = Ok []).
Proof.
  split; [split; [apply selected_Permutation | apply selected_newest_first]|].
  rewrite <- (length_selected cs). unfold GetPosts.
  set (l := selected cs r filter). set (len := Z.of_nat (length l)).
  split.
  - intros Ho Hl. destruct (len <=? offset) eqn:E.
    + apply Z.leb_le in E. rewrite drop_ge; [done | lia].
    + apply Z.leb_gt in E. replace (limit <=? 0) with true by (symmetry; by apply Z.leb_le).
      simpl. replace (len - offset <? 0) with false by (symmetry; apply Z.ltb_ge; lia).
      replace (offset <? 0) with false by (symmetry; apply Z.ltb_ge; lia).
      rewrite andb_false_r. f_equal. apply take_ge. rewrite length_drop. lia.
  - intros Ho. by replace (len <=? offset) with true by (symmetry; by apply Z.leb_le).
Qed.

Lemma GetPosts_limit_and_offset_witness :
  GetPosts [] repo_two None 0 1 = Ok [draft] /\
  GetPosts [] repo_two None 10 2 = Ok [].
Proof.
  split.
  - apply (GetPosts_limit_and_offset [] repo_two None 0 1); lia.
  - apply (GetPosts_limit_and_offset [] repo_two None 10 2). vm_compute. discriminate.
Defined.

End Paging.

(** ** Public reads *)

Section PublicReads.
Import InMemoryPostRepo.

Lemma kept_published filter post b :
  (exists f, filter = Some f /\ f_Published f = Some b) ->
  kept filter post = true -> Published post = b.
Proof.
  intros (f & -> & Hf). unfold kept, filtered_out. rewrite Hf.
  destruct (Published post), b; simpl; try done;
    rewrite ?orb_true_r; simpl; done.
Qed.

(** C8. A stored post with [published = false] is not visible through the
    public reads: [PostService.GetByID] answers [ErrPostNotFound] for its id,
    and a list returned by [PostService.GetAll] holds published posts only, so
    the post is not in it. *)
Theorem unpublished_not_public (r : InMemoryPostRepo.t) (id : Z) (post : Post) :
  posts r !! id = Some post ->
  Published post = false ->
  (forall e, PostService.GetByID e r id = Err service_ErrPostNotFound) /\
  (forall e1 e2 pagination res total,
     PostService.GetAll e1 e2 r pagination = Ok (res, total) ->
     (post ∉ res) /\ Forall (fun q => Published q = true) res).
Proof.
  intros Hid Hpub. split.
  - intros e. unfold PostService.GetByID. simpl. unfold GetPost. rewrite Hid.
    unfold filtered_out. simpl. by rewrite Hpub.
  - intros e1 e2 pagination res total. unfold PostService.GetAll.
    destruct (Limit pagination) as [limit|]; [|done].
    destruct (Offset pagination) as [offset|]; [|done].
    simpl. destruct (GetPosts (order e1) r _ limit offset) as [posts| |] eqn:E; try done.
    intros [= <- <-].
    assert (Forall (fun q => Published q = true) posts) as Hall.
    { apply Forall_forall. intros q Hq.
      eapply GetPosts_elem_of in Hq; [|exact E].
      apply elem_of_selected in Hq as [_ Hq].
      eapply kept_published; [|exact Hq]. eauto. }
    split; [|done]. intros Hin. rewrite Forall_forall in Hall.
    apply Hall in Hin. congruence.
Qed.

Lemma unpublished_not_public_witness :
  (forall e, PostService.GetByID e repo_two 1 = Err service_ErrPostNotFound) /\
  (forall e1 e2 pagination res total,
     PostService.GetAll e1 e2 repo_two pagination = Ok (res, total) ->
     (draft ∉ res) /\ Forall (fun q => Published q = true) res).
Proof. apply (unpublished_not_public repo_two 1 draft); reflexivity. Defined.

End PublicReads.

(** ** The published flag on create and update *)

Section PublishedFlag.
Import InMemoryPostRepo.

(** C4, as stated, fails for an update that carries no [publishAt]: at time 10
    the title of the delayed post of [repo_draft] is changed; the request has
    no [publishAt] and the post's own [publishAt], 5, is not in the future,
    yet the resulting flag is [false]. *)
Lemma update_without_publishAt_stays_unpublished :
  exists r' post,
    PostService.Update 10 (env_at 10) (env_at 10) repo_draft 1 7 retitle = (r', Ok post)
    /\ ur_PublishAt retitle = None
    /\ PublishAt post = Some 5
    /\ in_future 10 (PublishAt post) = false
    /\ Published post = false
    /\ posts r' !! 1 = Some post.
Proof. eexists _, _. repeat split; reflexivity. Qed.

(** C4, amended.  With the clock at or after Go's zero time: a create yields
    [published = false] when [publishAt] is present and strictly in the future
    and [published = true] when it is absent, zero or not in the future; an
    update whose request carries a [publishAt] does the same with that value;
    an update whose request carries none leaves the flag as it is stored.  The
    returned post is the one the store holds afterwards. *)
Theorem published_flag_on_create_and_update (r : InMemoryPostRepo.t) (now_ : Time.t) :
  0 <= now_ ->
  in_future now_ None = false /\ in_future now_ (Some 0) = false /\
  (forall e userID req r' post,
     PostService.Create now_ e r userID req = (r', Ok post) ->
     Published post = negb (in_future now_ (cr_PublishAt req)) /\
     posts r' !! ID post = Some post) /\
  (forall e1 e2 id userID req r' post,
     PostService.Update now_ e1 e2 r id userID req = (r', Ok post) ->
     (exists old, posts r !! id = Some old /\
        Published post =
          match ur_PublishAt req with
          | Some at_ => negb (in_future now_ (Some at_))
          | None => Published old
          end) /\
     (exists k, posts r' !! k = Some post)).
Proof.
  intros Hnow. split; [done|]. split; [simpl; apply Z.ltb_ge; lia|]. split.
  - intros e userID req r' post. unfold PostService.Create. simpl.
    intros [= <- <-]. simpl. rewrite lookup_insert_eq. split; [|done].
    destruct (cr_PublishAt req) as [at_|]; simpl; [|done].
    unfold Time.IsZero, Time.After.
    destruct (at_ =? 0) eqn:E0; simpl.
    + apply Z.eqb_eq in E0 as ->. symmetry. apply negb_true_iff, Z.ltb_ge. lia.
    + by destruct (now_ <? at_).
  - intros e1 e2 id userID req r' post. unfold PostService.Update. simpl.
    unfold GetPost. destruct (posts r !! id) as [old|] eqn:Hold; [|done]. simpl.
    destruct (PostService.checkPostOwner old userID); [done|].
    set (p1 := match ur_Title req with
               | Some title =>
                   if negb (String.eqb title (Title old))
                   then (set_Title title old, true) else (old, false)
               | None => (old, false) end).
    assert (Published p1.1 = Published old /\ (p1.2 = false -> p1.1 = old)) as [Hp1 Hu1].
    { unfold p1. destruct (ur_Title req); [|done]. by destruct (negb _). }
    destruct p1 as [post1 u1]. simpl in *.
    set (p2 := match ur_Content req with
               | Some content =>
                   if negb (String.eqb content (Content post1))
                   then (set_Content content post1, true) else (post1, u1)
               | None => (post1, u1) end).
    assert (Published p2.1 = Published old /\ (p2.2 = false -> p2.1 = old)) as [Hp2 Hu2].
    { unfold p2. destruct (ur_Content req); [|done]. by destruct (negb _). }
    destruct p2 as [post2 u2]. simpl in *.
    destruct (ur_PublishAt req) as [at_|]; simpl.
    + unfold Update, Time.After.
      destruct (now_ <? at_); simpl;
        (destruct (posts r !! ID post2) as [existing|]; [|done]);
        intros [= <- <-]; simpl;
        (split; [by exists old | eexists; apply lookup_insert_eq]).
    + destruct u2; simpl.
      * unfold Update. destruct (posts r !! ID post2) as [existing|]; [|done].
        intros [= <- <-]. simpl.
        split; [by exists old | eexists; apply lookup_insert_eq].
      * intros [= <- <-]. rewrite Hu2 by done. split; [by exists old | by exists id].
Qed.

Lemma published_flag_on_create_and_update_witness :
  exists r' post,
    PostService.Update 10 (env_at 10) (env_at 10) repo_draft 1 7
      (mkUpdateReq None None (Some 20)) = (r', Ok post) /\
    Published post = negb (in_future 10 (Some 20)).
Proof.
  eexists _, _. split; [reflexivity|].
  assert (0 <= 10) as H10 by lia.
  destruct (published_flag_on_create_and_update repo_draft 10 H10) as (_ & _ & _ & HU).
  destruct (HU (env_at 10) (env_at 10) 1 7 (mkUpdateReq None None (Some 20)) _ _ eq_refl)
    as [(old & Hold & Hpub) _].
  exact Hpub.
Defined.

End PublishedFlag.

(** ** The publish transition on both repositories *)

Section Publish.
Import Scheduler.

Lemma publish_stored (e : env) (w : nat) (job old : Post) (r : InMemoryPostRepo.t) :
  InMemoryPostRepo.posts r !! ID job = Some old ->
  publish e w job r =
    (InMemoryPostRepo.mk (InMemoryPostRepo.seq r)
       (<[ID job := mkPost (ID job) (Title job) (Content job) (AuthorID job) true
                      (PublishAt job) (CreatedAt old) (now e)]> (InMemoryPostRepo.posts r)),
     Info_published w (ID job)).
Proof.
  intros Hold. unfold publish, publish_with. simpl.
  unfold InMemoryPostRepo.Update. simpl. by rewrite Hold.
Qed.

Lemma publish_missing (e : env) (w : nat) (job : Post) (r : InMemoryPostRepo.t) :
  InMemoryPostRepo.posts r !! ID job = None ->
  publish e w job r = (r, Error_publish w (ID job) repository_ErrPostNotFound).
Proof.
  intros Hold. unfold publish, publish_with. simpl.
  unfold InMemoryPostRepo.Update. simpl. by rewrite Hold.
Qed.

Lemma db_publish_stored (e : env) (w : nat) (job row : Post) (r : PostRepo.t) :
  fault e = None ->
  PostRepo.table r !! ID job = Some row ->
  publish_with PostRepo.Update e w job r =
    (PostRepo.mk
       (<[ID job := mkPost (ID row) (Title job) (Content job) (AuthorID row) true
                      (PublishAt job) (CreatedAt row) (now e)]> (PostRepo.table r)),
     Info_published w (ID job)).
Proof.
  intros He Hrow. unfold publish_with, PostRepo.Update. simpl. by rewrite He, Hrow.
Qed.

Lemma db_publish_missing (e : env) (w : nat) (job : Post) (r : PostRepo.t) :
  fault e = None ->
  PostRepo.table r !! ID job = None ->
  publish_with PostRepo.Update e w job r
  = (r, Error_publish w (ID job) repository_ErrPostNotFound).
Proof.
  intros He Hrow. unfold publish_with, PostRepo.Update. simpl. by rewrite He, Hrow.
Qed.

Lemma db_publish_fault (e : env) (w : nat) (job : Post) (r : PostRepo.t) (msg : string) :
  fault e = Some msg ->
  publish_with PostRepo.Update e w job r
  = (r, Error_publish w (ID job) (repository_Wrapped "failed to update post")).
Proof.
  intros He. unfold publish_with, PostRepo.Update. simpl. by rewrite He.
Qed.

Lemma elem_of_rows (r : PostRepo.t) (row : Post) :
  row ∈ rows r <-> exists id, PostRepo.table r !! id = Some row.
Proof.
  unfold rows. rewrite list_elem_of_fmap. split.
  - intros [[k p] [-> Hk]]. exists k. by apply elem_of_map_to_list.
  - intros [k Hk]. exists (k, row). split; [done|]. by apply elem_of_map_to_list.
Qed.

Lemma db_selected_Permutation cs (r : PostRepo.t) filter :
  PostRepo.selected cs r filter ≡ₚ List.filter (PostRepo.applyFilters filter) (rows r).
Proof.
  unfold PostRepo.selected. rewrite sort_Slice_Permutation.
  apply filter_Permutation', shuffle_Permutation.
Qed.

Lemma elem_of_db_selected cs (r : PostRepo.t) filter row :
  row ∈ PostRepo.selected cs r filter <->
  (exists id, PostRepo.table r !! id = Some row) /\ PostRepo.applyFilters filter row = true.
Proof.
  rewrite db_selected_Permutation, elem_of_filter'. by rewrite elem_of_rows.
Qed.

(** What the fetch of a tick returns from the database: the first
    [page_limit] rows of [selected]. *)
Lemma db_fetch_Ok (e : env) (r : PostRepo.t) :
  fault e = None ->
  fetch_with PostRepo.GetPosts e r
  = Ok (take 100 (PostRepo.selected (order e) r (due_filter (now e)))).
Proof. intros He. unfold fetch_with, PostRepo.GetPosts. by rewrite He. Qed.

(** What it returns from the in-memory store. *)
Lemma fetch_Ok (e : env) (r : InMemoryPostRepo.t) :
  fetch e r = Ok (take 100 (InMemoryPostRepo.selected (order e) r (due_filter (now e)))).
Proof.
  unfold fetch, fetch_with. simpl. unfold InMemoryPostRepo.GetPosts.
  set (l := InMemoryPostRepo.selected _ _ _).
  unfold page_offset, page_limit.
  destruct (Z.of_nat (length l) <=? 0) eqn:E.
  - apply Z.leb_le in E. destruct l; [done | simpl in E; lia].
  - apply Z.leb_gt in E. change (wrap (0 + 100)) with 100. simpl (100 <=? 0). simpl orb.
    destruct (Z.of_nat (length l) <? 100) eqn:E2.
    + apply Z.ltb_lt in E2.
      replace (Z.of_nat (length l) - 0 <? 0) with false by (symmetry; apply Z.ltb_ge; lia).
      simpl (0 <? 0). rewrite andb_false_r. rewrite Z.sub_0_r, Nat2Z.id. simpl drop.
      f_equal. rewrite (take_ge l 100) by lia. apply take_ge. lia.
    + done.
Qed.

End Publish.

(** ** What a worker changes in the store *)

Section Frame.
Import Scheduler.

(** C6, as stated, fails when the post is edited between the fetch and the
    update: in [run_edit_after_fetch] the stored title is "final" when worker 1
    publishes, and "draft", the title at the time of the fetch, afterwards. *)
Lemma publish_overwrites_edit :
  (run run_edit_after_fetch (init repo_draft) ≫= stored_at 1)
  = Some (mkPost 1 "final" "text" 7 false (Some 5) 1 11) /\
  (run (run_edit_after_fetch ++ [WorkerPublish 0 (env_at 12)]) (init repo_draft)
     ≫= stored_at 1)
  = Some (mkPost 1 "draft" "text" 7 true (Some 5) 1 12).
Proof. split; vm_compute; reflexivity. Qed.

(** C6, amended.  When a worker publishes a post that is still stored, the
    store changes at the key of that post only; there the published flag
    becomes true, the update timestamp becomes the time of the update, the
    creation timestamp stays, and title, content and publishAt (in the
    in-memory store the author too) are written with the values the job
    carries from the fetch.  So when the post was not modified since the
    fetch, only the published flag and the update timestamp change. *)
Theorem publish_frame (e : env) (w : nat) (job : Post) :
  (forall (r : InMemoryPostRepo.t) (old : Post),
     InMemoryPostRepo.posts r !! ID job = Some old ->
     exists new,
       publish e w job r
       = (InMemoryPostRepo.mk (InMemoryPostRepo.seq r)
            (<[ID job := new]> (InMemoryPostRepo.posts r)), Info_published w (ID job)) /\
       Published new = true /\ UpdatedAt new = now e /\ CreatedAt new = CreatedAt old /\
       ID new = ID job /\ Title new = Title job /\ Content new = Content job /\
       PublishAt new = PublishAt job /\ AuthorID new = AuthorID job /\
       (snapshot_of job old -> new = set_UpdatedAt (now e) (set_Published true old))) /\
  (forall (r : PostRepo.t) (old : Post),
     fault e = None ->
     PostRepo.table r !! ID job = Some old ->
     exists new,
       publish_with PostRepo.Update e w job r
       = (PostRepo.mk (<[ID job := new]> (PostRepo.table r)), Info_published w (ID job)) /\
       Published new = true /\ UpdatedAt new = now e /\ CreatedAt new = CreatedAt old /\
       ID new = ID old /\ Title new = Title job /\ Content new = Content job /\
       PublishAt new = PublishAt job /\ AuthorID new = AuthorID old /\
       (snapshot_of job old -> new = set_UpdatedAt (now e) (set_Published true old))).
Proof.
  split.
  - intros r old Hold. eexists. split; [by apply publish_stored|].
    simpl. repeat split; try done.
    intros (H1 & H2 & H3 & H4 & H5). unfold set_UpdatedAt, set_Published.
    destruct old; simpl in *. congruence.
  - intros r old He Hold. eexists. split; [by apply db_publish_stored|].
    simpl. repeat split; try done.
    intros (H1 & H2 & H3 & H4 & H5). unfold set_UpdatedAt, set_Published.
    destruct old; simpl in *. congruence.
Qed.

Lemma publish_frame_witness :
  (exists new,
     publish (env_at 12) 1 draft repo_draft
     = (InMemoryPostRepo.mk 1 (<[1 := new]> {[ 1 := draft ]}), Info_published 1 1) /\
     new = mkPost 1 "draft" "text" 7 true (Some 5) 1 12) /\
  (exists new,
     publish_with PostRepo.Update (env_at 12) 1 draft db_draft
     = (PostRepo.mk (<[1 := new]> {[ 1 := draft ]}), Info_published 1 1) /\
     new = mkPost 1 "draft" "text" 7 true (Some 5) 1 12).
Proof.
  destruct (publish_frame (env_at 12) 1 draft) as [Hmem Hdb]. split.
  - destruct (Hmem repo_draft draft eq_refl) as (new & Hrun & _ & _ & _ & _ & _ & _ & _ & _ & Hnew).
    exists new. split; [exact Hrun|]. apply Hnew. by repeat split.
  - destruct (Hdb db_draft draft eq_refl eq_refl)
      as (new & Hrun & _ & _ & _ & _ & _ & _ & _ & _ & Hnew).
    exists new. split; [exact Hrun|]. apply Hnew. by repeat split.
Defined.

(** C5, as stated, fails on the update timestamp: in [run_sent_twice] the
    post is stored as published when worker 2 publishes its copy; the update
    returns no error, and the store is not the same afterwards. *)
Lemma publish_again_changes_UpdatedAt :
  (run run_sent_twice (init repo_draft) ≫= stored_at 1)
  = Some (mkPost 1 "draft" "text" 7 true (Some 5) 1 12) /\
  (run (run_sent_twice ++ [WorkerPublish 1 (env_at 13)]) (init repo_draft) ≫= stored_at 1)
  = Some (mkPost 1 "draft" "text" 7 true (Some 5) 1 13) /\
  (run (run_sent_twice ++ [WorkerPublish 1 (env_at 13)]) (init repo_draft)
     ≫= fun s => head (log s))
  = Some (Info_published 2 1).
Proof. repeat split; vm_compute; reflexivity. Qed.

(** C5, amended.  Publishing a post whose stored published flag is already
    true, with a job that carries the stored title, content, author and
    publishAt, returns no error and changes nothing in the store but the
    update timestamp of that post; and publishing the same job twice leaves
    the store that publishing it once at the later time leaves. *)
Theorem publish_idempotent (e : env) (w : nat) (job old : Post) (r : InMemoryPostRepo.t) :
  InMemoryPostRepo.posts r !! ID job = Some old ->
  Published old = true ->
  snapshot_of job old ->
  publish e w job r
  = (InMemoryPostRepo.mk (InMemoryPostRepo.seq r)
       (<[ID job := set_UpdatedAt (now e) old]> (InMemoryPostRepo.posts r)),
     Info_published w (ID job)) /\
  (forall e' w', (publish e' w' job (publish e w job r).1).1 = (publish e' w' job r).1).
Proof.
  intros Hold Hpub Hsnap. split.
  - rewrite (publish_stored _ _ _ old) by done. do 3 f_equal.
    destruct Hsnap as (H1 & H2 & H3 & H4 & H5). unfold set_UpdatedAt.
    destruct old; simpl in *. congruence.
  - intros e' w'. rewrite (publish_stored e _ _ old) by done. simpl.
    erewrite (publish_stored e'); [|simpl; apply lookup_insert_eq].
    rewrite (publish_stored e' _ _ old) by done. simpl.
    by rewrite insert_insert_eq.
Qed.

Lemma publish_idempotent_witness :
  publish (env_at 13) 2 draft
    (InMemoryPostRepo.mk 1 {[ 1 := mkPost 1 "draft" "text" 7 true (Some 5) 1 12 ]})
  = (InMemoryPostRepo.mk 1
       (<[1 := mkPost 1 "draft" "text" 7 true (Some 5) 1 13]>
          {[ 1 := mkPost 1 "draft" "text" 7 true (Some 5) 1 12 ]}),
     Info_published 2 1).
Proof.
  refine (proj1 (publish_idempotent (env_at 13) 2 draft
                   (mkPost 1 "draft" "text" 7 true (Some 5) 1 12)
                   (InMemoryPostRepo.mk 1 {[ 1 := mkPost 1 "draft" "text" 7 true (Some 5) 1 12 ]})
                   _ _ _));
    [reflexivity | reflexivity | by repeat split].
Defined.

End Frame.

(** ** Runs of the scheduler *)

Section Runs.
Import Scheduler.
Context {R : Type} `{PostRepository R}.
Implicit Types (s : state R) (tr : list label).

Lemma run_app tr1 tr2 s : run (tr1 ++ tr2) s = run tr1 s ≫= run tr2.
Proof.
  revert s. induction tr1 as [|l tr1 IH]; intros s; simpl; [done|].
  destruct (step l s); simpl; [apply IH | done].
Qed.

Lemma all_returned_spec (ws : list worker) :
  all_returned ws = true <-> forall i w, ws !! i = Some w -> w = WReturned.
Proof.
  unfold all_returned. rewrite forallb_forall. split.
  - intros Hall i w Hi. apply list_elem_of_lookup_2, list_elem_of_In, Hall in Hi.
    by destruct w.
  - intros Hall w Hw. apply list_elem_of_In, list_elem_of_lookup_1 in Hw as [i Hi].
    by rewrite (Hall i w Hi).
Qed.

Lemma lookup_set_worker (i j : nat) (w : worker) (ws : list worker) :
  <[i := w]> ws !! j = Some WReturned ->
  (w = WReturned /\ i = j) \/ ws !! j = Some WReturned.
Proof.
  destruct (decide (i = j)) as [->|Hne].
  - destruct (decide (j < length ws)%nat).
    + rewrite list_lookup_insert_eq by done. intros [= ->]. by left.
    + rewrite list_insert_ge by lia. by right.
  - rewrite list_lookup_insert_ne by done. by right.
Qed.

Lemma init_inv (r : R) : scheduler_inv (init r).
Proof.
  unfold scheduler_inv, init, SchedulerBufferSize, SchedulerWorkers. simpl.
  repeat split; try done; try lia.
  - by intros [?|?].
  - intros i Hi. by repeat (destruct i as [|i]; simpl in Hi; try done).
Qed.

Lemma step_inv l s s' : scheduler_inv s -> step l s = Some s' -> scheduler_inv s'.
Proof.
  intros (Hlen & Hws & Hclosed & Hcc & Hret & Hall) Hstep.
  assert (forall i w, workers s !! i = Some w -> w <> WReturned -> loop s <> LReturned) as Hlive.
  { intros i w Hi Hw Hl. by apply Hw, (Hall Hl i). }
  unfold scheduler_inv, SchedulerBufferSize in *.
  destruct l as [| | | | |e|  | | |i|i e|i]; simpl in Hstep; repeat case_match; simplify_eq; simpl in *.
  all: try match goal with H : (_ <? _)%nat = true |- _ => apply Nat.ltb_lt in H end.
  all: try match goal with H : all_returned _ = true |- _ => rewrite all_returned_spec in H end.
  all: try match goal with H : jobs _ = _ |- _ => rewrite H in *; simpl in * end.
  all: rewrite ?length_app, ?length_insert; simpl.
  all: unfold SchedulerBufferSize in *.
  all: split; [lia|]; split; [done|].
  all: try match goal with H : loop _ = _ |- _ => rewrite H in * end.
  all: try match goal with H : closed _ = _ |- _ => rewrite H in * end.
  all: try match goal with H : cancelled _ = _ |- _ => rewrite H in * end.
  all: unfold next_pc;
    repeat match goal with |- context [match ?x with [] => _ | _ :: _ => _ end] => destruct x end.
  all: try (intuition (try congruence); fail).
  all: split; [intuition congruence|]; split; [intuition congruence|]; split.
  all: try (intros j [[? ?]|?]%lookup_set_worker; eauto; congruence).
  all: intros Hl; exfalso; eapply Hlive; eauto; congruence.
Qed.

Lemma run_inv tr s s' : scheduler_inv s -> run tr s = Some s' -> scheduler_inv s'.
Proof.
  revert s. induction tr as [|l tr IH]; intros s Hinv; simpl.
  - by intros [= <-].
  - destruct (step l s) as [s1|] eqn:E; [|done]. intros Hrun.
    eapply IH; [|exact Hrun]. by eapply step_inv.
Qed.


Lemma run_init_inv (r : R) tr s : run tr (init r) = Some s -> scheduler_inv s.
Proof. apply run_inv, init_inv. Qed.

(** Once the queue is closed the loop neither sends nor fetches, and the
    queue only loses jobs. *)
Lemma closed_step l s s' :
  scheduler_inv s -> closed s = true -> step l s = Some s' ->
  closed s' = true /\ ~ produces l /\ exists k, jobs s' = drop k (jobs s).
Proof.
  intros (_ & _ & Hclosed & _) Hc Hstep. apply Hclosed in Hc as Hl.
  assert (jobs s = drop 0 (jobs s)) as Hsame by done.
  destruct l as [| | | | |e| | | |i|i e|i]; simpl in Hstep; repeat case_match;
    simplify_eq; simpl; try (destruct Hl; congruence);
    try (split; [done|]; split; [by auto|]; by exists 0%nat).
  by (split; [done|]; split; [by auto|]; exists 1%nat).
Qed.

Lemma closed_run tr s s' :
  scheduler_inv s -> closed s = true -> run tr s = Some s' ->
  closed s' = true /\ Forall (fun l => ~ produces l) tr /\
  exists k, jobs s' = drop k (jobs s).
Proof.
  revert s. induction tr as [|l tr IH]; intros s Hinv Hc; simpl.
  - intros [= <-]. split; [done|]. split; [constructor|]. by exists 0%nat.
  - destruct (step l s) as [s1|] eqn:E; [|done]. intros Hrun.
    destruct (closed_step _ _ _ Hinv Hc E) as (Hc1 & Hl & k1 & Hk1).
    destruct (IH s1 (step_inv _ _ _ Hinv E) Hc1 Hrun) as (Hc' & Htr & k & Hk).
    split; [done|]. split; [by constructor|].
    exists (k1 + k)%nat. by rewrite Hk, Hk1, drop_drop.
Qed.

(** A worker that holds a post keeps it until it has called the update. *)
Lemma holding_step l s s' i post :
  workers s !! i = Some (WHolding post) -> step l s = Some s' ->
  workers s' !! i = Some (WHolding post) \/ exists e, l = WorkerPublish i e.
Proof.
  intros Hi Hstep.
  destruct l as [| | | | |e| | | |j|j e|j]; simpl in Hstep; repeat case_match;
    simplify_eq; simpl; try (by left).
  all: destruct (decide (j = i)) as [->|Hne]; [congruence || eauto|].
  all: left; by rewrite list_lookup_insert_ne.
Qed.

End Runs.

(** ** Shutdown *)

Section Shutdown.
Import Scheduler.

(** C1, as stated, fails in two ways.  In [run_cancel_with_backlog] every
    worker leaves through the cancellation case of its select while the queue
    still holds a job: the scheduler returns, all five workers have exited, and
    the job was never received (the post is still stored unpublished).  In
    [run_break_then_send] the loop has observed the cancellation at
    [break PushJobs], with an empty queue, and sends a job afterwards. *)
Lemma shutdown_leaves_job_and_break_sends :
  run run_cancel_with_backlog (init repo_draft) = Some state_returned /\
  loop state_returned = LReturned /\
  workers state_returned = replicate 5 WReturned /\
  jobs state_returned = [draft] /\
  stored_at 1 state_returned = Some draft /\
  (run run_break (init repo_draft) ≫= fun s => Some (cancelled s, loop s, jobs s))
  = Some (true, LSelect, []) /\
  (run run_break_then_send (init repo_draft) ≫= fun s => Some (cancelled s, loop s, jobs s))
  = Some (true, LCheck [], [draft]).
Proof. repeat split; vm_compute; reflexivity. Qed.

(** C1, amended.  In every state the scheduler reaches: the queue is closed
    exactly when the loop has taken the cancellation case of its outer select,
    which needs the cancellation; from then on the loop sends and fetches
    nothing and the queue only loses jobs; a worker has exited only after the
    cancellation, and one that holds a job does not exit before it has called
    the update; and when [StartPostScheduler] has returned all five workers
    have exited. *)
Theorem graceful_shutdown {R : Type} `{PostRepository R} (r : R) (tr : list label)
    (s : state R) :
  run tr (init r) = Some s ->
  (closed s = true <-> loop s = LWait \/ loop s = LReturned) /\
  (closed s = true -> cancelled s = true) /\
  (closed s = true ->
   forall tr' s', run tr' s = Some s' ->
     closed s' = true /\ Forall (fun l => ~ produces l) tr' /\
     exists k, jobs s' = drop k (jobs s)) /\
  (forall i, workers s !! i = Some WReturned -> cancelled s = true) /\
  (forall i post l s',
     workers s !! i = Some (WHolding post) -> step l s = Some s' ->
     workers s' !! i = Some (WHolding post) \/ exists e, l = WorkerPublish i e) /\
  (loop s = LReturned ->
   length (workers s) = SchedulerWorkers /\
   forall i w, workers s !! i = Some w -> w = WReturned).
Proof.
  intros Hrun. pose proof (run_init_inv _ _ _ Hrun) as Hinv.
  destruct Hinv as (Hlen & Hws & Hclosed & Hcc & Hret & Hall).
  split; [done|]. split; [done|]. split.
  { intros Hc tr' s'. by apply closed_run. }
  split; [done|]. split.
  { intros i post l s'. apply holding_step. }
  intros Hl. split; [done | by apply Hall].
Qed.

Lemma graceful_shutdown_witness :
  length (workers state_returned) = SchedulerWorkers /\
  forall i w, workers state_returned !! i = Some w -> w = WReturned.
Proof.
  assert (run run_cancel_with_backlog (init repo_draft) = Some state_returned) as Hrun
    by (vm_compute; reflexivity).
  destruct (graceful_shutdown repo_draft run_cancel_with_backlog state_returned Hrun)
    as (_ & _ & _ & _ & _ & Hret).
  apply Hret. reflexivity.
Defined.

(** ** The backlog warning *)

(** C9.  The queue never holds more than 1000 jobs.  A send appends the post
    to the queue and leaves the loop in front of the test of [len(jobs)]; the
    loop leaves that point through the test only; and the test logs the warning
    exactly when the queue then holds more than 500 jobs, going on to the next
    post with the same queue, repository and workers whether it warned or
    not. *)
Theorem backlog_warning {R : Type} `{PostRepository R} (r : R) (tr : list label)
    (s : state R) :
  run tr (init r) = Some s ->
  (length (jobs s) <= SchedulerBufferSize)%nat /\
  (forall s1, step LoopSend s = Some s1 ->
     exists post posts,
       loop s = LPush (post :: posts) /\
       (length (jobs s) < SchedulerBufferSize)%nat /\
       s1 = mkState (repo s) (cancelled s) (ticker_C s) (jobs s ++ [post]) (closed s)
              (workers s) (LCheck posts) (log s)) /\
  (forall posts, loop s = LCheck posts ->
     (forall l s', step l s = Some s' -> loop s' <> loop s -> l = LoopLen) /\
     step LoopLen s
     = Some (mkState (repo s) (cancelled s) (ticker_C s) (jobs s) (closed s) (workers s)
               (next_pc posts)
               (if (SchedulerMaxJobQueueSize <? length (jobs s))%nat
                then Warn_backlog (length (jobs s)) :: log s
                else log s))).
Proof.
  intros Hrun. pose proof (run_init_inv _ _ _ Hrun) as (Hlen & _).
  split; [done|]. split.
  - intros s1 Hstep. simpl in Hstep.
    destruct (loop s) as [|[|post posts]| | | |] eqn:El; try done.
    destruct (length (jobs s) <? SchedulerBufferSize)%nat eqn:Eb; [|done].
    apply Nat.ltb_lt in Eb. injection Hstep as <-. by exists post, posts.
  - intros posts El. split.
    + intros l s' Hstep Hne.
      destruct l as [| | | | |e| | | |i|i e|i]; simpl in Hstep; try done;
        rewrite ?El in Hstep; try done; exfalso; apply Hne;
        repeat case_match; simplify_eq; done.
    + simpl. rewrite El. by destruct (SchedulerMaxJobQueueSize <? length (jobs s))%nat.
Qed.

Lemma backlog_warning_witness :
  step LoopLen state_first_send
  = Some (mkState (InMemoryPostRepo.mk 1 {[ 1 := draft ]}) false false [draft] false
            (replicate 5 WSelect) LSelect [Info_started]).
Proof.
  assert (run run_first_send (init repo_draft) = Some state_first_send) as Hrun
    by (vm_compute; reflexivity).
  destruct (backlog_warning repo_draft run_first_send state_first_send Hrun)
    as (_ & _ & Hlen).
  destruct (Hlen [] eq_refl) as [_ Heq]. exact Heq.
Defined.

End Shutdown.

(** ** A failed update *)

Section FailedUpdate.
Import Scheduler.

(** C7, as stated, fails when the update fails because the post is gone: in
    [run_delete_after_fetch] the update of worker 1 returns [ErrPostNotFound],
    no post is persisted under the id, and the fetch of the next poll is
    empty.  The worker is back at its select. *)
Lemma failed_publish_of_deleted_post :
  (run run_delete_after_fetch (init repo_draft)
     ≫= fun s => Some (log s, stored_at 1 s, workers s !! 0%nat, fetch (env_at 13) (repo s)))
  = Some ([Error_publish 1 1 repository_ErrPostNotFound; Info_started],
          None, Some WSelect, Ok []).
Proof. vm_compute. reflexivity. Qed.

(** C7, amended.  A failed update leaves the store exactly as it was before
    the call, the flag having been set in the worker's copy only.  In the
    in-memory repository the update fails only when the post is no longer
    stored.  In the database a row that is still stored, unpublished and due
    passes the due filter of every later poll, and the fetch of that poll
    returns it when at most 100 rows are due.  Whatever the update returns, the
    worker logs one event and goes back to its select: the job is not put back,
    and the loop and the other workers are as before. *)
Theorem failed_publish (e : env) (w : nat) (job : Post) :
  (forall (r r' : InMemoryPostRepo.t) (err : error),
     publish e w job r = (r', Error_publish w (ID job) err) ->
     r' = r /\ err = repository_ErrPostNotFound /\
     InMemoryPostRepo.posts r !! ID job = None) /\
  (forall (r r' : PostRepo.t) (err : error),
     publish_with PostRepo.Update e w job r = (r', Error_publish w (ID job) err) ->
     r' = r /\
     forall (row : Post) (at_ : Time.t) (e2 : env),
       PostRepo.table r !! ID job = Some row ->
       Published row = false -> PublishAt row = Some at_ -> at_ <= now e2 ->
       fault e2 = None ->
       row ∈ due_rows (now e2) r /\
       ((length (due_rows (now e2) r) <= 100)%nat ->
        exists page, fetch_with PostRepo.GetPosts e2 r = Ok page /\ row ∈ page)) /\
  (forall (R : Type) (HR : PostRepository R) (s s' : state R) (i : nat) (e' : env),
     workers s !! i = Some (WHolding job) ->
     step (WorkerPublish i e') s = Some s' ->
     s' = mkState (publish e' (S i) job (repo s)).1 (cancelled s) (ticker_C s) (jobs s)
            (closed s) (<[i := WSelect]> (workers s)) (loop s)
            ((publish e' (S i) job (repo s)).2 :: log s)).
Proof.
  split; [|split].
  - intros r r' err.
    destruct (InMemoryPostRepo.posts r !! ID job) as [old|] eqn:Hold.
    + by rewrite (publish_stored _ _ _ old).
    + rewrite publish_missing by done. by intros [= <- <-].
  - intros r r' err Hpub.
    assert (r' = r) as ->.
    { destruct (fault e) as [msg|] eqn:He.
      - rewrite (db_publish_fault _ _ _ _ msg) in Hpub by done. by injection Hpub.
      - destruct (PostRepo.table r !! ID job) as [row|] eqn:Hrow.
        + by rewrite (db_publish_stored _ _ _ row) in Hpub.
        + rewrite db_publish_missing in Hpub by done. by injection Hpub. }
    split; [done|]. intros row at_ e2 Hrow Hp Hat Hdue He2.
    assert (PostRepo.applyFilters (due_filter (now e2)) row = true) as Hf.
    { unfold PostRepo.applyFilters. simpl. rewrite Hp, Hat. simpl. by apply Z.leb_le. }
    assert (row ∈ due_rows (now e2) r) as Hin.
    { apply elem_of_filter'. split; [|done]. apply elem_of_rows. eauto. }
    split; [done|]. intros Hle. eexists. split; [by apply db_fetch_Ok|].
    rewrite take_ge.
    + apply elem_of_db_selected. eauto.
    + by rewrite db_selected_Permutation.
  - intros R HR s s' i e' Hi Hstep. simpl in Hstep. rewrite Hi in Hstep.
    destruct (publish e' (S i) job (repo s)) as [r1 ev]. by injection Hstep as <-.
Qed.

Lemma failed_publish_witness :
  InMemoryPostRepo.NewInMemoryPostRepo = InMemoryPostRepo.NewInMemoryPostRepo /\
  repository_ErrPostNotFound = repository_ErrPostNotFound /\
  InMemoryPostRepo.posts InMemoryPostRepo.NewInMemoryPostRepo !! 1 = None.
Proof.
  apply (proj1 (failed_publish (env_at 12) 1 draft)
           InMemoryPostRepo.NewInMemoryPostRepo InMemoryPostRepo.NewInMemoryPostRepo
           repository_ErrPostNotFound).
  reflexivity.
Defined.

End FailedUpdate.

(** ** The jobs in the hands of the scheduler *)

Section Flight.
Import Scheduler.
Context {R : Type} `{PostRepository R}.
Implicit Types (s : state R) (ws : list worker).

Lemma held_split ws (i : nat) (w w' : worker) :
  ws !! i = Some w ->
  held ws = held (take i ws) ++ held [w] ++ held (drop (S i) ws) /\
  held (<[i := w']> ws) = held (take i ws) ++ held [w'] ++ held (drop (S i) ws).
Proof.
  intros Hi. assert (i < length ws)%nat as Hlt by (by eapply lookup_lt_Some). split.
  - rewrite <- (take_drop_middle ws i w Hi) at 1. unfold held.
    rewrite bind_app, bind_cons. simpl. by rewrite app_nil_r.
  - rewrite insert_take_drop by done. unfold held.
    rewrite bind_app, bind_cons. simpl. by rewrite app_nil_r.
Qed.

Lemma held_receive ws (i : nat) (post : Post) :
  ws !! i = Some WSelect -> held (<[i := WHolding post]> ws) ≡ₚ post :: held ws.
Proof.
  intros Hi. destruct (held_split ws i WSelect (WHolding post) Hi) as [-> ->].
  unfold held at 2 5. simpl. by rewrite <- Permutation_middle.
Qed.

Lemma held_publish ws (i : nat) (post : Post) :
  ws !! i = Some (WHolding post) -> held ws ≡ₚ post :: held (<[i := WSelect]> ws).
Proof.
  intros Hi. destruct (held_split ws i (WHolding post) WSelect Hi) as [-> ->].
  unfold held at 2 5. simpl. by rewrite <- Permutation_middle.
Qed.

Lemma held_return ws (i : nat) :
  ws !! i = Some WSelect -> held (<[i := WReturned]> ws) = held ws.
Proof.
  intros Hi. by destruct (held_split ws i WSelect WReturned Hi) as [-> ->].
Qed.

Lemma pending_next_pc (posts : list Post) : pending (next_pc posts) = posts.
Proof. by destruct posts. Qed.

Lemma step_flight_change (l : label) s s' :
  step l s = Some s' -> flight_change l s s'.
Proof.
  intros Hstep. unfold flight_change, in_flight.
  destruct l as [| | | | |e| | | |i|i e|i]; simpl in Hstep.
  - by injection Hstep as <-.
  - by injection Hstep as <-.
  - by injection Hstep as <-.
  - destruct (loop s) eqn:El; try done. destruct (cancelled s); [|done].
    by injection Hstep as <-.
  - destruct (loop s) eqn:El; try done. destruct (all_returned (workers s)); [|done].
    by injection Hstep as <-.
  - destruct (loop s) eqn:El; try done. destruct (ticker_C s); [|done].
    simpl in Hstep.
    destruct (fetch e (repo s)) as [page| |]; injection Hstep as <-; simpl; try done.
    rewrite pending_next_pc, <- app_assoc.
    apply Permutation_app_head, Permutation_app_comm.
  - destruct (loop s) as [|[|post posts]| | | |] eqn:El; try done.
    destruct (length (jobs s) <? SchedulerBufferSize)%nat; [|done].
    injection Hstep as <-. simpl. by rewrite <- app_assoc.
  - destruct (loop s) eqn:El; try done.
    destruct (SchedulerMaxJobQueueSize <? length (jobs s))%nat;
      injection Hstep as <-; simpl; by rewrite pending_next_pc.
  - destruct (loop s) as [|[|post posts]| | | |] eqn:El; try done.
    destruct (cancelled s) eqn:Ec; [|done]. injection Hstep as <-. simpl.
    split; [done|].
    rewrite <- app_assoc. apply Permutation_app_head.
    apply (Permutation_app_comm (post :: posts)).
  - destruct (workers s !! i) as [[| |]|] eqn:Ew; try done.
    destruct (jobs s) as [|post q] eqn:Eq.
    + destruct (closed s); [|done]. injection Hstep as <-. simpl.
      by rewrite Eq, held_return by done.
    + injection Hstep as <-. simpl. rewrite held_receive by done.
      by rewrite <- !Permutation_middle.
  - destruct (workers s !! i) as [[|post|]|] eqn:Ew; try done.
    destruct (publish e (S i) post (repo s)) as [r' ev]. injection Hstep as <-. simpl.
    exists post. split; [done|]. rewrite (held_publish _ i post) by done.
    by rewrite <- !Permutation_middle.
  - destruct (workers s !! i) as [[| |]|] eqn:Ew; try done.
    destruct (cancelled s); [|done]. injection Hstep as <-. simpl.
    by rewrite held_return by done.
Qed.

Lemma elem_of_held (ws : list worker) (i : nat) (job : Post) :
  ws !! i = Some (WHolding job) -> job ∈ held ws.
Proof.
  intros Hi. rewrite (held_publish ws i job Hi). by left.
Qed.

(** The jobs in flight after a step were in flight before it or are of the page
    the step has fetched. *)
Lemma step_in_flight (l : label) s s' (job : Post) :
  step l s = Some s' -> job ∈ in_flight s' ->
  job ∈ in_flight s \/
  exists e page, l = LoopTick e /\ fetch e (repo s) = Ok page /\ job ∈ page.
Proof.
  intros Hstep Hin. pose proof (step_flight_change l s s' Hstep) as Hfc.
  unfold flight_change in Hfc.
  destruct l as [| |rq| | |e| | | |i|i e|i]; try (left; by rewrite <- Hfc).
  - destruct (fetch e (repo s)) as [page| |] eqn:Hfetch; try (left; by rewrite <- Hfc).
    rewrite Hfc in Hin. apply elem_of_app in Hin as [Hin|Hin]; [by left|].
    right. by exists e, page.
  - destruct Hfc as [_ Hfc]. left. rewrite Hfc. apply elem_of_app. by left.
  - destruct Hfc as (job' & _ & Hfc). left. rewrite Hfc. by right.
Qed.

End Flight.

(** ** Which posts become jobs *)

Section Eligibility.
Import Scheduler.

Example repo_unscheduled_posts :
  InMemoryPostRepo.posts repo_unscheduled = {[ 1 := note ]}.
Proof. reflexivity. Qed.

(** The fetch from the database returns due posts only. *)
Lemma db_fetch_due (e : env) (r : PostRepo.t) (page : list Post) :
  fetch_with PostRepo.GetPosts e r = Ok page ->
  forall post, post ∈ page -> due (now e) post.
Proof.
  unfold fetch_with, PostRepo.GetPosts. destruct (fault e); [done|].
  intros [= <-] post Hin. simpl in Hin.
  apply subseteq_take, elem_of_db_selected in Hin as [_ Hf].
  unfold PostRepo.applyFilters in Hf. simpl in Hf.
  apply andb_true_iff in Hf as [Hpub Hat]. apply eqb_prop in Hpub.
  split; [done|]. destruct (PublishAt post) as [at_|] eqn:Ea; [|done].
  exists at_. split; [done|]. by apply Z.leb_le.
Qed.

(** The fetch from the in-memory store returns unpublished posts whose
    [publishAt], if there is one, has passed. *)
Lemma fetch_due_or_unscheduled (e : env) (r : InMemoryPostRepo.t) (page : list Post) :
  fetch e r = Ok page ->
  forall post, post ∈ page ->
    (exists id, InMemoryPostRepo.posts r !! id = Some post) /\
    Published post = false /\
    (PublishAt post = None \/ due (now e) post).
Proof.
  rewrite fetch_Ok. intros [= <-] post Hin.
  apply subseteq_take, elem_of_selected in Hin as [Hst Hk].
  split; [done|]. unfold kept, filtered_out in Hk. simpl in Hk.
  apply negb_true_iff, orb_false_iff in Hk as [Hpub Hat].
  apply negb_false_iff, eqb_prop in Hpub. split; [done|].
  destruct (PublishAt post) as [at_|] eqn:Ea; [|by left]. right.
  split; [done|]. exists at_. split; [done|]. unfold Time.After in Hat.
  by apply Z.ltb_ge.
Qed.

(** Stores that are written through [PostService] and the workers only stay
    [scheduled]. *)
Lemma handle_scheduled (rq : request) (r : InMemoryPostRepo.t) :
  scheduled r -> scheduled (handle rq r).
Proof.
  intros Hs. destruct rq as [now_ e userID req|now_ e1 e2 id userID req|e1 e2 id userID].
  - unfold handle, PostService.Create. simpl. intros k post. simpl.
    destruct (decide (wrap (InMemoryPostRepo.seq r + 1) = k)) as [<-|Hne].
    + rewrite lookup_insert_eq. intros [= <-]. simpl.
      destruct (cr_PublishAt req) as [at_|]; simpl; [|done].
      by destruct (Time.IsZero at_ || negb (Time.After at_ now_)).
    + rewrite lookup_insert_ne by done. apply Hs.
  - unfold handle.
    destruct (PostService.Update now_ e1 e2 r id userID req) as [r' res] eqn:E.
    simpl. revert E. unfold PostService.Update. simpl. unfold InMemoryPostRepo.GetPost.
    destruct (InMemoryPostRepo.posts r !! id) as [old|] eqn:Hold; [|by intros [= <- _]].
    simpl. destruct (PostService.checkPostOwner old userID); [by intros [= <- _]|].
    set (p1 := match ur_Title req with
               | Some title =>
                   if negb (String.eqb title (Title old))
                   then (set_Title title old, true) else (old, false)
               | None => (old, false) end).
    assert (Published p1.1 = Published old /\ PublishAt p1.1 = PublishAt old) as [Hp1 Ha1].
    { unfold p1. destruct (ur_Title req); [|done]. by destruct (negb _). }
    destruct p1 as [post1 u1]. simpl in *.
    set (p2 := match ur_Content req with
               | Some content =>
                   if negb (String.eqb content (Content post1))
                   then (set_Content content post1, true) else (post1, u1)
               | None => (post1, u1) end).
    assert (Published p2.1 = Published old /\ PublishAt p2.1 = PublishAt old) as [Hp2 Ha2].
    { unfold p2. destruct (ur_Content req); [|done]. by destruct (negb _). }
    destruct p2 as [post2 u2]. simpl in *.
    set (p3 := match ur_PublishAt req with
               | Some at_ => _
               | None => (post2, u2) end).
    assert (Published p3.1 = false -> PublishAt p3.1 <> None) as Hp3.
    { unfold p3. destruct (ur_PublishAt req) as [at_|]; simpl.
      - by destruct (Time.After at_ now_).
      - rewrite Hp2, Ha2. by apply (Hs id). }
    destruct p3 as [post3 u3]. simpl in *.
    destruct u3; simpl; [|by intros [= <- _]].
    unfold InMemoryPostRepo.Update.
    destruct (InMemoryPostRepo.posts r !! ID post3) as [existing|]; simpl.
    + intros E. assert (r' = InMemoryPostRepo.mk (InMemoryPostRepo.seq r)
        (<[ID post3 := set_UpdatedAt (now e2) (set_CreatedAt (CreatedAt existing) post3)]>
           (InMemoryPostRepo.posts r))) as -> by (by injection E).
      intros k post. simpl. destruct (decide (ID post3 = k)) as [<-|Hne].
      * rewrite lookup_insert_eq. intros [= <-]. simpl. done.
      * rewrite lookup_insert_ne by done. apply Hs.
    + by intros [= <- _].
  - unfold handle, PostService.Delete. simpl. unfold InMemoryPostRepo.GetPost.
    destruct (InMemoryPostRepo.posts r !! id) as [old|] eqn:Hold; [|done]. simpl.
    destruct (PostService.checkPostOwner old userID); [done|].
    unfold InMemoryPostRepo.Delete. rewrite Hold. simpl.
    intros k post. simpl. destruct (decide (id = k)) as [<-|Hne].
    + by rewrite lookup_delete_eq.
    + rewrite lookup_delete_ne by done. apply Hs.
Qed.

Lemma publish_scheduled (e : env) (w : nat) (job : Post) (r : InMemoryPostRepo.t) :
  scheduled r -> scheduled (publish e w job r).1.
Proof.
  intros Hs. destruct (InMemoryPostRepo.posts r !! ID job) as [old|] eqn:Hold.
  - rewrite (publish_stored _ _ _ old) by done. intros k post. simpl.
    destruct (decide (ID job = k)) as [<-|Hne].
    + rewrite lookup_insert_eq. by intros [= <-].
    + rewrite lookup_insert_ne by done. apply Hs.
  - by rewrite publish_missing.
Qed.

Lemma step_scheduled (l : label) (s s' : state InMemoryPostRepo.t) :
  scheduled (repo s) -> step l s = Some s' -> scheduled (repo s').
Proof.
  intros Hs Hstep.
  destruct l as [| |rq| | |e| | | |i|i e|i]; simpl in Hstep;
    try (repeat case_match; simplify_eq; simpl; done).
  - injection Hstep as <-. simpl. by apply handle_scheduled.
  - destruct (workers s !! i) as [[|post|]|]; try done.
    pose proof (publish_scheduled e (S i) post (repo s) Hs) as Hp.
    destruct (publish e (S i) post (repo s)) as [r' ev]. by injection Hstep as <-.
Qed.

Lemma run_scheduled (tr : list label) (s s' : state InMemoryPostRepo.t) :
  scheduled (repo s) -> run tr s = Some s' -> scheduled (repo s').
Proof.
  revert s. induction tr as [|l tr IH]; intros s Hs; simpl.
  - by intros [= <-].
  - destruct (step l s) as [s1|] eqn:E; [|done]. intros Hrun.
    eapply IH; [|exact Hrun]. by eapply step_scheduled.
Qed.

(** So over a store that starts empty and is written only by the service and
    the workers, every fetched post is due. *)
Lemma fetch_due_through_service (tr : list label) (s : state InMemoryPostRepo.t)
    (e : env) (page : list Post) :
  run tr (init InMemoryPostRepo.NewInMemoryPostRepo) = Some s ->
  fetch e (repo s) = Ok page ->
  forall post, post ∈ page -> due (now e) post.
Proof.
  intros Hrun Hfetch post Hin.
  assert (scheduled (repo s)) as Hs.
  { eapply run_scheduled; [|exact Hrun]. intros k p. simpl. by rewrite lookup_empty. }
  destruct (fetch_due_or_unscheduled _ _ _ Hfetch _ Hin) as ([id Hid] & Hpub & [Hnone|Hdue]);
    [|done].
  by destruct (Hs id post Hid Hpub).
Qed.

(** The hypothesis on the store is needed for the in-memory repository alone:
    its [GetPosts] tests [DueBefore] only on a post that has a [publishAt], so
    from a store into which an unpublished post without one was put by hand the
    fetch returns that post, where the database repository returns nothing for
    the same row.  No request to [PostService] stores such a post
    ([handle_scheduled]). *)
Lemma unscheduled_post_is_dispatched :
  Published note = false /\ PublishAt note = None /\
  fetch (env_at 10) repo_unscheduled = Ok [note] /\
  (run run_tick_to_worker (init repo_unscheduled) ≫= fun s => workers s !! 0%nat)
  = Some (WHolding note) /\
  fetch_with PostRepo.GetPosts (env_at 10) db_unscheduled = Ok [].
Proof. repeat split; vm_compute; reflexivity. Qed.

Lemma due_at_a_tick_app (tr1 tr2 : list label) (job : Post) :
  due_at_a_tick tr1 job -> due_at_a_tick (tr1 ++ tr2) job.
Proof.
  intros (e & He & Hdue). exists e. split; [|done]. apply elem_of_app. by left.
Qed.

Lemma elem_of_in_flight {R : Type} `{PostRepository R} (s : state R) (job : Post) :
  job ∈ in_flight s <->
  job ∈ jobs s \/ job ∈ pending (loop s) \/
  exists i, workers s !! i = Some (WHolding job).
Proof.
  unfold in_flight. rewrite !elem_of_app.
  assert (job ∈ held (workers s) <-> exists i, workers s !! i = Some (WHolding job)) as ->;
    [|done].
  unfold held. rewrite list_elem_of_bind. split.
  - intros (w & Hw & Hin). apply list_elem_of_lookup in Hin as [i Hi]. exists i.
    destruct w as [|post|]; try (by apply elem_of_nil in Hw).
    apply list_elem_of_singleton in Hw. by subst.
  - intros [i Hi]. exists (WHolding job). split; [by left|].
    by eapply list_elem_of_lookup_2.
Qed.

Lemma step_jobs_due (tr0 : list label) (l : label) (s s' : state InMemoryPostRepo.t) :
  scheduled (repo s) ->
  (forall job, job ∈ in_flight s -> due_at_a_tick tr0 job) ->
  step l s = Some s' ->
  forall job, job ∈ in_flight s' -> due_at_a_tick (tr0 ++ [l]) job.
Proof.
  intros Hs Hfl Hstep job Hin.
  destruct (step_in_flight l s s' job Hstep Hin) as [Hold|(e & page & -> & Hfetch & Hp)].
  - by apply due_at_a_tick_app, Hfl.
  - exists e. split; [apply elem_of_app; right; by left|].
    destruct (fetch_due_or_unscheduled _ _ _ Hfetch _ Hp)
      as ([id Hid] & Hpub & [Hnone|Hdue]); [|done].
    by destruct (Hs id job Hid Hpub).
Qed.

Lemma run_jobs_due (tr0 tr : list label) (s s' : state InMemoryPostRepo.t) :
  scheduled (repo s) ->
  (forall job, job ∈ in_flight s -> due_at_a_tick tr0 job) ->
  run tr s = Some s' ->
  forall job, job ∈ in_flight s' -> due_at_a_tick (tr0 ++ tr) job.
Proof.
  revert tr0 s. induction tr as [|l tr IH]; intros tr0 s Hs Hfl; simpl.
  - intros [= <-]. by rewrite app_nil_r.
  - destruct (step l s) as [s1|] eqn:E; [|done]. intros Hrun.
    rewrite cons_middle, app_assoc. eapply IH; [|exact (step_jobs_due tr0 l s s1 Hs Hfl E)|exact Hrun].
    by eapply step_scheduled.
Qed.

(** C2.  The fetch of a tick returns only posts that are stored unpublished
    with a [publishAt] that has passed: from the database whatever the table
    holds, and from the in-memory repository over every store in which no
    unpublished post is without a [publishAt], which is every store written
    through [PostService] and the workers.  A job comes into the hands of the
    scheduler by the fetch of a tick and in no other way.  So every job that is
    queued, about to be sent or held by a worker was due at a tick of the run:
    a post whose [publishAt] is absent or in the future is never handed to a
    worker. *)
Theorem jobs_are_due :
  (forall (e : env) (r : PostRepo.t) (page : list Post) (post : Post),
     fetch_with PostRepo.GetPosts e r = Ok page -> post ∈ page ->
     (exists id, PostRepo.table r !! id = Some post) /\ due (now e) post) /\
  (forall (R : Type) (HR : PostRepository R) (l : label) (s s' : state R) (job : Post),
     step l s = Some s' ->
     job ∈ jobs s' \/ job ∈ pending (loop s') \/
       (exists i, workers s' !! i = Some (WHolding job)) ->
     (job ∈ jobs s \/ job ∈ pending (loop s) \/
        (exists i, workers s !! i = Some (WHolding job))) \/
     (exists e page, l = LoopTick e /\ fetch e (repo s) = Ok page /\ job ∈ page)) /\
  (forall (r : InMemoryPostRepo.t) (tr : list label) (s : state InMemoryPostRepo.t),
     scheduled r -> run tr (init r) = Some s ->
     scheduled (repo s) /\
     (forall (e : env) (page : list Post) (post : Post),
        fetch e (repo s) = Ok page -> post ∈ page ->
        (exists id, InMemoryPostRepo.posts (repo s) !! id = Some post) /\
        due (now e) post) /\
     (forall job : Post,
        job ∈ jobs s \/ job ∈ pending (loop s) \/
          (exists i, workers s !! i = Some (WHolding job)) ->
        due_at_a_tick tr job /\ PublishAt job <> None)).
Proof.
  split; [|split].
  - intros e r page post Hfetch Hin. split; [|by eapply db_fetch_due].
    revert Hfetch. unfold fetch_with, PostRepo.GetPosts. destruct (fault e); [done|].
    intros [= <-]. simpl in Hin.
    apply subseteq_take, elem_of_db_selected in Hin as [Hrow _]. exact Hrow.
  - intros R HR l s s' job Hstep Hin. apply elem_of_in_flight in Hin.
    destruct (step_in_flight l s s' job Hstep Hin) as [Hold|Hnew]; [left|by right].
    by apply elem_of_in_flight.
  - intros r tr s Hr Hrun.
    assert (scheduled (repo s)) as Hs
      by exact (run_scheduled tr (init r) s Hr Hrun).
    split; [done|]. split.
    + intros e page post Hfetch Hin.
      destruct (fetch_due_or_unscheduled _ _ _ Hfetch _ Hin)
        as ([id Hid] & Hpub & [Hnone|Hdue]).
      * by destruct (Hs id post Hid Hpub).
      * split; [by exists id|done].
    + intros job Hin. apply elem_of_in_flight in Hin.
      assert (due_at_a_tick tr job) as Hdue.
      { apply (run_jobs_due [] tr (init r) s); [done| |done|done].
        intros job' Hin'. by apply elem_of_nil in Hin'. }
      split; [done|]. destruct Hdue as (e & _ & _ & at_ & Hat & _). congruence.
Qed.

Lemma jobs_are_due_witness :
  exists s job,
    run run_create_to_worker (init InMemoryPostRepo.NewInMemoryPostRepo) = Some s /\
    workers s !! 0%nat = Some (WHolding job) /\
    due_at_a_tick run_create_to_worker job /\ PublishAt job <> None.
Proof.
  eexists _, _. split; [vm_compute; reflexivity|]. split; [vm_compute; reflexivity|].
  refine (proj2 (proj2 (proj2 (proj2 jobs_are_due)
                          InMemoryPostRepo.NewInMemoryPostRepo run_create_to_worker _ _ _)) _ _).
  - intros id post Hid. unfold InMemoryPostRepo.NewInMemoryPostRepo in Hid. simpl in Hid.
    by rewrite lookup_empty in Hid.
  - vm_compute. reflexivity.
  - right. right. exists 0%nat. vm_compute. reflexivity.
Defined.

End Eligibility.

(** ** The page of a tick *)

Section Page.
Import Scheduler.
Implicit Types (r : InMemoryPostRepo.t) (page : list Post).

Lemma filter_NoDup' {A : Type} (f : A -> bool) (l : list A) :
  NoDup l -> NoDup (List.filter f l).
Proof.
  induction 1 as [|x l Hx _ IH]; simpl; [constructor|].
  destruct (f x); [|done]. constructor; [|done].
  rewrite elem_of_filter'. by intros [? _].
Qed.

Lemma stored_NoDup r : well_keyed r -> NoDup (stored r).
Proof.
  intros Hwk. apply (NoDup_fmap_1 ID).
  assert (ID <$> stored r = (map_to_list (InMemoryPostRepo.posts r)).*1) as ->.
  { unfold stored. rewrite <- list_fmap_compose. apply list_fmap_ext.
    intros i [k p] Hi. simpl.
    apply list_elem_of_lookup_2, elem_of_map_to_list in Hi. by apply Hwk. }
  apply NoDup_fst_map_to_list.
Qed.

Lemma elem_of_matching r filter post :
  post ∈ matching r filter <->
  (exists id, InMemoryPostRepo.posts r !! id = Some post) /\ kept filter post = true.
Proof. unfold matching. by rewrite elem_of_filter', elem_of_stored. Qed.

Lemma kept_due_unpublished now_ post :
  kept (due_filter now_) post = true -> Published post = false.
Proof. apply kept_published. eauto. Qed.

Lemma publish_well_keyed (e : env) (w : nat) (job : Post) r :
  well_keyed r -> well_keyed (publish e w job r).1.
Proof.
  intros Hwk. destruct (InMemoryPostRepo.posts r !! ID job) as [old|] eqn:Hold.
  - rewrite (publish_stored _ _ _ old) by done. simpl. by apply map_Forall_insert_2.
  - by rewrite publish_missing.
Qed.

(** After the jobs of [page], all of them stored, have been published: the
    posts of the page are stored as published, the others as before. *)
Lemma publish_all_lookup clock w page r :
  (forall job, job ∈ page -> is_Some (InMemoryPostRepo.posts r !! ID job)) ->
  forall id,
    (id ∉ ID <$> page ->
     InMemoryPostRepo.posts (publish_all clock w page r) !! id
     = InMemoryPostRepo.posts r !! id) /\
    (id ∈ ID <$> page ->
     exists new, InMemoryPostRepo.posts (publish_all clock w page r) !! id = Some new /\
                 Published new = true).
Proof.
  revert r. induction page as [|job page IH]; intros r Hst id; simpl.
  - split; [done|]. by intros ?%elem_of_nil.
  - destruct (Hst job) as [old Hold]; [by left|].
    rewrite (publish_stored _ _ _ old) by done. simpl.
    set (r1 := InMemoryPostRepo.mk _ _).
    assert (forall job', job' ∈ page ->
              is_Some (InMemoryPostRepo.posts r1 !! ID job')) as Hst1.
    { intros job' Hin. unfold r1. simpl. apply lookup_insert_is_Some'.
      right. apply Hst. by right. }
    destruct (IH r1 Hst1 id) as [IHout IHin].
    destruct (decide (id ∈ ID <$> page)) as [Hin|Hout].
    + split; [intros Hn; exfalso; apply Hn; by right|]. intros _. by apply IHin.
    + rewrite (IHout Hout). unfold r1. simpl. split.
      * intros Hn. apply lookup_insert_ne. intros Heq. apply Hn. rewrite <- Heq. by left.
      * intros [->|?]%elem_of_cons; [|done]. rewrite lookup_insert_eq. eauto.
Qed.

Lemma publish_all_well_keyed clock w page r :
  well_keyed r -> well_keyed (publish_all clock w page r).
Proof.
  revert r. induction page as [|job page IH]; intros r Hwk; simpl; [done|].
  by apply IH, publish_well_keyed.
Qed.

(** The due posts that are left when a page of due posts has been published. *)
Lemma matching_after_publish_all clock w page rest r now_ now2 :
  well_keyed r ->
  page ++ rest ≡ₚ matching r (due_filter now_) ->
  matching r (due_filter now2) = matching r (due_filter now_) ->
  matching (publish_all clock w page r) (due_filter now2) ≡ₚ rest.
Proof.
  intros Hwk Hperm Hsame.
  assert (NoDup (page ++ rest)) as Hnd.
  { rewrite Hperm. apply filter_NoDup', stored_NoDup, Hwk. }
  apply NoDup_app in Hnd as (_ & Hdisj & Hndr).
  assert (forall x, x ∈ page ++ rest ->
            InMemoryPostRepo.posts r !! ID x = Some x /\ kept (due_filter now2) x = true)
    as Hin.
  { intros x Hx. rewrite Hperm in Hx. pose proof Hx as Hx2. rewrite <- Hsame in Hx2.
    apply elem_of_matching in Hx as [[id Hid] _]. apply elem_of_matching in Hx2 as [_ Hk].
    by rewrite (Hwk id x Hid). }
  assert (forall job, job ∈ page -> is_Some (InMemoryPostRepo.posts r !! ID job)) as Hst.
  { intros job Hj. exists job. apply Hin, elem_of_app. by left. }
  pose proof (publish_all_lookup clock w page r Hst) as Hlook.
  apply NoDup_Permutation; [|done|].
  { apply filter_NoDup', stored_NoDup, publish_all_well_keyed, Hwk. }
  intros x. rewrite elem_of_matching. split.
  - intros [[id Hid] Hk]. destruct (decide (id ∈ ID <$> page)) as [Hp|Hp].
    + apply Hlook in Hp as (new & Hnew & Hpub).
      apply kept_due_unpublished in Hk. congruence.
    + rewrite (proj1 (Hlook id) Hp) in Hid.
      assert (x ∈ matching r (due_filter now2)) as Hx by (apply elem_of_matching; eauto).
      rewrite Hsame, <- Hperm in Hx. apply elem_of_app in Hx as [Hx|Hx]; [|done].
      exfalso. apply Hp. rewrite <- (Hwk id x Hid). apply list_elem_of_fmap. eauto.
  - intros Hx. destruct (Hin x) as [Hid Hk]; [apply elem_of_app; by right|].
    split; [|done]. exists (ID x). rewrite <- Hid. apply Hlook.
    intros (y & Hxy & Hy)%list_elem_of_fmap.
    destruct (Hin y) as [Hidy _]; [apply elem_of_app; by left|].
    rewrite <- Hxy, Hid in Hidy. injection Hidy as <-. by apply (Hdisj x).
Qed.

End Page.

Section PageRuns.
Import Scheduler.
Implicit Types (s : state InMemoryPostRepo.t) (page : list Post).

(** With room in the queue the loop sends a whole page and is back at its
    outer select. *)
Lemma run_send_all page s :
  loop s = next_pc page ->
  (length (jobs s) + length page <= SchedulerBufferSize)%nat ->
  exists s',
    run (send_all page) s = Some s' /\
    jobs s' = jobs s ++ page /\ loop s' = LSelect /\ repo s' = repo s /\
    workers s' = workers s /\ ticker_C s' = ticker_C s.
Proof.
  revert s. induction page as [|post page IH]; intros s Hl Hlen.
  - exists s. simpl. by rewrite app_nil_r.
  - simpl in Hl, Hlen. change (send_all (post :: page))
      with (LoopSend :: LoopLen :: send_all page).
    cbn [run]. simpl. rewrite Hl.
    replace (length (jobs s) <? SchedulerBufferSize)%nat with true
      by (symmetry; apply Nat.ltb_lt; lia).
    simpl.
    destruct (SchedulerMaxJobQueueSize <? length (jobs s ++ [post]))%nat;
      match goal with |- context [run (send_all page) ?s2] =>
        destruct (IH s2) as (s' & Hrun & Hj' & Hl' & Hr' & Hw' & Ht');
          [done | simpl; rewrite length_app; simpl; lia |];
          exists s'; simpl in *; rewrite Hj', <- app_assoc; by repeat split
      end.
Qed.

(** A worker at its select empties the queue, publishing job after job. *)
Lemma run_receive_all i clock (q : list Post) s :
  jobs s = q ->
  workers s !! i = Some WSelect ->
  exists s',
    run (receive_all i clock q) s = Some s' /\
    jobs s' = [] /\ repo s' = publish_all clock (S i) q (repo s) /\
    loop s' = loop s /\ workers s' = workers s /\ ticker_C s' = ticker_C s.
Proof.
  revert s. induction q as [|job q IH]; intros s Hq Hi.
  - exists s. by simpl.
  - assert (i < length (workers s))%nat as Hlt by (by eapply lookup_lt_Some).
    assert (run (receive_all i clock (job :: q)) s
            = run (receive_all i clock q)
                (add_log (publish (clock job) (S i) job (repo s)).2
                   (set_worker i WSelect
                      (set_repo (publish (clock job) (S i) job (repo s)).1
                         (set_worker i (WHolding job) (set_jobs q s)))))) as ->.
    { change (receive_all i clock (job :: q))
        with (WorkerRecv i :: WorkerPublish i (clock job) :: receive_all i clock q).
      cbn [run]. simpl. rewrite Hi, Hq. simpl.
      rewrite list_lookup_insert_eq by done.
      by destruct (publish (clock job) (S i) job (repo s)). }
    match goal with |- context [run (receive_all i clock q) ?s2] =>
      destruct (IH s2) as (s' & Hrun & Hj' & Hr' & Hl' & Hw' & Ht')
    end.
    + done.
    + simpl. apply list_lookup_insert_eq. by rewrite length_insert.
    + exists s'. split; [done|]. split; [done|]. split; [by rewrite Hr'|].
      split; [done|]. split; [|done].
      rewrite Hw'. simpl. rewrite list_insert_insert_eq. by apply list_insert_id.
Qed.

(** C3, as stated, fails on which page is fetched.  Of the 101 due posts of
    [backlog 101] the tick at time 2000 fetches posts 101 down to 2, the 100
    created last; post 1, created first and due first (at 1001), is stored,
    unpublished and left out.  A later tick over the same store fetches the
    same page again. *)
Lemma page_is_newest_created :
  fetch (env_at 2000) (backlog 101) = Ok (backlog_post <$> reverse (seqZ 2 100)) /\
  InMemoryPostRepo.posts (backlog 101) !! 1 = Some (backlog_post 1) /\
  PublishAt (backlog_post 1) = Some 1001 /\
  (PublishAt <$> (backlog_post <$> reverse (seqZ 2 100)) !! 0%nat) = Some (Some 1101) /\
  (1 ∉ ID <$> (backlog_post <$> reverse (seqZ 2 100))) /\
  fetch (env_at 2060) (backlog 101) = Ok (backlog_post <$> reverse (seqZ 2 100)).
Proof. repeat split; try (vm_compute; reflexivity). compute_done. Qed.

(** C3, amended.  A tick fetches at offset 0 at most 100 due posts, the ones
    created last: no post it leaves behind was created after a fetched one, and
    it leaves posts behind only when it fetched 100.  With an empty queue all of
    them are sent.  Given 150 due posts the tick sends exactly 100; once a
    worker has published these, the next tick, with no further post due, sends
    exactly the remaining 50. *)
Theorem page_of_a_tick s (e : env) :
  well_keyed (repo s) ->
  loop s = LSelect -> ticker_C s = true -> jobs s = [] ->
  exists page rest s1,
    fetch e (repo s) = Ok page /\
    run (LoopTick e :: send_all page) s = Some s1 /\
    jobs s1 = page /\ loop s1 = LSelect /\ repo s1 = repo s /\
    (length page <= 100)%nat /\
    (rest <> [] -> length page = 100%nat) /\
    page ++ rest ≡ₚ matching (repo s) (due_filter (now e)) /\
    newest_first (page ++ rest) /\
    (length (matching (repo s) (due_filter (now e))) = 150%nat ->
     length page = 100%nat /\
     forall (clock : Post -> env) (i : nat) (e2 : env),
       workers s !! i = Some WSelect ->
       matching (repo s) (due_filter (now e2)) = matching (repo s) (due_filter (now e)) ->
       exists page2 s2 s3,
         run (receive_all i clock page) s1 = Some s2 /\
         jobs s2 = [] /\ repo s2 = publish_all clock (S i) page (repo s) /\
         run (Fire :: LoopTick e2 :: send_all page2) s2 = Some s3 /\
         jobs s3 = page2 /\ length page2 = 50%nat /\ page2 ≡ₚ rest).
Proof.
  intros Hwk Hl Ht Hq.
  set (sel := InMemoryPostRepo.selected (order e) (repo s) (due_filter (now e))).
  assert (sel ≡ₚ matching (repo s) (due_filter (now e))) as Hsel
    by apply selected_Permutation.
  exists (take 100 sel), (drop 100 sel).
  set (s0 := mkState (repo s) (cancelled s) false (jobs s) (closed s) (workers s)
               (next_pc (take 100 sel)) (log s)).
  destruct (run_send_all (take 100 sel) s0) as (s1 & Hrun & Hj1 & Hl1 & Hr1 & Hw1 & Ht1).
  { done. }
  { unfold s0, SchedulerBufferSize. cbn [jobs]. rewrite Hq, length_take. cbn [length]. lia. }
  exists s1. split; [apply fetch_Ok|]. split.
  { cbn [run]. unfold step at 1. rewrite Hl, Ht. cbn [repo]. rewrite fetch_Ok. exact Hrun. }
  simpl in Hj1, Hr1, Hw1. rewrite Hq in Hj1. simpl in Hj1.
  split; [done|]. split; [done|]. split; [done|].
  split; [rewrite length_take; lia|]. split.
  { intros Hrest. rewrite length_take. destruct (decide (length sel <= 100)%nat); [|lia].
    by rewrite drop_ge in Hrest. }
  rewrite take_drop. split; [done|]. split; [apply selected_newest_first|].
  intros H150. rewrite <- Hsel in H150.
  split; [rewrite length_take; lia|].
  intros clock i e2 Hi Hsame.
  destruct (run_receive_all i clock (take 100 sel) s1) as (s2 & Hrun2 & Hj2 & Hr2 & Hl2 & Hw2 & Ht2);
    [done | by rewrite Hw1 |].
  set (sel2 := InMemoryPostRepo.selected (order e2) (repo s2) (due_filter (now e2))).
  assert (sel2 ≡ₚ drop 100 sel) as Hsel2.
  { unfold sel2. rewrite selected_Permutation, Hr2, Hr1.
    apply (matching_after_publish_all _ _ _ _ _ (now e)); [done| |done].
    by rewrite take_drop. }
  assert (length sel2 = 50%nat) as Hlen2.
  { rewrite Hsel2, length_drop. lia. }
  set (s2' := mkState (repo s2) (cancelled s2) false (jobs s2) (closed s2) (workers s2)
                (next_pc (take 100 sel2)) (log s2)).
  destruct (run_send_all (take 100 sel2) s2') as (s3 & Hrun3 & Hj3 & _).
  { done. }
  { unfold s2', SchedulerBufferSize. cbn [jobs]. rewrite Hj2, length_take. cbn [length]. lia. }
  exists (take 100 sel2), s2, s3.
  split; [done|]. split; [done|]. split; [by rewrite Hr2, Hr1|]. split.
  { cbn [run]. unfold step at 1. cbn [run]. unfold step at 1. cbn [loop ticker_C repo].
    rewrite Hl2, Hl1. rewrite fetch_Ok. exact Hrun3. }
  simpl in Hj3. rewrite Hj2 in Hj3. simpl in Hj3.
  split; [done|]. rewrite take_ge by lia. by split.
Qed.

Lemma page_of_a_tick_witness :
  exists page, fetch (env_at 2000) (backlog 150) = Ok page /\ length page = 100%nat.
Proof.
  destruct (page_of_a_tick (state_backlog 150) (env_at 2000))
    as (page & rest & s1 & Hfetch & _ & _ & _ & _ & _ & _ & _ & _ & H150).
  - compute_done.
  - reflexivity.
  - reflexivity.
  - reflexivity.
  - exists page. split; [exact Hfetch|]. apply H150. vm_compute. reflexivity.
Defined.

End PageRuns.

(** The page of a tick over the database: at most 100 due rows, the ones
    created last. *)
Lemma db_page_of_a_tick (e : env) (r : PostRepo.t) :
  fault e = None ->
  exists page rest,
    Scheduler.fetch_with PostRepo.GetPosts e r = Ok page /\
    (length page <= 100)%nat /\
    (rest <> [] -> length page = 100%nat) /\
    page ++ rest ≡ₚ due_rows (now e) r /\
    newest_first (page ++ rest).
Proof.
  intros He.
  set (sel := PostRepo.selected (order e) r (Scheduler.due_filter (now e))).
  exists (take 100 sel), (drop 100 sel).
  split; [by apply db_fetch_Ok|]. split; [rewrite length_take; lia|]. split.
  { intros Hrest. rewrite length_take. destruct (decide (length sel <= 100)%nat); [|lia].
    by rewrite drop_ge in Hrest. }
  rewrite take_drop. split; [apply db_selected_Permutation | apply sort_Slice_newest_first].
Qed.

(** * Further properties of the repositories and services *)

(** ** Ids and round trips of the in-memory post repository *)

Section PostIds.
Import InMemoryPostRepo.
Implicit Types (r : InMemoryPostRepo.t) (post : Post).

Lemma wrap_small (z : Z) : int_range z -> wrap z = z.
Proof. unfold int_range, wrap. intros Hz. rewrite Z.mod_small; lia. Qed.

(** [Create] gives the post an id no stored post has, stores it under that id
    so that [GetPost] returns it, and leaves every other post as it was; the
    bound on the ids in use carries over. *)
Theorem post_create_fresh (e : env) r post :
  ids_bounded r ->
  seq r < 2 ^ 63 - 1 ->
  exists r' post',
    Create e r post = (r', post', None) /\
    post' = set_UpdatedAt (now e) (set_CreatedAt (now e) (set_ID (seq r + 1) post)) /\
    posts r !! ID post' = None /\
    GetPost r' (ID post') None = Ok post' /\
    (forall id filter, id <> ID post' -> GetPost r' id filter = GetPost r id filter) /\
    ids_bounded r' /\
    (well_keyed r -> well_keyed r').
Proof.
  intros [Hseq Hids] Hmax. unfold Create.
  rewrite wrap_small by (unfold int_range; lia).
  eexists _, _. split; [reflexivity|]. split; [reflexivity|]. simpl.
  assert (posts r !! (seq r + 1) = None) as Hfresh.
  { destruct (posts r !! (seq r + 1)) eqn:E; [|done].
    apply Hids in E. lia. }
  split; [done|]. split.
  { unfold GetPost. simpl. by rewrite lookup_insert_eq. }
  split.
  { intros id filter Hne. unfold GetPost. simpl. by rewrite lookup_insert_ne. }
  split.
  - split; simpl; [lia|]. intros id p Hp.
    destruct (decide (seq r + 1 = id)) as [<-|Hne]; [lia|].
    rewrite lookup_insert_ne in Hp by done. apply Hids in Hp. lia.
  - intros Hwk. simpl. by apply map_Forall_insert_2.
Qed.

Lemma post_create_fresh_witness :
  exists r' post',
    Create (env_at 3) repo_two (mkPost 0 "third" "text" 8 true None 0 0) = (r', post', None) /\
    post' = mkPost 3 "third" "text" 8 true None 3 3 /\
    GetPost r' 3 None = Ok post'.
Proof.
  destruct (post_create_fresh (env_at 3) repo_two (mkPost 0 "third" "text" 8 true None 0 0))
    as (r' & post' & Hc & Hp & _ & Hget & _).
  - split; [by vm_compute | compute_done].
  - by vm_compute.
  - exists r', post'. split; [exact Hc|]. subst post'. split; [reflexivity | exact Hget].
Defined.

End PostIds.

Section StoreInvariant.
Import Scheduler.
Implicit Types (r : InMemoryPostRepo.t) (s : state InMemoryPostRepo.t).

Lemma handle_store_change (rq : request) r : store_change r (handle rq r).
Proof.
  destruct rq as [now_ e userID req|now_ e1 e2 id userID req|e1 e2 id userID].
  - right. left. unfold handle, PostService.Create. simpl.
    destruct (match cr_PublishAt req with Some _ => _ | None => _ end); simpl;
      (eexists (mkPost (wrap (InMemoryPostRepo.seq r + 1)) _ _ _ _ _ _ _);
       split; reflexivity).
  - unfold handle.
    destruct (PostService.Update now_ e1 e2 r id userID req) as [r' res] eqn:E.
    simpl. revert E. unfold PostService.Update. simpl. unfold InMemoryPostRepo.GetPost.
    destruct (InMemoryPostRepo.posts r !! id) as [old|] eqn:Hold;
      [|intros [= <- _]; by left].
    simpl. destruct (PostService.checkPostOwner old userID); [intros [= <- _]; by left|].
    destruct (match ur_Title req with Some _ => _ | None => _ end) as [post1 u1].
    destruct (match ur_Content req with Some _ => _ | None => _ end) as [post2 u2].
    destruct (match ur_PublishAt req with Some _ => _ | None => _ end) as [post3 u3].
    destruct u3; simpl; [|intros [= <- _]; by left].
    unfold InMemoryPostRepo.Update.
    destruct (InMemoryPostRepo.posts r !! ID post3) as [existing|] eqn:Hex; simpl.
    + intros E. right. right. left.
      exists (set_UpdatedAt (now e2) (set_CreatedAt (CreatedAt existing) post3)).
      split; [simpl; eauto|]. by injection E.
    + intros [= <- _]. by left.
  - unfold handle, PostService.Delete. simpl. unfold InMemoryPostRepo.GetPost.
    destruct (InMemoryPostRepo.posts r !! id) as [old|] eqn:Hold; [|by left]. simpl.
    destruct (PostService.checkPostOwner old userID); [by left|].
    unfold InMemoryPostRepo.Delete. rewrite Hold. simpl. right. right. right. by exists id.
Qed.

Lemma publish_store_change (e : env) (w : nat) (job : Post) r :
  store_change r (publish e w job r).1.
Proof.
  destruct (InMemoryPostRepo.posts r !! ID job) as [old|] eqn:Hold.
  - rewrite (publish_stored _ _ _ old) by done. right. right. left. simpl.
    eexists (mkPost (ID job) _ _ _ _ _ _ _). split; [simpl; eauto | reflexivity].
  - rewrite publish_missing by done. by left.
Qed.

Lemma store_change_inv r r' (n : Z) :
  store_change r r' ->
  n < 2 ^ 63 - 1 ->
  well_keyed r /\ ids_bounded r /\ InMemoryPostRepo.seq r <= n ->
  well_keyed r' /\ ids_bounded r' /\ InMemoryPostRepo.seq r' <= n + 1.
Proof.
  intros Hch Hn (Hwk & [Hseq Hids] & Hle).
  destruct Hch as [->|[(post & Hid & ->)|[(post & [old Hold] & ->)|(id & ->)]]]; simpl.
  - split; [done|]. split; [by split | lia].
  - rewrite wrap_small in * by (unfold int_range; lia).
    split; [by apply map_Forall_insert_2|]. split; [|lia]. split; simpl; [lia|].
    apply map_Forall_insert_2; [lia|]. intros k p Hp. apply Hids in Hp. lia.
  - split; [by apply map_Forall_insert_2|]. split; [|lia]. split; simpl; [lia|].
    apply map_Forall_insert_2; [|done]. by apply Hids in Hold.
  - split; [by apply map_Forall_delete|]. split; [|lia]. split; simpl; [lia|].
    by apply map_Forall_delete.
Qed.

Lemma step_store_change (l : label) s s' :
  step l s = Some s' -> store_change (repo s) (repo s').
Proof.
  intros Hstep.
  destruct l as [| |rq| | |e| | | |i|i e|i]; simpl in Hstep;
    try (repeat case_match; simplify_eq; simpl; by left).
  - injection Hstep as <-. simpl. apply handle_store_change.
  - destruct (workers s !! i) as [[|post|]|]; try done.
    pose proof (publish_store_change e (S i) post (repo s)) as Hp.
    destruct (publish e (S i) post (repo s)) as [r' ev]. by injection Hstep as <-.
Qed.

(** However the scheduler and the requests interleave, every post of a store
    that started empty sits under its own id, the ids in use are positive and
    at most the counter, and the counter is at most the number of steps taken. *)
Theorem store_well_keyed (tr : list label) s :
  run tr (init InMemoryPostRepo.NewInMemoryPostRepo) = Some s ->
  Z.of_nat (length tr) < 2 ^ 63 - 1 ->
  well_keyed (repo s) /\ ids_bounded (repo s) /\
  InMemoryPostRepo.seq (repo s) <= Z.of_nat (length tr).
Proof.
  assert (forall tr s0 s (n : Z),
            run tr s0 = Some s -> n + Z.of_nat (length tr) < 2 ^ 63 - 1 ->
            well_keyed (repo s0) /\ ids_bounded (repo s0) /\
              InMemoryPostRepo.seq (repo s0) <= n ->
            well_keyed (repo s) /\ ids_bounded (repo s) /\
              InMemoryPostRepo.seq (repo s) <= n + Z.of_nat (length tr)) as Hgen.
  { clear. induction tr as [|l tr IH]; intros s0 s n; simpl.
    - intros [= <-] _ Hinv. by rewrite Z.add_0_r.
    - destruct (step l s0) as [s1|] eqn:E; [|done]. intros Hrun Hn Hinv.
      apply step_store_change in E.
      apply (store_change_inv _ _ n E) in Hinv; [|lia].
      cbn [length] in Hn |- *. rewrite Nat2Z.inj_succ in Hn |- *.
      replace (n + Z.succ (Z.of_nat (length tr)))
        with ((n + 1) + Z.of_nat (length tr)) by lia.
      apply (IH s1); [done | lia | done]. }
  intros Hrun Hlen.
  apply (Hgen tr _ s 0 Hrun); [lia|]. simpl.
  split; [apply map_Forall_empty|]. split; [|done]. split; [done | apply map_Forall_empty].
Qed.

Lemma store_well_keyed_witness :
  well_keyed (InMemoryPostRepo.mk 1 {[ 1 := draft ]}) /\
  ids_bounded (InMemoryPostRepo.mk 1 {[ 1 := draft ]}) /\ 1 <= Z.of_nat 2.
Proof.
  refine (store_well_keyed
            [Handle (ReqCreate 1 (env_at 1) 7 (mkCreateReq "draft" "text" (Some 5))); Fire]
            (mkState (InMemoryPostRepo.mk 1 {[ 1 := draft ]}) false true [] false
               (replicate 5 WSelect) LSelect [Info_started]) _ _).
  - vm_compute. reflexivity.
  - by vm_compute.
Defined.

End StoreInvariant.

(** ** Pages and totals *)

Section Pages.
Import InMemoryPostRepo.
Implicit Types (r : InMemoryPostRepo.t) (filter : option PostFilter).

Lemma GetPosts_positive_limit cs r filter limit offset :
  0 <= offset -> 0 < limit -> offset + limit < 2 ^ 63 ->
  GetPosts cs r filter limit offset
  = Ok (take (Z.to_nat limit) (drop (Z.to_nat offset) (selected cs r filter))).
Proof.
  intros Ho Hl Hsum. unfold GetPosts.
  set (l := selected cs r filter). set (len := Z.of_nat (length l)).
  destruct (len <=? offset) eqn:E.
  - apply Z.leb_le in E. rewrite drop_ge by lia. by rewrite take_nil.
  - apply Z.leb_gt in E. rewrite wrap_small by (unfold int_range; lia).
    replace (limit <=? 0) with false by (symmetry; apply Z.leb_gt; lia). simpl.
    destruct (len <? offset + limit) eqn:E2.
    + apply Z.ltb_lt in E2.
      replace (len - offset <? 0) with false by (symmetry; apply Z.ltb_ge; lia).
      replace (offset <? 0) with false by (symmetry; apply Z.ltb_ge; lia).
      rewrite andb_false_r. f_equal.
      rewrite !take_ge; [done | rewrite length_drop; lia | rewrite length_drop; lia].
    + apply Z.ltb_ge in E2.
      replace (offset + limit - offset <? 0) with false by (symmetry; apply Z.ltb_ge; lia).
      replace (offset <? 0) with false by (symmetry; apply Z.ltb_ge; lia).
      rewrite andb_false_r. do 3 f_equal. lia.
Qed.

Lemma GetPosts_nonpositive_limit cs r filter limit offset :
  0 <= offset -> limit <= 0 ->
  GetPosts cs r filter limit offset
  = Ok (drop (Z.to_nat offset) (selected cs r filter)).
Proof.
  intros Ho Hl. unfold GetPosts.
  set (l := selected cs r filter). set (len := Z.of_nat (length l)).
  destruct (len <=? offset) eqn:E.
  - apply Z.leb_le in E. by rewrite drop_ge by lia.
  - apply Z.leb_gt in E.
    replace (limit <=? 0) with true by (symmetry; by apply Z.leb_le). simpl.
    replace (len - offset <? 0) with false by (symmetry; apply Z.ltb_ge; lia).
    replace (offset <? 0) with false by (symmetry; apply Z.ltb_ge; lia).
    rewrite andb_false_r. f_equal. apply take_ge. rewrite length_drop. lia.
Qed.

(** With a positive limit and a non-negative offset (their sum a Go [int]),
    [GetPosts] returns at most [limit] posts, and for one order of the map the
    page at [offset] followed by the page at [offset + limit] is the page of
    size [2 * limit] at [offset]: consecutive pages neither overlap nor skip a
    post. *)
Theorem GetPosts_consecutive_pages cs r filter limit offset :
  0 <= offset -> 0 < limit -> offset + 2 * limit < 2 ^ 63 ->
  exists page1 page2,
    GetPosts cs r filter limit offset = Ok page1 /\
    GetPosts cs r filter limit (offset + limit) = Ok page2 /\
    (length page1 <= Z.to_nat limit)%nat /\
    page1 ++ page2
    = take (Z.to_nat (2 * limit)) (drop (Z.to_nat offset) (selected cs r filter)) /\
    GetPosts cs r filter (2 * limit) offset = Ok (page1 ++ page2).
Proof.
  intros Ho Hl Hsum. eexists _, _.
  rewrite !GetPosts_positive_limit by lia.
  split; [done|]. split; [done|]. split; [rewrite length_take; lia|].
  assert (take (Z.to_nat limit) (drop (Z.to_nat offset) (selected cs r filter)) ++
          take (Z.to_nat limit) (drop (Z.to_nat (offset + limit)) (selected cs r filter))
          = take (Z.to_nat (2 * limit)) (drop (Z.to_nat offset) (selected cs r filter)))
    as Heq.
  { replace (Z.to_nat (offset + limit)) with (Z.to_nat offset + Z.to_nat limit)%nat by lia.
    rewrite <- drop_drop, take_take_drop. f_equal. lia. }
  by rewrite Heq.
Qed.

Lemma GetPosts_consecutive_pages_witness :
  exists page1 page2,
    GetPosts [] repo_two None 1 0 = Ok page1 /\
    GetPosts [] repo_two None 1 1 = Ok page2 /\
    page1 ++ page2 = [news; draft].
Proof.
  destruct (GetPosts_consecutive_pages [] repo_two None 1 0)
    as (page1 & page2 & H1 & H2 & _ & H3 & _); [lia | lia | by vm_compute |].
  exists page1, page2. split; [exact H1|]. split; [exact H2|]. exact H3.
Defined.

(** The list and the total of the public listing fit together: the total is
    the number of published stored posts, whatever page was asked for; the
    page is never longer than the total; and with no limit and offset 0 the
    page holds exactly the published posts. *)
Theorem GetAll_page_and_total (e1 e2 : env) r (pagination : PaginationParams)
    (res : list Post) (total : Z) :
  PostService.GetAll e1 e2 r pagination = Ok (res, total) ->
  total = Z.of_nat (length (matching r public_filter)) /\
  Z.of_nat (length res) <= total /\
  (forall post, post ∈ res -> post ∈ matching r public_filter) /\
  (forall limit, Limit pagination = Some limit -> limit <= 0 ->
                 Offset pagination = Some 0 -> res ≡ₚ matching r public_filter).
Proof.
  unfold PostService.GetAll.
  destruct (Limit pagination) as [limit|]; [|done].
  destruct (Offset pagination) as [offset|]; [|done]. simpl.
  change (Some (mkFilter None (Some true) None)) with public_filter.
  destruct (GetPosts (order e1) r public_filter limit offset) as [posts| |] eqn:E; try done.
  unfold GetPostsCount. intros [= <- <-].
  assert (length (List.filter (kept public_filter) (range_posts (order e2) (InMemoryPostRepo.posts r)))
          = length (matching r public_filter)) as Hcount.
  { unfold matching, range_posts, stored.
    by rewrite (filter_Permutation' _ _ _ (shuffle_Permutation (order e2) _)). }
  rewrite Hcount. split; [done|].
  destruct (GetPosts_Ok _ _ _ _ _ _ E) as (n & m & ->).
  split.
  { rewrite length_take, length_drop, <- (length_selected (order e1)). lia. }
  split.
  { intros post Hin. apply subseteq_take, subseteq_drop in Hin.
    by rewrite selected_Permutation in Hin. }
  intros limit' [= <-] Hlim [= ->].
  rewrite GetPosts_nonpositive_limit in E by (done || lia).
  injection E as E. rewrite <- E. simpl. apply selected_Permutation.
Qed.

Lemma GetAll_page_and_total_witness :
  1 = Z.of_nat (length (matching repo_two public_filter)) /\
  Z.of_nat (length [news]) <= 1.
Proof.
  destruct (GetAll_page_and_total (env_at 3) (env_at 3) repo_two
              (mkPagination (Some 10) (Some 0)) [news] 1) as (Ht & Hle & _).
  - vm_compute. reflexivity.
  - split; [exact Ht | exact Hle].
Defined.

End Pages.

(** ** The in-memory repository against the database repository *)

Section MockAgainstDatabase.
Implicit Types (r : InMemoryPostRepo.t) (filter : option PostFilter).

Lemma kept_applyFilters filter (post : Post) :
  (forall f, filter = Some f -> f_DueBefore f = None) \/ PublishAt post <> None ->
  kept filter post = PostRepo.applyFilters filter post.
Proof.
  intros Hnull. unfold kept, filtered_out, PostRepo.applyFilters.
  destruct filter as [f|]; [|done].
  rewrite !negb_orb. f_equal; [f_equal|].
  - destruct (f_AuthorID f); [apply negb_involutive | done].
  - destruct (f_Published f); [apply negb_involutive | done].
  - destruct (f_DueBefore f) as [d|] eqn:Hd; [|done].
    destruct (PublishAt post) as [at_|].
    + unfold Time.After. symmetry. apply Z.leb_antisym.
    + destruct Hnull as [Hn|Hn]; [|done]. specialize (Hn f eq_refl). congruence.
Qed.

Lemma selected_as_table cs r filter :
  no_null_due filter r ->
  InMemoryPostRepo.selected cs r filter = PostRepo.selected cs (as_table r) filter.
Proof.
  intros Hnull. unfold InMemoryPostRepo.selected, PostRepo.selected,
    InMemoryPostRepo.range_posts. simpl. f_equal.
  apply filter_ext_in'. intros post Hin. apply kept_applyFilters.
  destruct Hnull as [Hn|Hn]; [by left|]. right.
  rewrite shuffle_Permutation in Hin. apply elem_of_stored in Hin as [id Hid].
  by apply (Hn id).
Qed.

(** Where the null [publish_at] plays no part (the filter has no
    [DueBefore], or every stored post has a [publishAt]) the in-memory
    repository answers like the database repository over the same rows:
    [GetPost] and [GetPostsCount] always, and [GetPosts] for a non-negative
    offset whose sum with the limit is a Go [int]. *)
Theorem mock_agrees_with_database (e : env) r filter (limit offset : Z) :
  fault e = None ->
  no_null_due filter r ->
  (forall id, InMemoryPostRepo.GetPost r id filter = PostRepo.GetPost e (as_table r) id filter) /\
  InMemoryPostRepo.GetPostsCount (order e) r filter
  = PostRepo.GetPostsCount e (as_table r) filter /\
  (0 <= offset -> offset + limit < 2 ^ 63 ->
   InMemoryPostRepo.GetPosts (order e) r filter limit offset
   = PostRepo.GetPosts e (as_table r) filter limit offset).
Proof.
  intros He Hnull. split; [|split].
  - intros id. unfold InMemoryPostRepo.GetPost, PostRepo.GetPost. rewrite He. simpl.
    destruct (InMemoryPostRepo.posts r !! id) as [post|] eqn:Hid; [|done].
    rewrite <- kept_applyFilters.
    + unfold kept. by destruct (filtered_out filter post).
    + destruct Hnull as [Hn|Hn]; [by left|]. right. by apply (Hn id).
  - unfold InMemoryPostRepo.GetPostsCount, PostRepo.GetPostsCount. rewrite He. simpl.
    assert (List.filter (kept filter)
              (InMemoryPostRepo.range_posts (order e) (InMemoryPostRepo.posts r))
            ≡ₚ List.filter (PostRepo.applyFilters filter) (stored r)) as Hperm.
    { unfold InMemoryPostRepo.range_posts.
      rewrite (filter_Permutation' _ _ _ (shuffle_Permutation (order e) _)).
      erewrite filter_ext_in'; [done|]. intros post Hin. apply kept_applyFilters.
      destruct Hnull as [Hn|Hn]; [by left|]. right.
      apply elem_of_stored in Hin as [id Hid]. by apply (Hn id). }
    by rewrite Hperm.
  - intros Ho Hsum. unfold PostRepo.GetPosts. rewrite He.
    rewrite <- selected_as_table by done.
    set (sel := InMemoryPostRepo.selected (order e) r filter).
    assert ((if 0 <? offset then drop (Z.to_nat offset) sel else sel)
            = drop (Z.to_nat offset) sel) as ->.
    { destruct (0 <? offset) eqn:E; [done|]. apply Z.ltb_ge in E.
      by replace offset with 0 by lia. }
    destruct (0 <? limit) eqn:El.
    + apply Z.ltb_lt in El. by apply GetPosts_positive_limit.
    + apply Z.ltb_ge in El. by apply GetPosts_nonpositive_limit.
Qed.

Lemma mock_agrees_with_database_witness :
  InMemoryPostRepo.GetPosts [] repo_draft (Scheduler.due_filter 10) 100 0
  = PostRepo.GetPosts (env_at 10) (as_table repo_draft) (Scheduler.due_filter 10) 100 0.
Proof.
  destruct (mock_agrees_with_database (env_at 10) repo_draft (Scheduler.due_filter 10) 100 0)
    as (_ & _ & Hget).
  - reflexivity.
  - right. compute_done.
  - apply Hget; [lia | by vm_compute].
Defined.

End MockAgainstDatabase.

(** ** Who may change a post, and what an update changes *)

Section Ownership.
Import InMemoryPostRepo.
Implicit Types (r : InMemoryPostRepo.t) (post old : Post).

(** [PostService.Delete]: an id that is not stored gives [ErrPostNotFound] and a
    user who is not the author gives [ErrForbidden], both without touching the
    store; the author removes the post and nothing else, after which no read
    finds it. *)
Theorem delete_by_author_only (e1 e2 : env) r (id userID : Z) :
  (posts r !! id = None ->
   PostService.Delete e1 e2 r id userID = (r, Err service_ErrPostNotFound)) /\
  (forall post, posts r !! id = Some post -> AuthorID post <> userID ->
     PostService.Delete e1 e2 r id userID = (r, Err service_ErrForbidden)) /\
  (forall post, posts r !! id = Some post -> AuthorID post = userID ->
     exists r',
       PostService.Delete e1 e2 r id userID = (r', Ok tt) /\
       posts r' = delete id (posts r) /\ seq r' = seq r /\
       (forall e filter, GetPost r' id filter = Err repository_ErrPostNotFound /\
                         PostService.GetByID e r' id = Err service_ErrPostNotFound) /\
       (forall id' filter, id' <> id -> GetPost r' id' filter = GetPost r id' filter)).
Proof.
  unfold PostService.Delete. simpl. unfold GetPost at 1 2 3. repeat split.
  - by intros ->.
  - intros post -> Hne. simpl. unfold PostService.checkPostOwner.
    by destruct (Z.eqb_spec (AuthorID post) userID).
  - intros post Hid Ha. rewrite Hid. simpl. unfold PostService.checkPostOwner.
    rewrite Ha, Z.eqb_refl. simpl. unfold Delete. rewrite Hid. simpl.
    eexists. split; [reflexivity|]. simpl. split; [done|]. split; [done|]. split.
    + intros e filter. unfold PostService.GetByID. simpl. unfold GetPost. simpl.
      by rewrite lookup_delete_eq.
    + intros id' filter Hne. unfold GetPost. simpl. by rewrite lookup_delete_ne.
Qed.

Lemma delete_by_author_only_witness :
  PostService.Delete (env_at 3) (env_at 3) repo_two 1 8 = (repo_two, Err service_ErrForbidden).
Proof.
  apply (proj1 (proj2 (delete_by_author_only (env_at 3) (env_at 3) repo_two 1 8)) draft).
  - reflexivity.
  - by vm_compute.
Defined.

(** [PostService.Update] on a post stored under its own id.  A user who is not
    the author gets [ErrForbidden] and the store stays as it is.  For the
    author, a request that changes nothing returns the stored post without a
    write (the update timestamp stays); any other request stores and returns
    [updated_post]: only the fields present in the request change, with the
    published flag following a [publishAt] of the request, and id, author and
    creation time are kept. *)
Theorem update_by_author (now_ : Time.t) (e1 e2 : env) r (id userID : Z) old
    (req : PostUpdateRequest) :
  posts r !! id = Some old ->
  ID old = id ->
  (AuthorID old <> userID ->
   PostService.Update now_ e1 e2 r id userID req = (r, Err service_ErrForbidden)) /\
  (AuthorID old = userID -> changes_nothing req old ->
   PostService.Update now_ e1 e2 r id userID req = (r, Ok old)) /\
  (AuthorID old = userID -> ~ changes_nothing req old ->
   PostService.Update now_ e1 e2 r id userID req
   = (mk (seq r) (<[id := updated_post now_ (now e2) req old]> (posts r)),
      Ok (updated_post now_ (now e2) req old))).
Proof.
  intros Hold Hid. unfold PostService.Update. simpl. unfold GetPost. rewrite Hold. simpl.
  unfold PostService.checkPostOwner. split; [|split].
  - intros Hne. by destruct (Z.eqb_spec (AuthorID old) userID).
  - intros -> (Ht & Hc & Hp). rewrite Z.eqb_refl. simpl. rewrite Hp.
    destruct (ur_Title req) as [title|]; simpl in Ht.
    + rewrite Ht, String.eqb_refl. simpl.
      destruct (ur_Content req) as [content|]; simpl in Hc; [|done].
      by rewrite Hc, String.eqb_refl.
    + destruct (ur_Content req) as [content|]; simpl in Hc; [|done].
      by rewrite Hc, String.eqb_refl.
  - intros -> Hchg. rewrite Z.eqb_refl. simpl.
    set (p1 := match ur_Title req with
               | Some title =>
                   if negb (String.eqb title (Title old))
                   then (set_Title title old, true) else (old, false)
               | None => (old, false) end).
    assert (p1.1 = set_Title (default (Title old) (ur_Title req)) old /\
            (p1.2 = false -> default (Title old) (ur_Title req) = Title old)) as [Hp1 Hu1].
    { unfold p1. destruct (ur_Title req) as [title|]; simpl; [|by destruct old].
      destruct (String.eqb_spec title (Title old)) as [Heq|Hne]; simpl;
        [rewrite Heq; by destruct old | done]. }
    destruct p1 as [post1 u1]. simpl in Hp1, Hu1. subst post1.
    set (p2 := match ur_Content req with
               | Some content => _
               | None => _ end).
    assert (p2.1 = set_Content (default (Content old) (ur_Content req))
                     (set_Title (default (Title old) (ur_Title req)) old) /\
            (p2.2 = false -> u1 = false /\
               default (Content old) (ur_Content req) = Content old)) as [Hp2 Hu2].
    { unfold p2. destruct (ur_Content req) as [content|]; simpl; [|by destruct old].
      destruct (String.eqb_spec content (Content old)) as [Heq|Hne]; simpl;
        [rewrite Heq; by destruct old | done]. }
    destruct p2 as [post2 u2]. simpl in Hp2, Hu2. subst post2.
    destruct (ur_PublishAt req) as [at_|] eqn:Hat; simpl.
    + unfold Update, updated_post. rewrite Hat.
      destruct (Time.After at_ now_); simpl; rewrite Hid, Hold; simpl;
        cbv [set_UpdatedAt set_CreatedAt set_Published set_PublishAt set_Content set_Title];
        simpl; by rewrite ?Hid.
    + destruct u2; simpl.
      * unfold Update, updated_post. rewrite Hat. simpl. rewrite Hid, Hold. simpl.
        cbv [set_UpdatedAt set_CreatedAt set_Published set_PublishAt set_Content set_Title].
        simpl. by rewrite ?Hid.
      * exfalso. apply Hchg. destruct Hu2 as [-> Hc]; [done|].
        split; [by apply Hu1|]. by split.
Qed.

Lemma update_by_author_witness :
  PostService.Update 10 (env_at 10) (env_at 11) repo_draft 1 7 retitle
  = (mk 1 (<[1 := mkPost 1 "final" "text" 7 false (Some 5) 1 11]> {[ 1 := draft ]}),
     Ok (mkPost 1 "final" "text" 7 false (Some 5) 1 11)).
Proof.
  refine (proj2 (proj2 (update_by_author 10 (env_at 10) (env_at 11) repo_draft 1 7 draft
                          retitle _ _)) _ _).
  - reflexivity.
  - reflexivity.
  - reflexivity.
  - intros (Ht & _). by vm_compute in Ht.
Defined.

End Ownership.

(** ** Reading posts back *)

Section Reads.
Import InMemoryPostRepo.
Implicit Types (r : InMemoryPostRepo.t) (post : Post).

Lemma kept_author_published (a : Z) (b : bool) post :
  kept (Some (mkFilter (Some a) (Some b) None)) post = true <->
  AuthorID post = a /\ Published post = b.
Proof.
  unfold kept, filtered_out. simpl. rewrite orb_false_r, negb_orb, andb_true_iff.
  rewrite !negb_involutive, Z.eqb_eq. split; intros [? Hb]; (split; [done|]).
  - by apply eqb_prop.
  - rewrite Hb. by destruct b.
Qed.

(** A post that [PostService.Create] returns can be read back at once: through
    [GetByID] by anyone if it was published on creation; through
    [GetDelayedPostByID] by its author, and not through [GetByID], if it was
    not.  It carries the title, content and [publishAt] of the request, the
    caller as author, the next id, and the time of the write as creation and
    update time. *)
Theorem create_then_read (now_ : Time.t) (e : env) r (userID : Z) (req : PostCreateRequest) :
  exists r' post,
    PostService.Create now_ e r userID req = (r', Ok post) /\
    post = mkPost (wrap (seq r + 1)) (cr_Title req) (cr_Content req) userID
             (Published post) (cr_PublishAt req) (now e) (now e) /\
    (Published post = true ->
     forall e', PostService.GetByID e' r' (ID post) = Ok post) /\
    (Published post = false ->
     forall e', PostService.GetByID e' r' (ID post) = Err service_ErrPostNotFound /\
                PostService.GetDelayedPostByID e' r' userID (ID post) = Ok post).
Proof.
  unfold PostService.Create. simpl.
  destruct (match cr_PublishAt req with Some _ => _ | None => _ end); simpl;
    eexists _, _; (split; [reflexivity|]); (split; [reflexivity|]); simpl;
    (split; [intros Hp | intros Hp]); try done; intros e';
    unfold PostService.GetByID, PostService.GetDelayedPostByID; simpl;
    unfold GetPost; simpl; rewrite lookup_insert_eq; unfold filtered_out; simpl;
    by rewrite ?Z.eqb_refl.
Qed.

(** A stored post with [published = false] is returned by
    [GetDelayedPostByID] to its author and to nobody else (the others get
    [ErrPostNotFound]); [GetDelayedPosts] lists only unpublished posts of the
    asking user; and [GetByAuthor] lists only published posts of the author
    asked for, so never this one. *)
Theorem delayed_posts_private r (id : Z) post :
  posts r !! id = Some post ->
  Published post = false ->
  (forall e, PostService.GetDelayedPostByID e r (AuthorID post) id = Ok post) /\
  (forall e userID, userID <> AuthorID post ->
     PostService.GetDelayedPostByID e r userID id = Err service_ErrPostNotFound) /\
  (forall e1 e2 userID pagination res total,
     PostService.GetDelayedPosts e1 e2 r userID pagination = Ok (res, total) ->
     Forall (fun q => AuthorID q = userID /\ Published q = false) res /\
     (userID <> AuthorID post -> post ∉ res)) /\
  (forall e1 e2 authorID pagination res total,
     PostService.GetByAuthor e1 e2 r authorID pagination = Ok (res, total) ->
     Forall (fun q => AuthorID q = authorID /\ Published q = true) res /\ (post ∉ res)).
Proof.
  intros Hid Hpub. split; [|split; [|split]].
  - intros e. unfold PostService.GetDelayedPostByID. simpl. unfold GetPost. rewrite Hid.
    unfold filtered_out. simpl. by rewrite Z.eqb_refl, Hpub.
  - intros e userID Hne. unfold PostService.GetDelayedPostByID. simpl. unfold GetPost.
    rewrite Hid. unfold filtered_out. simpl.
    by destruct (Z.eqb_spec (AuthorID post) userID).
  - intros e1 e2 userID pagination res total. unfold PostService.GetDelayedPosts.
    destruct (Limit pagination) as [limit|]; [|done].
    destruct (Offset pagination) as [offset|]; [|done]. simpl.
    destruct (GetPosts (order e1) r _ limit offset) as [posts| |] eqn:E; try done.
    intros [= <- <-].
    assert (Forall (fun q => AuthorID q = userID /\ Published q = false) posts) as Hall.
    { apply Forall_forall. intros q Hq. eapply GetPosts_elem_of in Hq; [|exact E].
      apply elem_of_selected in Hq as [_ Hq]. by apply kept_author_published. }
    split; [done|]. intros Hne Hin. rewrite Forall_forall in Hall.
    apply Hall in Hin as [? _]. congruence.
  - intros e1 e2 authorID pagination res total. unfold PostService.GetByAuthor.
    destruct (Limit pagination) as [limit|]; [|done].
    destruct (Offset pagination) as [offset|]; [|done]. simpl.
    destruct (GetPosts (order e1) r _ limit offset) as [posts| |] eqn:E; try done.
    intros [= <- <-].
    assert (Forall (fun q => AuthorID q = authorID /\ Published q = true) posts) as Hall.
    { apply Forall_forall. intros q Hq. eapply GetPosts_elem_of in Hq; [|exact E].
      apply elem_of_selected in Hq as [_ Hq]. by apply kept_author_published. }
    split; [done|]. intros Hin. rewrite Forall_forall in Hall.
    apply Hall in Hin as [_ ?]. congruence.
Qed.

Lemma delayed_posts_private_witness :
  (forall e, PostService.GetDelayedPostByID e repo_two 7 1 = Ok draft) /\
  (forall e userID, userID <> 7 ->
     PostService.GetDelayedPostByID e repo_two userID 1 = Err service_ErrPostNotFound).
Proof.
  destruct (delayed_posts_private repo_two 1 draft) as (Hown & Hother & _).
  - reflexivity.
  - reflexivity.
  - split; [exact Hown | exact Hother].
Defined.

End Reads.

(** ** Jobs in flight *)

Section InFlight.
Import Scheduler.
Context {R : Type} `{PostRepository R}.
Implicit Types (s : state R) (ws : list worker).


End InFlight.


(** ** Posts that are not yet due *)

Section NotDue.
Import Scheduler.
Implicit Types (s : state InMemoryPostRepo.t) (p : Post).

Lemma step_untouched (l : label) s s' (id : Z) p (at_ : Time.t) :
  PublishAt p = Some at_ ->
  scheduler_before at_ [l] = true ->
  untouched id p s -> step l s = Some s' -> untouched id p s'.
Proof.
  intros Hat Hl (Hwk & Hp & Hfl) Hstep.
  pose proof (step_flight_change l s s' Hstep) as Hfc.
  assert (well_keyed (repo s') /\ InMemoryPostRepo.posts (repo s') !! id = Some p)
    as [Hwk' Hp'].
  { destruct l as [| |rq| | |e| | | |i|i e|i]; simpl in Hstep, Hl; try done;
      try (repeat case_match; simplify_eq; simpl; done).
    destruct (workers s !! i) as [[|job|]|] eqn:Ew; try done.
    assert (ID job <> id) as Hne.
    { rewrite Forall_forall in Hfl. apply Hfl. unfold in_flight.
      rewrite !elem_of_app. right. right. by eapply elem_of_held. }
    pose proof (publish_well_keyed e (S i) job (repo s) Hwk) as Hwk1.
    assert (InMemoryPostRepo.posts (publish e (S i) job (repo s)).1 !! id = Some p) as Hp1.
    { destruct (InMemoryPostRepo.posts (repo s) !! ID job) as [old|] eqn:Hold.
      - rewrite (publish_stored _ _ _ old) by done. simpl. by rewrite lookup_insert_ne.
      - by rewrite publish_missing. }
    destruct (publish e (S i) job (repo s)) as [r' ev]. by injection Hstep as <-. }
  split; [done|]. split; [done|].
  destruct l as [| |rq| | |e| | | |i|i e|i]; unfold flight_change in Hfc; simpl in Hl;
    try done; try (by rewrite Hfc).
  - apply andb_true_iff in Hl as [Hl _]. apply Z.ltb_lt in Hl.
    destruct (fetch e (repo s)) as [page| |] eqn:Hfetch; try (by rewrite Hfc).
    rewrite Hfc. apply Forall_app. split; [done|]. apply Forall_forall.
    intros job Hin Heq.
    destruct (fetch_due_or_unscheduled _ _ _ Hfetch _ Hin) as ([k Hk] & _ & Hdue).
    assert (k = id) as -> by (by rewrite <- (Hwk k job Hk)).
    assert (job = p) as -> by congruence.
    destruct Hdue as [Hnone|[_ (a & Ha & Hle)]]; [congruence|].
    assert (a = at_) by congruence. lia.
  - destruct Hfc as [_ Hfc]. rewrite Hfc in Hfl. by apply Forall_app in Hfl as [? _].
  - destruct Hfc as (job & _ & Hfc). rewrite Hfc in Hfl. by apply Forall_cons in Hfl as [_ ?].
Qed.

Lemma run_untouched (tr : list label) s s' (id : Z) p (at_ : Time.t) :
  PublishAt p = Some at_ ->
  scheduler_before at_ tr = true ->
  untouched id p s -> run tr s = Some s' -> untouched id p s'.
Proof.
  intros Hat. revert s. induction tr as [|l tr IH]; intros s Hb Hu; simpl.
  - by intros [= <-].
  - destruct (step l s) as [s1|] eqn:E; [|done]. intros Hrun.
    simpl in Hb. apply andb_true_iff in Hb as [Hl Hb].
    eapply IH; [done| |exact Hrun]. eapply step_untouched; [done| |done|done].
    simpl. by rewrite Hl.
Qed.

(** A stored post with a [publishAt] is left as it is, unpublished if it was,
    by every run of the scheduler whose ticks are all taken before that time:
    no fetch selects it, so it is never a job and no worker writes it. *)
Theorem not_due_untouched (tr : list label) (r : InMemoryPostRepo.t) s' (id : Z) p
    (at_ : Time.t) :
  well_keyed r ->
  InMemoryPostRepo.posts r !! id = Some p ->
  PublishAt p = Some at_ ->
  scheduler_before at_ tr = true ->
  run tr (init r) = Some s' ->
  InMemoryPostRepo.posts (repo s') !! id = Some p /\
  (forall job, job ∈ in_flight s' -> ID job <> id).
Proof.
  intros Hwk Hp Hat Hb Hrun.
  assert (untouched id p (init r)) as Hu.
  { split; [done|]. split; [done|]. by apply Forall_nil. }
  destruct (run_untouched tr (init r) s' id p at_ Hat Hb Hu Hrun) as (_ & Hp' & Hfl).
  split; [done|]. by apply Forall_forall.
Qed.

End NotDue.

Lemma not_due_untouched_witness :
  exists s',
    Scheduler.run
      [Scheduler.Fire; Scheduler.LoopTick (env_at 1001); Scheduler.LoopSend;
       Scheduler.LoopLen; Scheduler.WorkerRecv 0; Scheduler.WorkerPublish 0 (env_at 1001)]
      (Scheduler.init (backlog 2)) = Some s' /\
    InMemoryPostRepo.posts (Scheduler.repo s') !! 2 = Some (backlog_post 2) /\
    (Published <$> InMemoryPostRepo.posts (Scheduler.repo s') !! 1) = Some true.
Proof.
  eexists. split; [vm_compute; reflexivity|]. split; [|vm_compute; reflexivity].
  refine (proj1 (not_due_untouched
                   [Scheduler.Fire; Scheduler.LoopTick (env_at 1001); Scheduler.LoopSend;
                    Scheduler.LoopLen; Scheduler.WorkerRecv 0;
                    Scheduler.WorkerPublish 0 (env_at 1001)]
                   (backlog 2) _ 2 (backlog_post 2) 1002 _ _ _ _ _)).
  - compute_done.
  - vm_compute. reflexivity.
  - reflexivity.
  - reflexivity.
  - vm_compute. reflexivity.
Defined.

(** ** A tick publishes what is due *)

Section Eligible.
Import Scheduler.
Implicit Types (s : state InMemoryPostRepo.t) (r : InMemoryPostRepo.t) (page : list Post).

Lemma publish_all_stored clock w page r :
  NoDup (ID <$> page) ->
  (forall job, job ∈ page -> InMemoryPostRepo.posts r !! ID job = Some job) ->
  forall job, job ∈ page ->
    InMemoryPostRepo.posts (publish_all clock w page r) !! ID job
    = Some (published_at (now (clock job)) job).
Proof.
  revert r. induction page as [|job0 page IH]; intros r Hnd Hst job Hin.
  - by apply elem_of_nil in Hin.
  - rewrite fmap_cons in Hnd. apply NoDup_cons in Hnd as [Hfresh Hnd].
    assert (publish_all clock w (job0 :: page) r
            = publish_all clock w page (publish (clock job0) w job0 r).1) as -> by done.
    rewrite (publish_stored _ _ _ job0) by (apply Hst; by left). cbn [fst].
    set (r1 := InMemoryPostRepo.mk _ _).
    assert (forall job', job' ∈ page ->
              InMemoryPostRepo.posts r1 !! ID job' = Some job') as Hst1.
    { intros job' Hin'. unfold r1. simpl. rewrite lookup_insert_ne.
      - apply Hst. by right.
      - intros Heq. apply Hfresh. rewrite Heq. apply list_elem_of_fmap. eauto. }
    apply elem_of_cons in Hin as [->|Hin]; [|by apply IH].
    rewrite (proj1 (publish_all_lookup clock w page r1
                      (fun job' Hin' => mk_is_Some _ _ (Hst1 job' Hin')) (ID job0)) Hfresh).
    unfold r1. simpl. by rewrite lookup_insert_eq.
Qed.

(** With at most 100 posts selected by the due filter, an empty queue and a
    worker at its select, a tick and the worker's receives publish every one of
    them: each post that was stored unpublished with [publishAt <= now] is then
    stored as published, changed in its published flag and update timestamp
    only; every stored post the filter does not select is as it was, and the
    queue is empty again. *)
Theorem tick_publishes_due s (e : env) (clock : Post -> env) (i : nat) :
  well_keyed (repo s) ->
  loop s = LSelect -> ticker_C s = true -> jobs s = [] ->
  workers s !! i = Some WSelect ->
  (length (matching (repo s) (due_filter (now e))) <= 100)%nat ->
  exists page s',
    fetch e (repo s) = Ok page /\
    run (LoopTick e :: send_all page ++ receive_all i clock page) s = Some s' /\
    jobs s' = [] /\ loop s' = LSelect /\ workers s' = workers s /\
    (forall id p, InMemoryPostRepo.posts (repo s) !! id = Some p ->
       (due (now e) p -> kept (due_filter (now e)) p = true) /\
       InMemoryPostRepo.posts (repo s') !! id
       = Some (if kept (due_filter (now e)) p then published_at (now (clock p)) p else p)) /\
    (forall id, InMemoryPostRepo.posts (repo s) !! id = None ->
       InMemoryPostRepo.posts (repo s') !! id = None).
Proof.
  intros Hwk Hl Ht Hq Hi Hlen.
  set (sel := InMemoryPostRepo.selected (order e) (repo s) (due_filter (now e))).
  assert (sel ≡ₚ matching (repo s) (due_filter (now e))) as Hsel
    by apply selected_Permutation.
  assert (fetch e (repo s) = Ok sel) as Hfetch.
  { rewrite fetch_Ok. fold sel. rewrite take_ge; [done|]. rewrite Hsel. simpl. lia. }
  set (s0 := mkState (repo s) (cancelled s) false (jobs s) (closed s) (workers s)
               (next_pc sel) (log s)).
  destruct (run_send_all sel s0) as (s1 & Hrun1 & Hj1 & Hl1 & Hr1 & Hw1 & Ht1).
  { done. }
  { unfold s0, SchedulerBufferSize. cbn [jobs]. rewrite Hq, Hsel. cbn [length]. lia. }
  simpl in Hj1, Hr1, Hw1. rewrite Hq in Hj1. simpl in Hj1.
  destruct (run_receive_all i clock sel s1) as (s2 & Hrun2 & Hj2 & Hr2 & Hl2 & Hw2 & Ht2);
    [done | by rewrite Hw1 |].
  exists sel, s2. split; [done|]. split.
  { cbn [run]. unfold step at 1. rewrite Hl, Ht. cbn [repo]. rewrite Hfetch.
    change (run (send_all sel ++ receive_all i clock sel) s0 = Some s2).
    by rewrite run_app, Hrun1. }
  split; [done|]. split; [by rewrite Hl2|]. split; [by rewrite Hw2|].
  rewrite Hr2, Hr1.
  assert (forall job, job ∈ sel ->
            InMemoryPostRepo.posts (repo s) !! ID job = Some job) as Hst.
  { intros job [[k Hk] _]%elem_of_selected. by rewrite (Hwk k job Hk). }
  assert (NoDup (ID <$> sel)) as Hnd.
  { apply NoDup_fmap_2_strong.
    - intros x y Hx Hy Hxy. apply Hst in Hx, Hy. congruence.
    - rewrite Hsel. apply filter_NoDup', stored_NoDup, Hwk. }
  pose proof (publish_all_lookup clock (S i) sel (repo s)
                (fun job Hin => mk_is_Some _ _ (Hst job Hin))) as Hlook.
  split.
  - intros id p Hp. split.
    + intros [Hpub (a & Ha & Hle)]. unfold kept, filtered_out. simpl.
      rewrite Hpub, Ha. simpl. unfold Time.After. apply negb_true_iff, Z.ltb_ge. lia.
    + destruct (kept (due_filter (now e)) p) eqn:Hk.
      * assert (p ∈ sel) as Hin by (apply elem_of_selected; eauto).
        rewrite <- (Hwk id p Hp). by apply publish_all_stored.
      * rewrite (proj1 (Hlook id)); [done|].
        intros (q & Hid & Hin)%list_elem_of_fmap.
        pose proof (Hst q Hin) as Hq'. rewrite <- Hid, Hp in Hq'. injection Hq' as <-.
        apply elem_of_selected in Hin as [_ Hk']. congruence.
  - intros id Hp. rewrite (proj1 (Hlook id)); [done|].
    intros (q & Hid & Hin)%list_elem_of_fmap.
    pose proof (Hst q Hin) as Hq'. rewrite <- Hid, Hp in Hq'. done.
Qed.

End Eligible.

Lemma tick_publishes_due_witness :
  exists page s',
    Scheduler.fetch (env_at 1001) (backlog 2) = Ok page /\
    Scheduler.run (Scheduler.LoopTick (env_at 1001)
                   :: send_all page ++ receive_all 0 (fun _ => env_at 1002) page)
      (state_backlog 2) = Some s' /\
    InMemoryPostRepo.posts (Scheduler.repo s') !! 1
    = Some (published_at 1002 (backlog_post 1)) /\
    InMemoryPostRepo.posts (Scheduler.repo s') !! 2 = Some (backlog_post 2).
Proof.
  destruct (tick_publishes_due (state_backlog 2) (env_at 1001) (fun _ => env_at 1002) 0)
    as (page & s' & Hfetch & Hrun & _ & _ & _ & Hst & _).
  - compute_done.
  - reflexivity.
  - reflexivity.
  - reflexivity.
  - reflexivity.
  - vm_compute. lia.
  - exists page, s'. split; [exact Hfetch|]. split; [exact Hrun|]. split.
    + apply (Hst 1 (backlog_post 1)). vm_compute. reflexivity.
    + apply (Hst 2 (backlog_post 2)). vm_compute. reflexivity.
Defined.

(** ** Comments *)

Section Comments.
Import InMemoryCommentRepo.
Implicit Types (r : InMemoryPostRepo.t) (cm : InMemoryCommentRepo.t) (c : Comment).

Lemma ensurePostPublished_not_public (e : env) r (postID : Z) :
  not_public r postID ->
  CommentService.ensurePostPublished e r postID = Fail service_ErrCommentNotFound.
Proof.
  unfold not_public, CommentService.ensurePostPublished. simpl.
  unfold InMemoryPostRepo.GetPost.
  destruct (InMemoryPostRepo.posts r !! postID) as [post|]; [|done].
  intros Hp. unfold filtered_out. simpl. by rewrite Hp.
Qed.

Lemma ensurePostPublished_public (e : env) r (postID : Z) (post : Post) :
  InMemoryPostRepo.posts r !! postID = Some post -> Published post = true ->
  CommentService.ensurePostPublished e r postID = Done tt.
Proof.
  intros Hp Hpub. unfold CommentService.ensurePostPublished. simpl.
  unfold InMemoryPostRepo.GetPost. rewrite Hp. unfold filtered_out. simpl.
  by rewrite Hpub.
Qed.

(** While a post is not public its comments cannot be added to, listed or
    edited: [Create] answers [ErrPostNotFound]; [GetByPost] and [Update]
    answer [ErrCommentNotFound], [Update] also to a user who is not the author
    of the comment, since it tests the post before the owner; the comment
    store is left as it is.  [Delete] does not look at the post: the author of
    a comment removes it all the same. *)
Theorem comments_hidden_with_post (e1 e2 e3 : env) r cm (postID : Z) :
  not_public r postID ->
  (forall userID req,
     CommentService.Create e1 e2 r cm userID postID req
     = (cm, Fail (common service_ErrPostNotFound))) /\
  (forall pagination,
     CommentService.GetByPost e1 e2 e3 r cm postID pagination
     = Fail service_ErrCommentNotFound) /\
  (forall id c userID req,
     comments cm !! id = Some c -> c_PostID c = postID ->
     CommentService.Update e1 e2 e3 r cm id userID req
     = (cm, Fail service_ErrCommentNotFound)) /\
  (forall id c,
     comments cm !! id = Some c -> c_PostID c = postID ->
     CommentService.Delete e1 e2 cm id (c_AuthorID c)
     = (mk (seq cm) (delete id (comments cm)), Done tt)).
Proof.
  intros Hnp. split; [|split; [|split]].
  - intros userID req. unfold CommentService.Create. simpl.
    unfold not_public in Hnp. unfold InMemoryPostRepo.GetPost.
    destruct (InMemoryPostRepo.posts r !! postID) as [post|]; [|done].
    unfold filtered_out. simpl. by rewrite Hnp.
  - intros pagination. unfold CommentService.GetByPost.
    by rewrite ensurePostPublished_not_public.
  - intros id c userID req Hc Hpost. unfold CommentService.Update. simpl.
    unfold GetByID. rewrite Hc, Hpost.
    by rewrite ensurePostPublished_not_public.
  - intros id c Hc _. unfold CommentService.Delete. simpl.
    unfold GetByID. rewrite Hc. unfold CommentService.checkOwner.
    rewrite Z.eqb_refl. simpl. unfold Delete. by rewrite Hc.
Qed.

Lemma comments_hidden_with_post_witness :
  CommentService.Update (env_at 20) (env_at 20) (env_at 20) repo_two comments_two 2 8
    (mkCommentUpdateReq "edited")
  = (comments_two, Fail service_ErrCommentNotFound).
Proof.
  refine (proj1 (proj2 (proj2 (comments_hidden_with_post
                                 (env_at 20) (env_at 20) (env_at 20) repo_two comments_two 1 _)))
            2 (mkComment 2 "second" 1 8 6 6) 8 (mkCommentUpdateReq "edited") _ _).
  - vm_compute. reflexivity.
  - vm_compute. reflexivity.
  - reflexivity.
Defined.

(** [CommentService.Update] and [Delete] on a stored comment whose post is
    public: a user who is not the author gets [ErrForbidden] and the store
    stays as it is; the author's update replaces the content, sets the update
    time and keeps id, post, author and creation time; the author's delete
    removes that comment and no other. *)
Theorem comment_by_author_only (e1 e2 e3 : env) r cm (id userID : Z) c (post : Post)
    (req : CommentUpdateRequest) :
  comments cm !! id = Some c ->
  c_ID c = id ->
  InMemoryPostRepo.posts r !! c_PostID c = Some post ->
  Published post = true ->
  (c_AuthorID c <> userID ->
   CommentService.Update e1 e2 e3 r cm id userID req
   = (cm, Fail (common service_ErrForbidden)) /\
   CommentService.Delete e1 e2 cm id userID = (cm, Fail (common service_ErrForbidden))) /\
  (c_AuthorID c = userID ->
   let c' := mkComment id (cur_Content req) (c_PostID c) (c_AuthorID c)
               (c_CreatedAt c) (now e3) in
   CommentService.Update e1 e2 e3 r cm id userID req
   = (mk (seq cm) (<[id := c']> (comments cm)), Done c') /\
   CommentService.Delete e1 e2 cm id userID
   = (mk (seq cm) (delete id (comments cm)), Done tt)).
Proof.
  intros Hc Hid Hp Hpub. split.
  - intros Hne. unfold CommentService.Update, CommentService.Delete. simpl.
    unfold GetByID. rewrite Hc.
    rewrite (ensurePostPublished_public _ _ _ post) by done.
    unfold CommentService.checkOwner.
    by replace (c_AuthorID c =? userID) with false by (symmetry; by apply Z.eqb_neq).
  - intros Heq c'. subst c'. unfold CommentService.Update, CommentService.Delete. simpl.
    unfold GetByID. rewrite Hc.
    rewrite (ensurePostPublished_public _ _ _ post) by done.
    unfold CommentService.checkOwner. rewrite Heq, Z.eqb_refl. simpl.
    unfold Update, Delete. simpl. by rewrite Hid, Hc.
Qed.

Lemma comment_by_author_only_witness :
  CommentService.Update (env_at 20) (env_at 20) (env_at 21) repo_two comments_two 1 7
    (mkCommentUpdateReq "edited")
  = (mk 2 (<[1 := mkComment 1 "edited" 2 7 5 21]> (comments comments_two)),
     Done (mkComment 1 "edited" 2 7 5 21)).
Proof.
  refine (proj1 (proj2 (comment_by_author_only
                          (env_at 20) (env_at 20) (env_at 21) repo_two comments_two 1 7
                          (mkComment 1 "first" 2 7 5 5) news
                          (mkCommentUpdateReq "edited") _ _ _ _) _)).
  - vm_compute. reflexivity.
  - reflexivity.
  - vm_compute. reflexivity.
  - reflexivity.
  - reflexivity.
Defined.

Lemma of_post_Permutation cs cm (postID : Z) :
  of_post cs cm postID ≡ₚ comments_of cm postID.
Proof.
  unfold of_post, comments_of, range_comments.
  apply filter_Permutation', shuffle_Permutation.
Qed.

Lemma GetByPostID_Done cs cm (postID limit offset : Z) (res : list Comment) :
  GetByPostID cs cm postID limit offset = Done res ->
  exists n, res = take n (drop (Z.to_nat offset) (of_post cs cm postID)) /\
            (limit <= 0 -> offset = 0 -> res = of_post cs cm postID).
Proof.
  unfold GetByPostID.
  set (l := of_post cs cm postID).
  destruct (Z.of_nat (length l) <=? offset) eqn:Hlen.
  - intros [= <-]. exists 0%nat. split; [done|]. intros _ ->.
    apply Z.leb_le in Hlen. destruct l; [done|simpl in Hlen; lia].
  - set (end_ := if (limit <=? 0) || (Z.of_nat (length l) <? wrap (offset + limit))
                 then Z.of_nat (length l) else wrap (offset + limit)).
    destruct (end_ - offset <? 0); [done|].
    destruct ((offset <? end_) && (offset <? 0)); [done|].
    intros [= <-]. eexists. split; [done|]. intros Hlim ->.
    unfold end_. replace (limit <=? 0) with true by (symmetry; by apply Z.leb_le).
    simpl. by rewrite Z.sub_0_r, Nat2Z.id, take_ge.
Qed.

(** The list and the total of [GetByPost] fit together.  It answers only for a
    post that is stored and published; the total is the number of stored
    comments of that post, whatever page was asked for; the page holds only
    comments of the post and is never longer than the total; with no limit
    and offset 0 it holds exactly the comments of the post. *)
Theorem comments_page_and_total (e1 e2 e3 : env) r cm (postID : Z)
    (pagination : PaginationParams) (res : list Comment) (total : Z) :
  CommentService.GetByPost e1 e2 e3 r cm postID pagination = Done (res, total) ->
  (exists post, InMemoryPostRepo.posts r !! postID = Some post /\ Published post = true) /\
  total = Z.of_nat (length (comments_of cm postID)) /\
  Z.of_nat (length res) <= total /\
  (forall c, c ∈ res -> c ∈ comments_of cm postID) /\
  (forall limit, Limit pagination = Some limit -> limit <= 0 ->
                 Offset pagination = Some 0 -> res ≡ₚ comments_of cm postID).
Proof.
  unfold CommentService.GetByPost. intros Hget.
  assert (exists post, InMemoryPostRepo.posts r !! postID = Some post /\
                       Published post = true) as Hpost.
  { destruct (InMemoryPostRepo.posts r !! postID) as [post|] eqn:Hp.
    - destruct (Published post) eqn:Hpub; [by exists post|].
      rewrite ensurePostPublished_not_public in Hget; [done|].
      unfold not_public. by rewrite Hp.
    - rewrite ensurePostPublished_not_public in Hget; [done|].
      unfold not_public. by rewrite Hp. }
  split; [done|]. destruct Hpost as (post & Hp & Hpub).
  rewrite (ensurePostPublished_public _ _ _ post) in Hget by done.
  destruct (Limit pagination) as [limit|] eqn:Hl; [|done].
  destruct (Offset pagination) as [offset|] eqn:Ho; [|done].
  simpl in Hget.
  destruct (GetByPostID (order e2) cm postID limit offset) as [page| |] eqn:Hpage;
    try done.
  unfold GetCountByPostID in Hget. injection Hget as <- <-.
  destruct (GetByPostID_Done _ _ _ _ _ _ Hpage) as (n & Hres & Hall).
  rewrite !of_post_Permutation.
  split; [done|]. split.
  { rewrite Hres, length_take, length_drop, of_post_Permutation. lia. }
  split.
  { intros c Hin. rewrite Hres in Hin.
    apply subseteq_take, subseteq_drop in Hin. by rewrite <- (of_post_Permutation (order e2)). }
  intros limit' [= <-] Hlim [= ->]. rewrite Hall by done. apply of_post_Permutation.
Qed.

Lemma comments_page_and_total_witness :
  exists res,
    CommentService.GetByPost (env_at 20) (env_at 20) (env_at 20) repo_two comments_two 2
      (mkPagination (Some 10) (Some 0)) = Done (res, 1) /\
    1 = Z.of_nat (length (comments_of comments_two 2)).
Proof.
  eexists. split; [vm_compute; reflexivity|].
  refine (proj1 (proj2 (comments_page_and_total
                          (env_at 20) (env_at 20) (env_at 20) repo_two comments_two 2
                          (mkPagination (Some 10) (Some 0)) _ 1 _))).
  vm_compute. reflexivity.
Defined.

Lemma comments_of_insert cm (id : Z) c (postID : Z) :
  comments cm !! id = None ->
  comments_of (mk (seq cm + 1) (<[id := c]> (comments cm))) postID
  ≡ₚ (if c_PostID c =? postID then [c] else []) ++ comments_of cm postID.
Proof.
  intros Hfresh. unfold comments_of. simpl.
  rewrite (filter_Permutation' _ _ (c :: (map_to_list (comments cm)).*2)).
  - simpl. by destruct (c_PostID c =? postID).
  - by rewrite map_to_list_insert.
Qed.

(** A comment on a public post gets the next id, which no stored comment has,
    the post and the caller as author, and the time of the write as creation
    and update time; it can be read back at once, the number of comments of
    its post goes up by one, and the comments of every other post are the same
    up to order. *)
Theorem comment_create_counts (e1 e2 e : env) r cm (userID postID : Z) (post : Post)
    (req : CommentCreateRequest) :
  InMemoryPostRepo.posts r !! postID = Some post ->
  Published post = true ->
  comment_ids_bounded cm ->
  seq cm < 2 ^ 63 - 1 ->
  let c := mkComment (seq cm + 1) (ccr_Content req) postID userID (now e2) (now e2) in
  let cm' := mk (seq cm + 1) (<[seq cm + 1 := c]> (comments cm)) in
  CommentService.Create e1 e2 r cm userID postID req = (cm', Done c) /\
  comments cm !! (seq cm + 1) = None /\
  CommentService.GetByID e cm' (seq cm + 1) = Done c /\
  GetCountByPostID (order e) cm' postID
  = Done (Z.of_nat (length (comments_of cm postID)) + 1) /\
  (forall q, q <> postID -> comments_of cm' q ≡ₚ comments_of cm q) /\
  comment_ids_bounded cm'.
Proof.
  intros Hp Hpub [Hseq Hids] Hmax c cm'.
  assert (comments cm !! (seq cm + 1) = None) as Hfresh.
  { destruct (comments cm !! (seq cm + 1)) eqn:E; [|done]. apply Hids in E. lia. }
  split.
  { unfold CommentService.Create. simpl. unfold InMemoryPostRepo.GetPost.
    rewrite Hp. unfold filtered_out. simpl. rewrite Hpub. simpl.
    unfold Create. simpl. by rewrite wrap_small by (unfold int_range; lia). }
  split; [done|]. split.
  { unfold CommentService.GetByID. simpl. unfold GetByID, cm'. simpl.
    by rewrite lookup_insert_eq. }
  split.
  { unfold GetCountByPostID. f_equal.
    rewrite of_post_Permutation. unfold cm'. rewrite comments_of_insert by done.
    unfold c at 1. simpl. rewrite Z.eqb_refl. simpl. lia. }
  split.
  { intros q Hq. unfold cm'. rewrite comments_of_insert by done.
    unfold c at 1. simpl.
    by replace (postID =? q) with false by (symmetry; apply Z.eqb_neq; congruence). }
  split; simpl; [lia|]. intros id x Hx.
  destruct (decide (seq cm + 1 = id)) as [<-|Hne]; [lia|].
  rewrite lookup_insert_ne in Hx by done. apply Hids in Hx. lia.
Qed.

Lemma comment_create_counts_witness :
  GetCountByPostID [] (mk 3 (<[3 := mkComment 3 "third" 2 8 21 21]> (comments comments_two))) 2
  = Done (Z.of_nat (length (comments_of comments_two 2)) + 1).
Proof.
  refine (proj1 (proj2 (proj2 (proj2 (comment_create_counts
                                        (env_at 20) (env_at 21) (env_at 22) repo_two comments_two
                                        8 2 news (mkCommentCreateReq "third") _ _ _ _))))).
  - vm_compute. reflexivity.
  - reflexivity.
  - compute_done.
  - by vm_compute.
Defined.

End Comments.

(** ** Users *)

Section Users.
Import InMemoryUserRepo.
Implicit Types (r : InMemoryUserRepo.t) (u user : User).

Lemma elem_of_range_users cs r u :
  u ∈ range_users cs (users r) <-> exists id, users r !! id = Some u.
Proof.
  unfold range_users. rewrite shuffle_Permutation, list_elem_of_fmap. split.
  - intros [[k x] [-> Hk]]. exists k. by apply elem_of_map_to_list.
  - intros [k Hk]. exists (k, u). split; [done|]. by apply elem_of_map_to_list.
Qed.

Lemma range_users_nil cs r : range_users cs (users r) = [] <-> users r = ∅.
Proof.
  split.
  - intros Hnil. apply map_eq. intros k. rewrite lookup_empty.
    destruct (users r !! k) as [u|] eqn:Hk; [|done].
    assert (u ∈ range_users cs (users r)) as Hin by (apply elem_of_range_users; eauto).
    rewrite Hnil in Hin. by apply elem_of_nil in Hin.
  - intros Hempty. destruct (range_users cs (users r)) as [|u l] eqn:E; [done|].
    assert (u ∈ range_users cs (users r)) as Hin by (rewrite E; by left).
    apply elem_of_range_users in Hin as [k Hk]. rewrite Hempty in Hk.
    by rewrite lookup_empty in Hk.
Qed.

Lemma existsb_taken cs r user :
  existsb (fun u => String.eqb (u_Email u) (u_Email user)
                    || String.eqb (u_Username u) (u_Username user))
    (range_users cs (users r)) = true <-> taken r user.
Proof.
  unfold taken. rewrite existsb_exists, map_Exists_lookup. split.
  - intros (u & Hin & Ht). apply list_elem_of_In, elem_of_range_users in Hin as [id Hid].
    exists id, u. split; [done|]. apply orb_true_iff in Ht.
    by rewrite !String.eqb_eq in Ht.
  - intros (id & u & Hid & Ht). exists u. split.
    + apply list_elem_of_In, elem_of_range_users. eauto.
    + apply orb_true_iff. by rewrite !String.eqb_eq.
Qed.

(** [Create] keeps emails and user names unique, whatever the order in which
    the map yields the users: when a stored user has the email or the user name
    it answers [ErrUserExists] and stores nothing; otherwise it stores the user
    under the next id, which no stored user has, with the time of the write as
    creation and update time, and no two stored users share an email or a user
    name afterwards either. *)
Theorem user_create_unique (e : env) r user :
  user_ids_bounded r ->
  unique_users r ->
  seq r < 2 ^ 63 - 1 ->
  (taken r user -> Create e r user = (r, user, Some ErrUserExists)) /\
  (~ taken r user ->
   let u' := mkUser (seq r + 1) (u_Username user) (u_Email user) (u_PasswordHash user)
               (now e) (now e) in
   let r' := mk (seq r + 1) (<[seq r + 1 := u']> (users r)) in
   Create e r user = (r', u', None) /\
   users r !! (seq r + 1) = None /\
   GetByID r' (seq r + 1) = Done u' /\
   unique_users r' /\ user_ids_bounded r').
Proof.
  intros [Hseq Hids] Huniq Hmax. split.
  - intros Ht. unfold Create. apply (existsb_taken (order e)) in Ht. by rewrite Ht.
  - intros Ht u' r'.
    assert (users r !! (seq r + 1) = None) as Hfresh.
    { destruct (users r !! (seq r + 1)) eqn:E; [|done]. apply Hids in E. lia. }
    split.
    { unfold Create.
      destruct (existsb _ (range_users (order e) (users r))) eqn:Eb.
      - by apply existsb_taken in Eb.
      - by rewrite wrap_small by (unfold int_range; lia). }
    split; [done|]. split.
    { unfold GetByID, r'. simpl. by rewrite lookup_insert_eq. }
    split.
    + intros id1 u1 H1 id2 u2 H2 Hsame. unfold r' in H1, H2. simpl in H1, H2.
      destruct (decide (seq r + 1 = id1)) as [<-|Hn1];
        destruct (decide (seq r + 1 = id2)) as [<-|Hn2]; [done| | |].
      * rewrite lookup_insert_eq in H1. rewrite lookup_insert_ne in H2 by done.
        injection H1 as <-. exfalso. apply Ht. apply map_Exists_lookup.
        exists id2, u2. split; [done|]. simpl in Hsame. intuition congruence.
      * rewrite lookup_insert_eq in H2. rewrite lookup_insert_ne in H1 by done.
        injection H2 as <-. exfalso. apply Ht. apply map_Exists_lookup.
        exists id1, u1. split; [done|]. simpl in Hsame. intuition congruence.
      * rewrite lookup_insert_ne in H1, H2 by done. by apply (Huniq id1 u1 H1 id2 u2 H2).
    + split; simpl; [lia|]. intros id u Hu.
      destruct (decide (seq r + 1 = id)) as [<-|Hne].
      * rewrite lookup_insert_eq in Hu. injection Hu as <-. simpl. lia.
      * rewrite lookup_insert_ne in Hu by done. apply Hids in Hu. lia.
Qed.

Lemma user_create_unique_witness :
  Create (env_at 3) users_two (mkUser 0 "carl" "ann@example.org" "hash3" 0 0)
  = (users_two, mkUser 0 "carl" "ann@example.org" "hash3" 0 0, Some ErrUserExists).
Proof.
  refine (proj1 (user_create_unique (env_at 3) users_two
                   (mkUser 0 "carl" "ann@example.org" "hash3" 0 0) _ _ _) _).
  - compute_done.
  - compute_done.
  - by vm_compute.
  - compute_done.
Defined.

Lemma find_unique {A : Type} (t : A -> bool) (l : list A) (x : A) :
  x ∈ l -> t x = true -> (forall y, y ∈ l -> t y = true -> y = x) ->
  List.find t l = Some x.
Proof.
  induction l as [|y l IH]; intros Hin Hx Hall; [by apply elem_of_nil in Hin|].
  simpl. destruct (t y) eqn:Hy.
  - f_equal. apply Hall; [by left|done].
  - apply IH; [|done|].
    + apply elem_of_cons in Hin as [->|Hin]; [congruence|done].
    + intros z Hz. apply Hall. by right.
Qed.

Lemma find_none {A : Type} (t : A -> bool) (l : list A) :
  (forall y, y ∈ l -> t y = false) -> List.find t l = None.
Proof.
  induction l as [|y l IH]; intros Hall; [done|]. simpl.
  rewrite (Hall y) by (by left). apply IH. intros z Hz. apply Hall. by right.
Qed.

Lemma GetByField_loop_email (value : any) (us : list User) :
  GetByField_loop "email" value us
  = match List.find (fun u => string_eq_any (u_Email u) value) us with
    | Some u => Done u
    | None => Fail ErrUserNotFound
    end.
Proof.
  induction us as [|u us IH]; [done|]. simpl.
  destruct (string_eq_any (u_Email u) value); [done|apply IH].
Qed.

Lemma GetByField_loop_username (value : any) (us : list User) :
  GetByField_loop "username" value us
  = match List.find (fun u => string_eq_any (u_Username u) value) us with
    | Some u => Done u
    | None => Fail ErrUserNotFound
    end.
Proof.
  induction us as [|u us IH]; [done|]. simpl.
  destruct (string_eq_any (u_Username u) value); [done|apply IH].
Qed.

Lemma GetByField_loop_id (value : any) (us : list User) :
  GetByField_loop "id" value us
  = match List.find (fun u => int_eq_any (u_ID u) value) us with
    | Some u => Done u
    | None => Fail ErrUserNotFound
    end.
Proof.
  induction us as [|u us IH]; [done|]. simpl.
  destruct (int_eq_any (u_ID u) value); [done|apply IH].
Qed.

(** While emails and user names are unique, [GetByField] finds a stored user
    by email, by user name and by id whatever the order in which the map yields
    the users, and [ExistsByField] says so; an email no stored user has, and a
    value that is not a string, find nobody. *)
Theorem user_found_by_field cs r (id : Z) u :
  unique_users r ->
  user_ids_bounded r ->
  users r !! id = Some u ->
  GetByField cs r "email" (any_string (u_Email u)) = Done u /\
  GetByField cs r "username" (any_string (u_Username u)) = Done u /\
  GetByField cs r "id" (any_int id) = Done u /\
  ExistsByField cs r "email" (any_string (u_Email u)) = (true, None) /\
  (forall email,
     ~ map_Exists (fun _ x => u_Email x = email) (users r) ->
     GetByField cs r "email" (any_string email) = Fail ErrUserNotFound /\
     ExistsByField cs r "email" (any_string email) = (false, None)) /\
  (forall z, GetByField cs r "email" (any_int z) = Fail ErrUserNotFound).
Proof.
  intros Huniq [_ Hids] Hu.
  assert (u ∈ range_users cs (users r)) as Hin by (apply elem_of_range_users; eauto).
  assert (GetByField cs r "email" (any_string (u_Email u)) = Done u) as Hemail.
  { unfold GetByField. rewrite GetByField_loop_email.
    rewrite (find_unique _ _ u); [done|done|simpl; by apply String.eqb_eq|].
    intros y [k Hk]%elem_of_range_users Hy. simpl in Hy. apply String.eqb_eq in Hy.
    assert (k = id) as -> by (apply (Huniq k y Hk id u Hu); by left). congruence. }
  split; [done|]. split.
  { unfold GetByField. rewrite GetByField_loop_username.
    rewrite (find_unique _ _ u); [done|done|simpl; by apply String.eqb_eq|].
    intros y [k Hk]%elem_of_range_users Hy. simpl in Hy. apply String.eqb_eq in Hy.
    assert (k = id) as -> by (apply (Huniq k y Hk id u Hu); by right). congruence. }
  split.
  { unfold GetByField. rewrite GetByField_loop_id.
    rewrite (find_unique _ _ u); [done|done| |].
    - simpl. apply Z.eqb_eq. by apply (Hids id u Hu).
    - intros y [k Hk]%elem_of_range_users Hy. simpl in Hy. apply Z.eqb_eq in Hy.
      assert (k = id) as -> by (destruct (Hids k y Hk); congruence). congruence. }
  split; [unfold ExistsByField; by rewrite Hemail|]. split.
  - intros email Hno.
    assert (GetByField cs r "email" (any_string email) = Fail ErrUserNotFound) as Hnf.
    { unfold GetByField. rewrite GetByField_loop_email. rewrite find_none; [done|].
      intros y [k Hk]%elem_of_range_users. simpl. apply String.eqb_neq.
      intros Heq. apply Hno. apply map_Exists_lookup. eauto. }
    split; [done|]. unfold ExistsByField. by rewrite Hnf.
  - intros z. unfold GetByField. rewrite GetByField_loop_email. by rewrite find_none.
Qed.

Lemma user_found_by_field_witness :
  GetByField [1%nat] users_two "username" (any_string "bob") = Done bob.
Proof.
  refine (proj1 (proj2 (user_found_by_field [1%nat] users_two 2 bob _ _ _))).
  - compute_done.
  - compute_done.
  - vm_compute. reflexivity.
Defined.

(** For a field name it does not know, [GetByField] answers "unsupported field"
    only when there is a user to look at: on an empty repository it answers
    [ErrUserNotFound], which [ExistsByField] turns into [false] without an
    error. *)
Theorem unsupported_field cs r (field : string) (value : any) :
  unsupported field ->
  GetByField cs r field value
  = (if decide (users r = ∅) then Fail ErrUserNotFound
     else Fail (ErrUnsupportedField field)) /\
  ExistsByField cs r field value
  = (if decide (users r = ∅) then (false, None)
     else (false, Some (ErrUnsupportedField field))).
Proof.
  intros (He & Hu & Hi).
  assert (GetByField cs r field value
          = if decide (users r = ∅) then Fail ErrUserNotFound
            else Fail (ErrUnsupportedField field)) as Hget.
  { unfold GetByField. destruct (decide (users r = ∅)) as [Hempty|Hne].
    - by rewrite (proj2 (range_users_nil cs r) Hempty).
    - destruct (range_users cs (users r)) as [|u us] eqn:E.
      + by apply range_users_nil in E.
      + simpl. apply String.eqb_neq in He, Hu, Hi. by rewrite He, Hu, Hi. }
  split; [done|]. unfold ExistsByField. rewrite Hget.
  by destruct (decide (users r = ∅)).
Qed.

Lemma unsupported_field_witness :
  ExistsByField [] users_two "phone" (any_string "555") =
  (false, Some (ErrUnsupportedField "phone")).
Proof.
  refine (proj2 (unsupported_field [] users_two "phone" (any_string "555") _)).
  by repeat split.
Defined.

End Users.

(** ** Refresh tokens *)

Section RefreshTokens.
Import InMemoryRefreshTokenRepo.
Implicit Types (r : InMemoryRefreshTokenRepo.t) (token : RefreshToken).

Lemma foldl_delete_lookup (userID : Z) (l : list (string * RefreshToken))
    (m : gmap string RefreshToken) (k : string) :
  foldl (fun m kt => if rt_UserID kt.2 =? userID then delete kt.1 m else m) m l !! k
  = if existsb (fun kt => String.eqb kt.1 k && (rt_UserID kt.2 =? userID)) l
    then None else m !! k.
Proof.
  revert m. induction l as [|[k' t] l IH]; intros m; [done|]. simpl. rewrite IH.
  destruct (existsb _ l); [by rewrite orb_true_r|]. rewrite orb_false_r.
  destruct (rt_UserID t =? userID); simpl.
  - destruct (String.eqb k' k) eqn:Ek.
    + apply String.eqb_eq in Ek as ->. by rewrite lookup_delete_eq.
    + apply String.eqb_neq in Ek. by rewrite lookup_delete_ne.
  - by rewrite andb_false_r.
Qed.

(** [DeleteByUserID] removes the tokens of the user and no others, whatever the
    order in which the map yields them, and returns no error. *)
Theorem tokens_of_user_deleted cs r (userID : Z) :
  DeleteByUserID cs r userID
  = (mk (filter (fun kt => rt_UserID kt.2 <> userID) (tokens r)) (seq r), None).
Proof.
  unfold DeleteByUserID. f_equal. f_equal. apply map_eq. intros k.
  rewrite foldl_delete_lookup, map_lookup_filter.
  destruct (existsb _ _) eqn:Eb.
  - apply existsb_exists in Eb as ([k' t] & Hin & Ht). simpl in Ht.
    apply andb_true_iff in Ht as [Hk Hu]. apply String.eqb_eq in Hk as ->.
    apply Z.eqb_eq in Hu.
    apply list_elem_of_In in Hin. rewrite shuffle_Permutation in Hin.
    apply elem_of_map_to_list in Hin. rewrite Hin. simpl.
    by rewrite option_guard_False by (simpl; by intros ?).
  - destruct (tokens r !! k) as [t|] eqn:Hk; [|done]. simpl.
    rewrite option_guard_True; [done|]. simpl. intros Hu.
    assert (existsb (fun kt => String.eqb kt.1 k && (rt_UserID kt.2 =? userID))
              (shuffle cs (map_to_list (tokens r))) = true) as Hex; [|congruence].
    apply existsb_exists. exists (k, t). split.
    + apply list_elem_of_In. rewrite shuffle_Permutation. by apply elem_of_map_to_list.
    + simpl. rewrite String.eqb_refl. simpl. by apply Z.eqb_eq.
Qed.

(** [Create] never writes over a stored token: a value that is stored gives an
    error and leaves the repository as it is.  A fresh value is stored, so that
    [GetByValue] returns the token and every other value reads as before, and
    [DeleteByValue] of it restores the repository. *)
Theorem token_round_trip r token :
  (is_Some (tokens r !! rt_Value token) ->
   Create r token = (r, Some ErrTokenAlreadyExists)) /\
  (tokens r !! rt_Value token = None ->
   exists r',
     Create r token = (r', None) /\
     GetByValue r' (rt_Value token) = Done token /\
     (forall value, value <> rt_Value token -> GetByValue r' value = GetByValue r value) /\
     DeleteByValue r' (rt_Value token) = (r, None)).
Proof.
  split.
  - intros [old Hold]. unfold Create. by rewrite Hold.
  - intros Hfresh. eexists. unfold Create. rewrite Hfresh. split; [done|].
    unfold GetByValue, DeleteByValue. simpl. rewrite lookup_insert_eq. split; [done|].
    split.
    + intros value Hne. by rewrite lookup_insert_ne.
    + rewrite delete_insert_id by done. by destruct r.
Qed.

Lemma token_round_trip_witness :
  Create tokens_three (mkRefreshToken "a" 2 200 9) = (tokens_three, Some ErrTokenAlreadyExists).
Proof.
  refine (proj1 (token_round_trip tokens_three (mkRefreshToken "a" 2 200 9)) _).
  vm_compute. eauto.
Defined.

End RefreshTokens.
